(** * AiBsCleaner: analysis orchestration, caching and suppression

    A shallow embedding of the analysis core of AiBsCleaner:
    - [analyzer/ignore.go]: the inline suppression directives;
    - [analyzer/analyzer.go]: [Analyze], [checkCache], [updateCache],
      [cloneIssues], [computeFileHash];
    - [analyzer/analyzer.go] and its walk helpers: [WalkWithContext];
    - [cache/file_cache.go]: the JSON-backed disk store;
    - [cache/hybrid_cache.go]: the in-memory LRU tier in front of it.

    Conventions.  Go [int]/[int64] values are [Z] and every addition the
    code performs is wrapped to 64 bits ([int_add]).  A Go slice is an
    [option (list _)], [None] being the nil slice.  A pointer that may be
    nil is an [option]; a pointer whose sharing matters is a location in
    an explicit store (module [Shared]), and the issue pointers that
    [IgnoreIssue] and [MarkIssueFixed] write through are slots of the disk
    store with a relation telling which slots hold the same pointer.  Wall-clock reads are an input
    [now] of the operation that performs them.  Strings are byte strings,
    UTF-8 as in Go: [TrimSpace] strips the white space of
    [unicode.IsSpace], read off its encodings.  An operation that can panic
    (a nil pointer read) returns an [option], [None] being the panic.
    Operations run one at a time: the locks and the background flush
    goroutine are not modelled. *)

From Stdlib Require Import ZArith Ascii String List Lia Bool DecimalString.
From stdpp Require Import gmap strings list fin_maps.

Open Scope Z_scope.

(** ** Machine integers *)

Definition wrap64 (z : Z) : Z := (z + 2 ^ 63) mod 2 ^ 64 - 2 ^ 63.
Definition int_add (a b : Z) : Z := wrap64 (a + b).

(** ** Slices and nilable pointers *)

Definition slice (A : Type) : Type := option (list A).
Definition slice_elems {A : Type} (s : slice A) : list A := default [] s.
Definition slice_len {A : Type} (s : slice A) : Z := Z.of_nat (length (slice_elems s)).

(** ** The [strings] functions the suppression engine calls *)

Definition is_space (c : ascii) : bool :=
  let n := N_of_ascii c in
  ((9 <=? n) && (n <=? 13))%N || (n =? 32)%N.

Fixpoint strip_prefix (p s : string) : option string :=
  match p, s with
  | EmptyString, _ => Some s
  | String a p', String b s' => if Ascii.eqb a b then strip_prefix p' s' else None
  | String _ _, EmptyString => None
  end.

Definition HasPrefix (s p : string) : bool :=
  match strip_prefix p s with Some _ => true | None => false end.

Definition TrimPrefix (s p : string) : string := default s (strip_prefix p s).

Fixpoint TrimSuffix (s suf : string) : string :=
  match s with
  | EmptyString => EmptyString
  | String c r => if String.eqb s suf then EmptyString else String c (TrimSuffix r suf)
  end.

(** [unicode.IsSpace] above U+007F, on the UTF-8 encodings: U+0085 and
    U+00A0 take two bytes ([C2 85], [C2 A0]); U+1680 ([E1 9A 80]),
    U+2000 to U+200A ([E2 80 80] to [E2 80 8A]), U+2028, U+2029, U+202F
    ([E2 80 A8], [E2 80 A9], [E2 80 AF]), U+205F ([E2 81 9F]) and U+3000
    ([E3 80 80]) take three.  [is_space] above is the ASCII part. *)
Definition is_space2 (c1 c2 : ascii) : bool :=
  let n1 := N_of_ascii c1 in
  let n2 := N_of_ascii c2 in
  ((n1 =? 194) && ((n2 =? 133) || (n2 =? 160)))%N.

Definition is_space3 (c1 c2 c3 : ascii) : bool :=
  let n1 := N_of_ascii c1 in
  let n2 := N_of_ascii c2 in
  let n3 := N_of_ascii c3 in
  ((n1 =? 225) && (n2 =? 154) && (n3 =? 128)
   || (n1 =? 226) && (n2 =? 128)
      && ((128 <=? n3) && (n3 <=? 138) || (n3 =? 168) || (n3 =? 169) || (n3 =? 175))
   || (n1 =? 226) && (n2 =? 129) && (n3 =? 159)
   || (n1 =? 227) && (n2 =? 128) && (n3 =? 128))%N.

(** [strings.TrimLeftFunc(s, unicode.IsSpace)]: the runes are decoded
    from the front; a byte that starts no white space rune ends the
    trimming, also when it is not valid UTF-8. *)
Fixpoint trim_left (s : string) : string :=
  match s with
  | EmptyString => EmptyString
  | String c1 r1 =>
      if is_space c1 then trim_left r1
      else
        match r1 with
        | EmptyString => s
        | String c2 r2 =>
            if is_space2 c1 c2 then trim_left r2
            else
              match r2 with
              | EmptyString => s
              | String c3 r3 => if is_space3 c1 c2 c3 then trim_left r3 else s
              end
        end
  end.

(** The bytes of a string last byte first, without the white space runes
    it ends with: [strings.TrimRightFunc] decodes the runes from the
    back. *)
Fixpoint drop_space_back (l : list ascii) : list ascii :=
  match l with
  | [] => []
  | c3 :: r1 =>
      if is_space c3 then drop_space_back r1
      else
        match r1 with
        | [] => l
        | c2 :: r2 =>
            if is_space2 c2 c3 then drop_space_back r2
            else
              match r2 with
              | [] => l
              | c1 :: r3 => if is_space3 c1 c2 c3 then drop_space_back r3 else l
              end
        end
  end.

Definition trim_right (s : string) : string :=
  string_of_list_ascii (rev (drop_space_back (rev (list_ascii_of_string s)))).

(** [strings.TrimSpace]: its fast path for ASCII and its fall back to
    [TrimFunc(s, unicode.IsSpace)] give the same string. *)
Definition TrimSpace (s : string) : string := trim_right (trim_left s).

Fixpoint Contains (s sub : string) : bool :=
  HasPrefix s sub ||
  match s with
  | EmptyString => false
  | String _ r => Contains r sub
  end.

(** [strings.Split(s, sep)] for a one-byte separator: the pieces between
    the separators, empty pieces included; a string without separator is
    its own single piece. *)
Fixpoint Split (s : string) (sep : ascii) : list string :=
  match s with
  | EmptyString => [EmptyString]
  | String c r =>
      if Ascii.eqb c sep then EmptyString :: Split r sep
      else match Split r sep with
           | h :: t => String c h :: t
           | [] => [String c EmptyString]
           end
  end.

(** ** [models.Issue] *)

Definition IssueType : Type := Z.
Definition SeverityLevel : Type := Z.
Definition Time : Type := Z.

Record token_Position := {
  pos_Filename : string;
  pos_Offset : Z;
  pos_Line : Z;
  pos_Column : Z
}.

Record Issue := {
  ID : string;
  File : string;
  Line : Z;
  Column : Z;
  Position : token_Position;
  Type_ : IssueType;
  Severity : SeverityLevel;
  Message : string;
  Suggestion : string;
  Code : string;
  CanBeFixed : bool;
  FixedAt : Time;
  CreatedAt : Time;
  UpdatedAt : Time;
  IgnoredAt : Time;
  IgnoreType : IssueType;
  WhyBad : string
}.

(** ** The parts of [go/ast] and [go/token] the core reads *)

(** What [ast.Inspect] sees of a syntax tree: every node has a position
    and its non-nil children in walk order. *)
#[warnings="-register-all"]
Inductive Node := mkNode (node_Pos : Z) (node_children : list Node).

Record Comment := { Slash : Z; Text : string }.
Definition CommentGroup : Type := list Comment.

Record ast_File := { Root : Node; Comments : list CommentGroup }.

(** A file set maps a position to its line. *)
Record FileSet := { PositionLine : Z -> Z }.

(** ** analyzer/ignore.go *)

Record ignoreRange := {
  startLine : Z;
  endLine : Z;
  issueType : string
}.

Record IgnoreChecker := {
  ic_fset : FileSet;
  ic_file : ast_File;
  ignoreRanges : gmap string (list ignoreRange)
}.

Definition set_ranges (ic : IgnoreChecker) (m : gmap string (list ignoreRange)) : IgnoreChecker :=
  {| ic_fset := ic_fset ic; ic_file := ic_file ic; ignoreRanges := m |}.

Definition extractCommentText (text : string) : string :=
  let text :=
    if HasPrefix text "//" then TrimPrefix text "//"
    else if HasPrefix text "/*" then TrimSuffix (TrimPrefix text "/*") "*/"
    else text in
  TrimSpace text.

Definition addIgnoreRange (ic : IgnoreChecker) (ty : string) (startL endL : Z) : IgnoreChecker :=
  let ir := {| startLine := startL; endLine := endL; issueType := ty |} in
  set_ranges ic (<[ty := default [] (ignoreRanges ic !! ty) ++ [ir]]> (ignoreRanges ic)).

Definition processSpecificDirective (ic : IgnoreChecker) (directive : string)
    (issueTypes : list string) (line : Z) : IgnoreChecker :=
  if String.eqb directive "abc:ignore-line" then
    fold_left (fun ic ty => addIgnoreRange ic (TrimSpace ty) line line) issueTypes ic
  else if String.eqb directive "abc:ignore-next-line" then
    fold_left (fun ic ty => addIgnoreRange ic (TrimSpace ty) (int_add line 1) (int_add line 1))
      issueTypes ic
  else if String.eqb directive "abc:ignore-file" then
    fold_left (fun ic ty =>
                 let ty := if String.eqb ty "" then "*"%string else ty in
                 addIgnoreRange ic (TrimSpace ty) 0 999999)
      issueTypes ic
  else if String.eqb directive "abc:ignore" then
    match issueTypes with
    | [] => addIgnoreRange ic "" (int_add line 1) (int_add line 1)
    | _ =>
        fold_left (fun ic ty =>
                     let ty := TrimSpace ty in
                     if Contains ty "_IN_LOOP" || Contains ty "LOOP_"
                     then addIgnoreRange ic ty (int_add line 1) (int_add line 10)
                     else addIgnoreRange ic ty (int_add line 1) (int_add line 1))
          issueTypes ic
    end
  else ic.

Definition processIgnoreDirective (ic : IgnoreChecker) (text : string) (pos : Z) : IgnoreChecker :=
  let line := PositionLine (ic_fset ic) pos in
  let parts := Split text " " in
  match parts with
  | [_] => addIgnoreRange ic "" (int_add line 1) (int_add line 1)
  | directive :: types :: _ => processSpecificDirective ic directive (Split types ",") line
  | [] => ic
  end.

Definition processComment (ic : IgnoreChecker) (c : Comment) : IgnoreChecker :=
  let text := extractCommentText (Text c) in
  if HasPrefix text "abc:ignore" then processIgnoreDirective ic text (Slash c) else ic.

Definition parseIgnoreComments (ic : IgnoreChecker) : IgnoreChecker :=
  fold_left (fun ic cg => fold_left processComment cg ic) (Comments (ic_file ic)) ic.

Definition NewIgnoreChecker (fset : FileSet) (file : ast_File) : IgnoreChecker :=
  parseIgnoreComments {| ic_fset := fset; ic_file := file; ignoreRanges := ∅ |}.

Definition in_range (line : Z) (r : ignoreRange) : bool :=
  (startLine r <=? line) && (line <=? endLine r).

Definition covers (m : gmap string (list ignoreRange)) (key : string) (line : Z) : bool :=
  match m !! key with
  | Some ranges => existsb (in_range line) ranges
  | None => false
  end.

Definition ShouldIgnore (ic : IgnoreChecker) (ty : string) (line : Z) : bool :=
  if covers (ignoreRanges ic) ty line then true
  else if covers (ignoreRanges ic) "" line then true
  else if covers (ignoreRanges ic) "*" line then true
  else false.

Section Filter.
(** [IssueType.String] is generated code ([enumer]); the engine only
    needs that it is a function of the issue type. *)
Variable IssueType_String : IssueType -> string.

Definition keep_issue (ic : IgnoreChecker) (p : option Issue) : bool :=
  match p with
  | None => false
  | Some issue => negb (ShouldIgnore ic (IssueType_String (Type_ issue)) (Line issue))
  end.

Definition FilterIssuesByComments (issues : slice (option Issue))
    (fset : option FileSet) (file : option ast_File) : slice (option Issue) :=
  match file, fset with
  | Some file, Some fset =>
      let ic := NewIgnoreChecker fset file in
      Some (List.filter (keep_issue ic) (slice_elems issues))
  | _, _ => issues
  end.
End Filter.

(** ** analyzer/analyzer.go: the structural fingerprint *)

(** [hash/fnv] 64-bit FNV-1a. *)
Definition fnv_offset64 : Z := 14695981039346656037.
Definition fnv_prime64 : Z := 1099511628211.

Definition fnv_step (h : Z) (c : ascii) : Z :=
  (Z.lxor h (Z.of_N (N_of_ascii c)) * fnv_prime64) mod 2 ^ 64.

Definition fnv_write (h : Z) (bytes : string) : Z :=
  fold_left fnv_step (list_ascii_of_string bytes) h.

(** [strconv.AppendInt(buf[:0], i, 10)]: the decimal digits, with a
    leading minus sign for a negative number. *)
Definition AppendInt (i : Z) : string := NilZero.string_of_int (Z.to_int i).

Definition digit36 (d : Z) : ascii :=
  ascii_of_N (Z.to_N (if d <? 10 then 48 + d else 87 + d)).

(** [strconv.FormatUint(u, 36)]; thirteen digits hold any 64-bit value,
    so the fuel is never the reason to stop. *)
Fixpoint format36 (fuel : nat) (u : Z) (acc : string) : string :=
  match fuel with
  | O => acc
  | S fuel' =>
      let acc' := String (digit36 (u mod 36)) acc in
      if u / 36 =? 0 then acc' else format36 fuel' (u / 36) acc'
  end.

Definition FormatUint36 (u : Z) : string := format36 64 u EmptyString.

(** The nodes [ast.Inspect] hands to its callback, in call order (the
    closing nil calls are skipped by the callback itself). *)
Fixpoint inspect (n : Node) : list Z :=
  match n with
  | mkNode p cs => p :: flat_map inspect cs
  end.

Definition NoPos : Z := 0.

(** One callback invocation on a node at position [pos]. *)
Definition visit (st : Z * Z) (pos : Z) : Z * Z :=
  let '(h, nodeCount) := st in
  let nodeCount := int_add nodeCount 1 in
  if pos =? NoPos then (h, nodeCount) else (fnv_write h (AppendInt pos), nodeCount).

Definition fileSum64 (file : ast_File) : Z :=
  let '(h, nodeCount) := fold_left visit (inspect (Root file)) (fnv_offset64, 0) in
  fnv_write h (AppendInt nodeCount).

Definition computeFileHash (file : ast_File) : string := FormatUint36 (fileSum64 file).

Definition cloneIssues (src : slice (option Issue)) : slice (option Issue) :=
  match slice_elems src with
  | [] => Some []
  | l => Some (List.filter (fun p => match p with Some _ => true | None => false end) l)
  end.

(** ** cache/file_cache.go: the disk store *)

Definition CacheVersion : string := "1.0".

Record IgnoredRule := { FilePattern : string; RuleTypes : slice string }.

Record FileRecord := {
  Path : string;
  Hash : string;
  LastAnalyzed : Time;
  Issues : slice (option Issue);
  Ignored : slice string
}.

Record CacheStats := {
  TotalFiles : Z;
  TotalIssues : Z;
  IgnoredIssues : Z;
  FixedIssues : Z;
  LastFullScan : Time;
  CacheHits : Z;
  CacheMisses : Z
}.

Record CacheData := {
  Version : string;
  Files : list FileRecord;
  IgnoredRules : list IgnoredRule;
  Stats : CacheStats;
  LastUpdated : Time
}.

(** [persisted] is the content of [cache.json] and [writable] tells
    whether writing it succeeds; both belong to the environment. *)
Record FileCache := {
  baseDir : string;
  cacheDir : string;
  data : CacheData;
  persisted : option CacheData;
  writable : bool
}.

Record Entry := { Entry_Hash : string; Entry_Issues : slice (option Issue) }.

(** A Go [error]: [None] is nil. *)
Definition error : Type := option string.

Definition set_data (fc : FileCache) (d : CacheData) : FileCache :=
  {| baseDir := baseDir fc; cacheDir := cacheDir fc; data := d;
     persisted := persisted fc; writable := writable fc |}.

Definition set_Files (d : CacheData) (fs : list FileRecord) : CacheData :=
  {| Version := Version d; Files := fs; IgnoredRules := IgnoredRules d;
     Stats := Stats d; LastUpdated := LastUpdated d |}.

Definition set_Stats (d : CacheData) (s : CacheStats) : CacheData :=
  {| Version := Version d; Files := Files d; IgnoredRules := IgnoredRules d;
     Stats := s; LastUpdated := LastUpdated d |}.

Definition set_LastUpdated (d : CacheData) (t : Time) : CacheData :=
  {| Version := Version d; Files := Files d; IgnoredRules := IgnoredRules d;
     Stats := Stats d; LastUpdated := t |}.

Definition saveUnsafe (fc : FileCache) (now : Time) : FileCache * error :=
  let d := set_LastUpdated (data fc) now in
  if writable fc
  then ({| baseDir := baseDir fc; cacheDir := cacheDir fc; data := d;
           persisted := Some d; writable := true |}, None)
  else (set_data fc d, Some "failed to write cache"%string).

Definition IsZero (t : Time) : bool := t =? 0.

(** The inner loop of [updateStats]: the issues of one record that carry
    a fix time.  Reading [FixedAt] through a nil pointer panics: [None]. *)
Fixpoint countFixed (issues : list (option Issue)) (acc : Z) : option Z :=
  match issues with
  | [] => Some acc
  | None :: _ => None
  | Some issue :: rest =>
      countFixed rest (if IsZero (FixedAt issue) then acc else int_add acc 1)
  end.

Fixpoint statsLoop (files : list FileRecord) (stats : CacheStats) : option CacheStats :=
  match files with
  | [] => Some stats
  | record :: rest =>
      fixed ← countFixed (slice_elems (Issues record)) (FixedIssues stats);
      statsLoop rest
        {| TotalFiles := int_add (TotalFiles stats) 1;
           TotalIssues := int_add (TotalIssues stats) (slice_len (Issues record));
           IgnoredIssues := int_add (IgnoredIssues stats) (slice_len (Ignored record));
           FixedIssues := fixed;
           LastFullScan := LastFullScan stats;
           CacheHits := CacheHits stats;
           CacheMisses := CacheMisses stats |}
  end.

(** [None] is a panic (a nil issue pointer in some record). *)
Definition updateStats (fc : FileCache) : option FileCache :=
  let old := Stats (data fc) in
  stats ← statsLoop (Files (data fc))
    {| TotalFiles := 0; TotalIssues := 0; IgnoredIssues := 0; FixedIssues := 0;
       LastFullScan := LastFullScan old;
       CacheHits := CacheHits old; CacheMisses := CacheMisses old |};
  Some (set_data fc (set_Stats (data fc) stats)).

(** [append(files[:i], files[i+1:]...)] at the first record of path [key]. *)
Fixpoint removeFirst (key : string) (files : list FileRecord) : list FileRecord :=
  match files with
  | [] => []
  | r :: rest => if String.eqb (Path r) key then rest else r :: removeFirst key rest
  end.

Fixpoint findRecord (key : string) (files : list FileRecord) : option FileRecord :=
  match files with
  | [] => None
  | r :: rest => if String.eqb (Path r) key then Some r else findRecord key rest
  end.

(** [GetFileRecord]: [None] is the "file not found in cache" error. *)
Definition GetFileRecord (fc : FileCache) (filePath : string) : option FileRecord :=
  findRecord filePath (Files (data fc)).

Definition SaveRawRecord (fc : FileCache) (now : Time) (key : string) (entry : Entry)
    : option (FileCache * error) :=
  let files := removeFirst key (Files (data fc)) in
  let newRecord :=
    {| Path := key; Hash := Entry_Hash entry; LastAnalyzed := now;
       Issues := Entry_Issues entry; Ignored := Some [] |} in
  fc ← updateStats (set_data fc (set_Files (data fc) (files ++ [newRecord])));
  Some (saveUnsafe fc now).

(** An element of the [[]interface{}] that [SaveFileRecord] receives:
    an issue pointer, or any other value, of which only the identifier
    [generateIssueID] derives from its address is kept. *)
Definition anyIssue : Type := (option Issue + string)%type.

Definition zeroPosition : token_Position :=
  {| pos_Filename := ""; pos_Offset := 0; pos_Line := 0; pos_Column := 0 |}.

Definition IssueAPIMisuse : IssueType := 229.
Definition SeverityLevelMedium : SeverityLevel := 1.

Definition genericIssue (id : string) : Issue :=
  {| ID := id; File := ""; Line := 0; Column := 0; Position := zeroPosition;
     Type_ := IssueAPIMisuse; Severity := SeverityLevelMedium;
     Message := "cached issue"; Suggestion := ""; Code := ""; CanBeFixed := false;
     FixedAt := 0; CreatedAt := 0; UpdatedAt := 0; IgnoredAt := 0;
     IgnoreType := 0; WhyBad := "" |}.

Definition convertIssues (analyzerIssues : list anyIssue) : slice (option Issue) :=
  Some (map (fun a => match a with
                      | inl p => p
                      | inr id => Some (genericIssue id)
                      end) analyzerIssues).

(** [fileHash] is what [CalculateFileHash filePath] returns: the digest
    of the file, or [None] when the file cannot be read. *)
Definition SaveFileRecord (fc : FileCache) (now : Time) (filePath : string)
    (fileHash : option string) (issues : list anyIssue) : option (FileCache * error) :=
  match fileHash with
  | None => Some (fc, Some "open failed"%string)
  | Some hash =>
      let oldIgnored :=
        match findRecord filePath (Files (data fc)) with
        | Some existingRecord => Ignored existingRecord
        | None => None
        end in
      let files := removeFirst filePath (Files (data fc)) in
      let record :=
        {| Path := filePath; Hash := hash; LastAnalyzed := now;
           Issues := convertIssues issues; Ignored := oldIgnored |} in
      fc ← updateStats (set_data fc (set_Files (data fc) (files ++ [record])));
      Some (saveUnsafe fc now)
  end.

(** ** cache/hybrid_cache.go: the LRU tier *)

Record cacheItem := { key : string; entry : Entry; lastAccess : Time }.

(** The [container/list] elements are objects the map and the list both
    point to: [elements] is the store of allocated elements, named by
    the order of their allocation; [lru] lists the names front to back;
    [memCache] maps a key to the name of its element. *)
Record HybridCache := {
  memCache : gmap string nat;
  lru : list nat;
  elements : gmap nat cacheItem;
  nextElement : nat;
  maxItems : Z;
  diskCache : FileCache;
  dirtyKeys : gset string
}.

Definition defaultMaxMemoryItems : Z := 1000.

Definition set_mem (hc : HybridCache) (m : gmap string nat) (l : list nat) : HybridCache :=
  {| memCache := m; lru := l; elements := elements hc; nextElement := nextElement hc;
     maxItems := maxItems hc; diskCache := diskCache hc; dirtyKeys := dirtyKeys hc |}.

Definition set_element (hc : HybridCache) (id : nat) (item : cacheItem) : HybridCache :=
  {| memCache := memCache hc; lru := lru hc; elements := <[id := item]> (elements hc);
     nextElement := nextElement hc; maxItems := maxItems hc; diskCache := diskCache hc;
     dirtyKeys := dirtyKeys hc |}.

Definition set_diskCache (hc : HybridCache) (fc : FileCache) : HybridCache :=
  {| memCache := memCache hc; lru := lru hc; elements := elements hc;
     nextElement := nextElement hc; maxItems := maxItems hc; diskCache := fc;
     dirtyKeys := dirtyKeys hc |}.

Definition set_dirtyKeys (hc : HybridCache) (d : gset string) : HybridCache :=
  {| memCache := memCache hc; lru := lru hc; elements := elements hc;
     nextElement := nextElement hc; maxItems := maxItems hc; diskCache := diskCache hc;
     dirtyKeys := d |}.

(** [list.Remove] and [list.MoveToFront]; both leave the list alone when
    the element is not in it. *)
Definition list_Remove (id : nat) (l : list nat) : list nat := filter (λ x, x ≠ id) l.

Definition list_MoveToFront (id : nat) (l : list nat) : list nat :=
  if decide (id ∈ l) then id :: list_Remove id l else l.

Definition flushItem (hc : HybridCache) (now : Time) (k : string) (e : Entry)
    : option HybridCache :=
  '(fc, _) ← SaveRawRecord (diskCache hc) now k e;
  Some (set_diskCache hc fc).

Definition evictOldest (hc : HybridCache) (now : Time) : option HybridCache :=
  match last (lru hc) with
  | None => Some hc
  | Some id =>
      item ← elements hc !! id;
      let hc := set_mem hc (delete (key item) (memCache hc)) (list_Remove id (lru hc)) in
      if decide (key item ∈ dirtyKeys hc) then
        hc ← flushItem hc now (key item) (entry item);
        Some (set_dirtyKeys hc (dirtyKeys hc ∖ {[key item]}))
      else Some hc
  end.

Definition PushFront (hc : HybridCache) (item : cacheItem) : HybridCache * nat :=
  let id := nextElement hc in
  ({| memCache := memCache hc; lru := id :: lru hc;
      elements := <[id := item]> (elements hc); nextElement := S id;
      maxItems := maxItems hc; diskCache := diskCache hc; dirtyKeys := dirtyKeys hc |}, id).

Definition addToMemCache (hc : HybridCache) (now : Time) (k : string) (e : Entry)
    : option HybridCache :=
  hc ← (if Z.of_nat (length (lru hc)) >=? maxItems hc then evictOldest hc now else Some hc);
  let '(hc, id) := PushFront hc {| key := k; entry := e; lastAccess := now |} in
  Some (set_mem hc (<[k := id]> (memCache hc)) (lru hc)).

(** [Get]: the cache after the call and the entry found, if any. *)
Definition Get (hc : HybridCache) (now : Time) (k : string)
    : option (HybridCache * option Entry) :=
  match memCache hc !! k with
  | Some id =>
      item ← elements hc !! id;
      let hc := set_mem hc (memCache hc) (list_MoveToFront id (lru hc)) in
      let hc := set_element hc id {| key := key item; entry := entry item; lastAccess := now |} in
      Some (hc, Some (entry item))
  | None =>
      match GetFileRecord (diskCache hc) k with
      | Some record =>
          let e := {| Entry_Hash := Hash record; Entry_Issues := Issues record |} in
          hc ← addToMemCache hc now k e;
          Some (hc, Some e)
      | None => Some (hc, None)
      end
  end.

Definition Put (hc : HybridCache) (now : Time) (k : string) (e : Entry) : option HybridCache :=
  let hc := set_dirtyKeys hc ({[k]} ∪ dirtyKeys hc) in
  match memCache hc !! k with
  | Some id =>
      item ← elements hc !! id;
      let hc := set_mem hc (memCache hc) (list_MoveToFront id (lru hc)) in
      Some (set_element hc id {| key := key item; entry := e; lastAccess := now |})
  | None => addToMemCache hc now k e
  end.

Definition hour : Z := 3600 * 1000000000.

Fixpoint preloadLoop (records : list FileRecord) (count maxPreload : Z)
    (hc : HybridCache) (now : Time) : option HybridCache :=
  match records with
  | [] => Some hc
  | record :: rest =>
      if count >=? maxPreload then Some hc
      else if now - LastAnalyzed record <? 24 * hour then
        hc ← addToMemCache hc now (Path record)
               {| Entry_Hash := Hash record; Entry_Issues := Issues record |};
        preloadLoop rest (int_add count 1) maxPreload hc now
      else preloadLoop rest count maxPreload hc now
  end.

Definition preloadHotData (hc : HybridCache) (now : Time) : option HybridCache :=
  preloadLoop (Files (data (diskCache hc))) 0 (Z.quot (maxItems hc) 2) hc now.

(** [NewHybridCache] once [New(baseDir)] has opened the disk store. *)
Definition NewHybridCache (disk : FileCache) (maxItems : Z) (now : Time) : option HybridCache :=
  let maxItems := if maxItems <=? 0 then defaultMaxMemoryItems else maxItems in
  preloadHotData
    {| memCache := ∅; lru := []; elements := ∅; nextElement := O; maxItems := maxItems;
       diskCache := disk; dirtyKeys := ∅ |} now.

(** ** analyzer/analyzer.go: the orchestrator *)

Record CacheEntry := {
  CacheEntry_Hash : string;
  CacheEntry_Issues : slice (option Issue);
  Timestamp : Time
}.

Record AnalysisCache := { results : gmap string CacheEntry; maxAge : Z }.

Record Globals := {
  globalHybridCache : option HybridCache;
  globalCache : AnalysisCache
}.

Definition minute : Z := 60 * 1000000000.

Definition initialLegacyCache : AnalysisCache := {| results := ∅; maxAge := 15 * minute |}.

(** [init]: [opened] is the outcome of [cache.New("")]. *)
Definition init (opened : option FileCache) (now : Time) : option Globals :=
  match opened with
  | Some disk =>
      hc ← NewHybridCache disk 1000 now;
      Some {| globalHybridCache := Some hc; globalCache := initialLegacyCache |}
  | None => Some {| globalHybridCache := None; globalCache := initialLegacyCache |}
  end.

Definition allAnalyzers : list string :=
  [ "loop"; "deferoptimization"; "slice"; "map"; "reflection"; "interface"; "regex";
    "time"; "memoryleak"; "database";
    "apimisuse"; "aibullshit"; "goroutine"; "channel"; "httpclient"; "context";
    "racecondition"; "concurrencypatterns"; "networkpatterns"; "cpuoptimization";
    "gcpressure"; "syncpool";
    "cgo"; "serialization"; "crypto"; "httpreuse"; "iobuffer";
    "privacy"; "structlayout"; "cpucache"; "testcoverage" ]%string.

Definition checkCache (g : Globals) (now : Time) (filename : string) (file : ast_File)
    : option (Globals * option (slice (option Issue))) :=
  let hash := computeFileHash file in
  match globalHybridCache g with
  | Some hc =>
      '(hc, found) ← Get hc now filename;
      let g := {| globalHybridCache := Some hc; globalCache := globalCache g |} in
      match found with
      | Some e =>
          if String.eqb (Entry_Hash e) hash
          then Some (g, Some (cloneIssues (Entry_Issues e)))
          else Some (g, None)
      | None => Some (g, None)
      end
  | None =>
      match results (globalCache g) !! filename with
      | Some e =>
          if String.eqb (CacheEntry_Hash e) hash && (now - Timestamp e <? maxAge (globalCache g))
          then Some (g, Some (CacheEntry_Issues e))
          else Some (g, None)
      | None => Some (g, None)
      end
  end.

Definition cleanCache (c : AnalysisCache) (now : Time) : AnalysisCache :=
  {| results := filter (λ kv, ¬ (now - Timestamp kv.2 > maxAge c)) (results c);
     maxAge := maxAge c |}.

Definition updateCache (g : Globals) (now : Time) (filename : string) (file : ast_File)
    (issues : slice (option Issue)) : option Globals :=
  let hash := computeFileHash file in
  hybrid ← match globalHybridCache g with
           | Some hc =>
               hc ← Put hc now filename
                      {| Entry_Hash := hash; Entry_Issues := cloneIssues issues |};
               Some (Some hc)
           | None => Some None
           end;
  let legacy :=
    {| results := <[filename := {| CacheEntry_Hash := hash;
                                  CacheEntry_Issues := cloneIssues issues;
                                  Timestamp := now |}]> (results (globalCache g));
       maxAge := maxAge (globalCache g) |} in
  Some {| globalHybridCache := hybrid; globalCache := cleanCache legacy now |}.

Section Orchestrator.
(** The rule behind each registry name: what [entry.fn().Analyze(file,
    fset)] returns.  The rules are collaborators of the orchestrator,
    not part of it. *)
Variable analyzerImpl : string -> ast_File -> option FileSet -> slice (option Issue).

Definition isEnabled (enabledAnalyzers : option (gmap string bool)) (name : string) : bool :=
  match enabledAnalyzers with
  | None => true
  | Some m => default false (m !! name)
  end.

(** The registry loop: the merged issues and the rules invoked, in order. *)
Definition runAnalyzers (file : ast_File) (fset : option FileSet)
    (enabledAnalyzers : option (gmap string bool)) : list (option Issue) * list string :=
  fold_left
    (fun acc name =>
       if isEnabled enabledAnalyzers name
       then (acc.1 ++ slice_elems (analyzerImpl name file fset), acc.2 ++ [name])
       else acc)
    allAnalyzers ([], []).

(** [Analyze]: the globals after the call, the returned slice and the
    rules it invoked; [None] is a panic. *)
Definition Analyze (g : Globals) (now : Time) (filename : string) (file : option ast_File)
    (fset : option FileSet) (enabledAnalyzers : option (gmap string bool))
    : option (Globals * slice (option Issue) * list string) :=
  match file with
  | None => Some (g, Some [], [])
  | Some file =>
      '(g, cached) ← checkCache g now filename file;
      match cached with
      | Some cachedIssues => Some (g, cachedIssues, [])
      | None =>
          let '(issues, invoked) := runAnalyzers file fset enabledAnalyzers in
          g ← updateCache g now filename file (Some issues);
          Some (g, Some issues, invoked)
      end
  end.

Definition AnalyzeAll (g : Globals) (now : Time) (filename : string) (file : option ast_File)
    (fset : option FileSet) :=
  Analyze g now filename file fset None.
End Orchestrator.

(** ** The disk store with its pointers

    [GetFileRecord] hands out [&recordCopy] where [recordCopy := *record].
    What that copy shares with the stored record is visible only when
    records, slices and issues are objects in a store. *)
Module Shared.

Definition loc : Type := nat.

(** A slice header: the backing array ([None] for the nil slice) and
    the length. *)
Record sliceHdr := { arr : option loc; len : nat }.

Record recordObj := {
  rPath : string;
  rHash : string;
  rLastAnalyzed : Time;
  rIssues : sliceHdr;
  rIgnored : sliceHdr
}.

Record Store := {
  recordObjs : gmap loc recordObj;
  issueObjs : gmap loc Issue;
  pointerArrays : gmap loc (list (option loc));
  stringArrays : gmap loc (list string);
  nextLoc : loc
}.

(** [fc.data.Files]: a slice of record pointers. *)
Definition FilesP : Type := list loc.

Fixpoint findRecordP (st : Store) (filePath : string) (files : FilesP) : option recordObj :=
  match files with
  | [] => None
  | p :: rest =>
      match recordObjs st !! p with
      | Some record =>
          if String.eqb (rPath record) filePath then Some record
          else findRecordP st filePath rest
      | None => None
      end
  end.

(** [GetFileRecord]: the store with the freshly allocated copy, and the
    pointer to it; [None] is the not-found error. *)
Definition GetFileRecord (st : Store) (files : FilesP) (filePath : string)
    : Store * option loc :=
  match findRecordP st filePath files with
  | Some record =>
      let p := nextLoc st in
      ({| recordObjs := <[p := record]> (recordObjs st);
          issueObjs := issueObjs st;
          pointerArrays := pointerArrays st;
          stringArrays := stringArrays st;
          nextLoc := S p |}, Some p)
  | None => (st, None)
  end.

(** What a caller holding a record pointer can write. *)
Inductive mutation :=
| SetHash (h : string)                      (* r.Hash = h *)
| SetIssuesNil                              (* r.Issues = nil *)
| SetIssuePointer (i : nat) (p : option loc) (* r.Issues[i] = p *)
| SetIssueMessage (i : nat) (msg : string)  (* r.Issues[i].Message = msg *)
| SetIgnoredId (i : nat) (id : string).     (* r.Ignored[i] = id *)

Definition withMessage (issue : Issue) (msg : string) : Issue :=
  {| ID := ID issue; File := File issue; Line := Line issue; Column := Column issue;
     Position := Position issue; Type_ := Type_ issue; Severity := Severity issue;
     Message := msg; Suggestion := Suggestion issue; Code := Code issue;
     CanBeFixed := CanBeFixed issue; FixedAt := FixedAt issue;
     CreatedAt := CreatedAt issue; UpdatedAt := UpdatedAt issue;
     IgnoredAt := IgnoredAt issue; IgnoreType := IgnoreType issue;
     WhyBad := WhyBad issue |}.

Definition set_recordObj (st : Store) (r : loc) (record : recordObj) : Store :=
  {| recordObjs := <[r := record]> (recordObjs st); issueObjs := issueObjs st;
     pointerArrays := pointerArrays st; stringArrays := stringArrays st;
     nextLoc := nextLoc st |}.

(** The store after the write; [None] when the write panics (nil
    pointer, index out of range). *)
Definition mutate (st : Store) (r : loc) (m : mutation) : option Store :=
  record ← recordObjs st !! r;
  match m with
  | SetHash h =>
      Some (set_recordObj st r
              {| rPath := rPath record; rHash := h; rLastAnalyzed := rLastAnalyzed record;
                 rIssues := rIssues record; rIgnored := rIgnored record |})
  | SetIssuesNil =>
      Some (set_recordObj st r
              {| rPath := rPath record; rHash := rHash record;
                 rLastAnalyzed := rLastAnalyzed record;
                 rIssues := {| arr := None; len := O |}; rIgnored := rIgnored record |})
  | SetIssuePointer i p =>
      a ← arr (rIssues record);
      cells ← pointerArrays st !! a;
      if decide (i < len (rIssues record))%nat then
        Some {| recordObjs := recordObjs st; issueObjs := issueObjs st;
                pointerArrays := <[a := <[i := p]> cells]> (pointerArrays st);
                stringArrays := stringArrays st; nextLoc := nextLoc st |}
      else None
  | SetIssueMessage i msg =>
      a ← arr (rIssues record);
      cells ← pointerArrays st !! a;
      if decide (i < len (rIssues record))%nat then
        q ← mjoin (cells !! i);
        issue ← issueObjs st !! q;
        Some {| recordObjs := recordObjs st;
                issueObjs := <[q := withMessage issue msg]> (issueObjs st);
                pointerArrays := pointerArrays st;
                stringArrays := stringArrays st; nextLoc := nextLoc st |}
      else None
  | SetIgnoredId i id =>
      a ← arr (rIgnored record);
      cells ← stringArrays st !! a;
      if decide (i < len (rIgnored record))%nat then
        Some {| recordObjs := recordObjs st; issueObjs := issueObjs st;
                pointerArrays := pointerArrays st;
                stringArrays := <[a := <[i := id]> cells]> (stringArrays st);
                nextLoc := nextLoc st |}
      else None
  end.

(** Reading the objects back as values. *)
Definition readIssues (st : Store) (h : sliceHdr) : slice (option Issue) :=
  a ← arr h;
  cells ← pointerArrays st !! a;
  Some (map (fun c => q ← c; issueObjs st !! q) (take (len h) cells)).

Definition readStrings (st : Store) (h : sliceHdr) : slice string :=
  a ← arr h;
  cells ← stringArrays st !! a;
  Some (take (len h) cells).

Definition readRecord (st : Store) (p : loc) : option FileRecord :=
  record ← recordObjs st !! p;
  Some {| Path := rPath record; Hash := rHash record;
          LastAnalyzed := rLastAnalyzed record;
          Issues := readIssues st (rIssues record);
          Ignored := readStrings st (rIgnored record) |}.

(** The cache's stored state: every record of [Files], read deeply. *)
Definition stored (st : Store) (files : FilesP) : list (option FileRecord) :=
  map (readRecord st) files.

End Shared.

(** ** cache/file_cache.go: the other operations of the disk store *)

Fixpoint HasSuffix (s suf : string) : bool :=
  String.eqb s suf ||
  match s with
  | EmptyString => false
  | String _ r => HasSuffix r suf
  end.

(** [strings.ReplaceAll(s, old, new)] for a non-empty [old]: the
    occurrences are found from left to right and do not overlap; [skip]
    counts the bytes of the occurrence still to be passed over. *)
Fixpoint ReplaceAll_from (s old new : string) (skip : nat) : string :=
  match s with
  | EmptyString => EmptyString
  | String c r =>
      match skip with
      | S k => ReplaceAll_from r old new k
      | O =>
          if HasPrefix s old
          then (new ++ ReplaceAll_from r old new (String.length old - 1))%string
          else String c (ReplaceAll_from r old new O)
      end
  end.

Definition ReplaceAll (s old new : string) : string := ReplaceAll_from s old new O.

(** [strings.Split(s, sep)] for a non-empty separator of any length. *)
Fixpoint SplitOn_from (s sep : string) (skip : nat) : list string :=
  match s with
  | EmptyString => [EmptyString]
  | String c r =>
      match skip with
      | S k => SplitOn_from r sep k
      | O =>
          if HasPrefix s sep
          then EmptyString :: SplitOn_from r sep (String.length sep - 1)
          else match SplitOn_from r sep O with
               | h :: t => String c h :: t
               | [] => [String c EmptyString]
               end
      end
  end.

Definition SplitOn (s sep : string) : list string := SplitOn_from s sep O.

Definition matchPattern (path pattern : string) : bool :=
  if String.eqb pattern "*" || String.eqb pattern "**" then true
  else
    let twoParts :=
      if Contains pattern "**" then
        match SplitOn pattern "**" with
        | [before; after] => Some (HasPrefix path before && HasSuffix path after)
        | _ => None
        end
      else None in
    match twoParts with
    | Some answer => answer
    | None =>
        if Contains pattern "*" then
          let pattern := ReplaceAll pattern "*" ".*" in
          Contains path (ReplaceAll pattern ".*" "")
        else String.eqb path pattern || HasPrefix path pattern
    end.

Definition set_IgnoredRules (d : CacheData) (rules : list IgnoredRule) : CacheData :=
  {| Version := Version d; Files := Files d; IgnoredRules := rules;
     Stats := Stats d; LastUpdated := LastUpdated d |}.

(** The loop of [AddIgnoredRule] over the existing rules: [None] when no
    rule has the pattern, [Some None] when the rule has the type already,
    [Some (Some rules)] when the type was appended to the rule. *)
Fixpoint addToRule (rules : list IgnoredRule) (filePattern ruleType : string)
    : option (option (list IgnoredRule)) :=
  match rules with
  | [] => None
  | rule :: rest =>
      if String.eqb (FilePattern rule) filePattern then
        if existsb (fun rt => String.eqb rt ruleType) (slice_elems (RuleTypes rule))
        then Some None
        else Some (Some ({| FilePattern := FilePattern rule;
                            RuleTypes := Some (slice_elems (RuleTypes rule) ++ [ruleType]) |}
                         :: rest))
      else
        match addToRule rest filePattern ruleType with
        | None => None
        | Some None => Some None
        | Some (Some rest') => Some (Some (rule :: rest'))
        end
  end.

Definition AddIgnoredRule (fc : FileCache) (now : Time) (filePattern ruleType : string)
    : FileCache * error :=
  match addToRule (IgnoredRules (data fc)) filePattern ruleType with
  | Some None => (fc, None)
  | Some (Some rules) => saveUnsafe (set_data fc (set_IgnoredRules (data fc) rules)) now
  | None =>
      let newRule := {| FilePattern := filePattern; RuleTypes := Some [ruleType] |} in
      saveUnsafe (set_data fc (set_IgnoredRules (data fc)
                                 (IgnoredRules (data fc) ++ [newRule]))) now
  end.

Definition ShouldIgnoreRule (fc : FileCache) (filePath ruleType : string) : bool :=
  existsb (fun rule =>
             matchPattern filePath (FilePattern rule)
             && existsb (fun rt => String.eqb rt ruleType || String.eqb rt "*")
                  (slice_elems (RuleTypes rule)))
    (IgnoredRules (data fc)).

Definition set_CacheHits (s : CacheStats) (n : Z) : CacheStats :=
  {| TotalFiles := TotalFiles s; TotalIssues := TotalIssues s;
     IgnoredIssues := IgnoredIssues s; FixedIssues := FixedIssues s;
     LastFullScan := LastFullScan s; CacheHits := n; CacheMisses := CacheMisses s |}.

Definition set_CacheMisses (s : CacheStats) (n : Z) : CacheStats :=
  {| TotalFiles := TotalFiles s; TotalIssues := TotalIssues s;
     IgnoredIssues := IgnoredIssues s; FixedIssues := FixedIssues s;
     LastFullScan := LastFullScan s; CacheHits := CacheHits s; CacheMisses := n |}.

Definition countMiss (fc : FileCache) : FileCache :=
  set_data fc (set_Stats (data fc)
                 (set_CacheMisses (Stats (data fc)) (int_add (CacheMisses (Stats (data fc))) 1))).

Definition countHit (fc : FileCache) : FileCache :=
  set_data fc (set_Stats (data fc)
                 (set_CacheHits (Stats (data fc)) (int_add (CacheHits (Stats (data fc))) 1))).

(** [IsFileChanged]; [fileHash] is what [CalculateFileHash filePath]
    returns, [None] when the file cannot be read. *)
Definition IsFileChanged (fc : FileCache) (filePath : string) (fileHash : option string)
    : FileCache * (bool * error) :=
  match fileHash with
  | None => (fc, (true, Some "open failed"%string))
  | Some currentHash =>
      match findRecord filePath (Files (data fc)) with
      | None => (countMiss fc, (true, None))
      | Some record =>
          let changed := negb (String.eqb (Hash record) currentHash) in
          (if changed then countMiss fc else countHit fc, (changed, None))
      end
  end.

(** The first record of path [key] replaced in place: the code writes
    through the pointer it found. *)
Fixpoint replaceFirst (key : string) (new : FileRecord) (files : list FileRecord)
    : list FileRecord :=
  match files with
  | [] => []
  | r :: rest =>
      if String.eqb (Path r) key then new :: rest else r :: replaceFirst key new rest
  end.

Definition withIgnoredAt (issue : Issue) (now : Time) : Issue :=
  {| ID := ID issue; File := File issue; Line := Line issue; Column := Column issue;
     Position := Position issue; Type_ := Type_ issue; Severity := Severity issue;
     Message := Message issue; Suggestion := Suggestion issue; Code := Code issue;
     CanBeFixed := CanBeFixed issue; FixedAt := FixedAt issue;
     CreatedAt := CreatedAt issue; UpdatedAt := UpdatedAt issue;
     IgnoredAt := now; IgnoreType := IssueAPIMisuse; WhyBad := WhyBad issue |}.

Definition withFixedAt (issue : Issue) (now : Time) : Issue :=
  {| ID := ID issue; File := File issue; Line := Line issue; Column := Column issue;
     Position := Position issue; Type_ := Type_ issue; Severity := Severity issue;
     Message := Message issue; Suggestion := Suggestion issue; Code := Code issue;
     CanBeFixed := CanBeFixed issue; FixedAt := now;
     CreatedAt := CreatedAt issue; UpdatedAt := UpdatedAt issue;
     IgnoredAt := IgnoredAt issue; IgnoreType := IgnoreType issue; WhyBad := WhyBad issue |}.

(** ** Writing through issue pointers

    [record.Issues] is a [[]*models.Issue]: [SaveRawRecord] and
    [SaveFileRecord] store the pointers their caller hands in, so one
    issue object can be held at several slots of the store, in one
    record or in several.  [IgnoreIssue] and [MarkIssueFixed] write
    through the pointer they find, and the write shows at every slot
    that holds it.  A slot is the index of a record in [fc.data.Files]
    with an index into its [Issues]; [sameObject] tells which slots hold
    the same pointer.  The records are allocated by the store itself,
    one for each element of [Files]. *)
Definition slot : Type := nat * nat.

Definition slot_eqb (p q : slot) : bool := (p.1 =? q.1)%nat && (p.2 =? q.2)%nat.

Definition heldWith (sameObject : slot -> slot -> bool) (p q : slot) : bool :=
  slot_eqb p q || sameObject p q.

(** The loop over [fc.data.Files] that looks for the path: the record
    found and its index, counted from [ri]. *)
Fixpoint findRecordAt (key : string) (files : list FileRecord) (ri : nat)
    : option (nat * FileRecord) :=
  match files with
  | [] => None
  | r :: rest =>
      if String.eqb (Path r) key then Some (ri, r) else findRecordAt key rest (S ri)
  end.

(** The loop over [record.Issues] that looks for the identifier and
    stops at the first issue that has it: its index, counted from [i],
    if there is one; reading the identifier through a nil pointer
    panics. *)
Fixpoint findIssueAt (issueID : string) (issues : list (option Issue)) (i : nat)
    : option (option nat) :=
  match issues with
  | [] => Some None
  | None :: _ => None
  | Some issue :: rest =>
      if String.eqb (ID issue) issueID then Some (Some i)
      else findIssueAt issueID rest (S i)
  end.

(** The store after [f] was applied to one issue object: every slot
    that holds it shows the new value. *)
Fixpoint writeIssues (f : Issue -> Issue) (written : nat -> bool)
    (issues : list (option Issue)) (i : nat) : list (option Issue) :=
  match issues with
  | [] => []
  | p :: rest => (if written i then f <$> p else p) :: writeIssues f written rest (S i)
  end.

Definition set_Issues (r : FileRecord) (issues : slice (option Issue)) : FileRecord :=
  {| Path := Path r; Hash := Hash r; LastAnalyzed := LastAnalyzed r;
     Issues := issues; Ignored := Ignored r |}.

Definition set_Ignored (r : FileRecord) (ignored : slice string) : FileRecord :=
  {| Path := Path r; Hash := Hash r; LastAnalyzed := LastAnalyzed r;
     Issues := Issues r; Ignored := ignored |}.

(** The same over the records of the store, [ri] being the index of the
    first of [files]. *)
Fixpoint writeThrough (f : Issue -> Issue) (written : slot -> bool)
    (files : list FileRecord) (ri : nat) : list FileRecord :=
  match files with
  | [] => []
  | r :: rest =>
      set_Issues r ((fun l => writeIssues f (fun i => written (ri, i)) l O) <$> Issues r)
      :: writeThrough f written rest (S ri)
  end.

(** The write of [IgnoreIssue] and [MarkIssueFixed] into the issue found,
    none when the file has no issue of that identifier. *)
Definition writeFound (sameObject : slot -> slot -> bool) (f : Issue -> Issue)
    (ri : nat) (found : option nat) (files : list FileRecord) : list FileRecord :=
  match found with
  | Some i => writeThrough f (heldWith sameObject (ri, i)) files O
  | None => files
  end.

Definition IgnoreIssue (sameObject : slot -> slot -> bool) (fc : FileCache) (now : Time)
    (filePath issueID ignoreType : string) : option (FileCache * error) :=
  match findRecordAt filePath (Files (data fc)) O with
  | None => Some (fc, Some "file not found"%string)
  | Some (ri, record) =>
      let ignored :=
        if existsb (fun id => String.eqb id issueID) (slice_elems (Ignored record))
        then Ignored record
        else Some (slice_elems (Ignored record) ++ [issueID]) in
      let files := replaceFirst filePath (set_Ignored record ignored) (Files (data fc)) in
      found ← findIssueAt issueID (slice_elems (Issues record)) O;
      let files := writeFound sameObject (fun issue => withIgnoredAt issue now) ri found files in
      fc ← updateStats (set_data fc (set_Files (data fc) files));
      Some (saveUnsafe fc now)
  end.

Definition IsIssueIgnored (fc : FileCache) (filePath issueID : string) : bool * error :=
  match findRecord filePath (Files (data fc)) with
  | None => (false, None)
  | Some record =>
      (existsb (fun id => String.eqb id issueID) (slice_elems (Ignored record)), None)
  end.

Definition MarkIssueFixed (sameObject : slot -> slot -> bool) (fc : FileCache) (now : Time)
    (filePath issueID : string) : option (FileCache * error) :=
  match findRecordAt filePath (Files (data fc)) O with
  | None => Some (fc, Some "file not found"%string)
  | Some (ri, record) =>
      found ← findIssueAt issueID (slice_elems (Issues record)) O;
      let files :=
        writeFound sameObject (fun issue => withFixedAt issue now) ri found (Files (data fc)) in
      fc ← updateStats (set_data fc (set_Files (data fc) files));
      Some (saveUnsafe fc now)
  end.

Definition emptyData (now : Time) : CacheData :=
  {| Version := CacheVersion; Files := []; IgnoredRules := [];
     Stats := {| TotalFiles := 0; TotalIssues := 0; IgnoredIssues := 0; FixedIssues := 0;
                 LastFullScan := 0; CacheHits := 0; CacheMisses := 0 |};
     LastUpdated := now |}.

Definition ClearCache (fc : FileCache) (now : Time) : FileCache * error :=
  saveUnsafe (set_data fc (emptyData now)) now.

(** [save] and [Close] of the disk store. *)
Definition save (fc : FileCache) (now : Time) : FileCache * error := saveUnsafe fc now.
Definition FileCache_Close (fc : FileCache) (now : Time) : FileCache * error := save fc now.

(** ** cache/hybrid_cache.go: flushing, clearing, closing *)

(** The body of [Flush]'s loop, for the keys in the order the range over
    the dirty set yields them. *)
Fixpoint flushKeys (keys : list string) (hc : HybridCache) (now : Time) : option HybridCache :=
  match keys with
  | [] => Some hc
  | k :: rest =>
      hc ← match memCache hc !! k with
           | Some id => item ← elements hc !! id; flushItem hc now k (entry item)
           | None => Some hc
           end;
      flushKeys rest hc now
  end.

(** [Flush]: [rangeOrder] is the order in which Go ranges over the dirty
    set; the language leaves it open. *)
Definition Flush (rangeOrder : gset string -> list string) (hc : HybridCache) (now : Time)
    : option (HybridCache * error) :=
  hc ← flushKeys (rangeOrder (dirtyKeys hc)) hc now;
  let hc := set_dirtyKeys hc ∅ in
  let '(fc, err) := save (diskCache hc) now in
  Some (set_diskCache hc fc, err).

(** [Close], once: the ticker and the channel that stop the background
    flush are left out. *)
Definition Close (rangeOrder : gset string -> list string) (hc : HybridCache) (now : Time)
    : option (HybridCache * error) :=
  '(hc, err) ← Flush rangeOrder hc now;
  match err with
  | Some e => Some (hc, Some e)
  | None =>
      let '(fc, err) := FileCache_Close (diskCache hc) now in
      Some (set_diskCache hc fc, err)
  end.

Definition Clear (hc : HybridCache) (now : Time) : HybridCache * error :=
  let hc := set_dirtyKeys (set_mem hc ∅ []) ∅ in
  let '(fc, err) := ClearCache (diskCache hc) now in
  (set_diskCache hc fc, err).

(** ** analyzer/analyzer.go: the walk with context

    A node as the walk sees it: its kind, and the fields the walker of
    that kind hands to [walkWithContext], in the walker's order, [None]
    for a nil field.  For a [FuncDecl] these are [Type] and [Body], for
    a [ForStmt] [Init], [Cond], [Post] and [Body], for a [CallExpr]
    [Fun] and the arguments, and so on; [OtherKind] is any kind without
    a case in [walkNode], whatever its fields. *)
Inductive Kind :=
| ForStmt | RangeStmt
| FuncDecl (Name : option string) | GenDecl | ValueSpec
| BlockStmt | IfStmt | AssignStmt | ReturnStmt
| CallExpr | BinaryExpr | UnaryExpr | ParenExpr | SelectorExpr
| IndexExpr | SliceExpr | ExprStmt
| FileNode
| OtherKind.

Local Unset Elimination Schemes.
Inductive Syntax := Nd (kind : Kind) (fields : list (option Syntax)).
Local Set Elimination Schemes.

Record AnalysisContext := {
  StartTime : Time;
  ctx_FileSet : option FileSet;
  Imports : gmap string bool;
  FuncDecls : gmap string Syntax;
  TypeDecls : gmap string Syntax;
  Filename : string;
  CurrentFunc : string;
  LoopDepth : Z;
  NodeCount : Z;
  InLoop : bool
}.

Definition set_loop (ctx : AnalysisContext) (depth : Z) (inLoop : bool) : AnalysisContext :=
  {| StartTime := StartTime ctx; ctx_FileSet := ctx_FileSet ctx; Imports := Imports ctx;
     FuncDecls := FuncDecls ctx; TypeDecls := TypeDecls ctx; Filename := Filename ctx;
     CurrentFunc := CurrentFunc ctx; LoopDepth := depth; NodeCount := NodeCount ctx;
     InLoop := inLoop |}.

Definition set_CurrentFunc (ctx : AnalysisContext) (name : string) : AnalysisContext :=
  {| StartTime := StartTime ctx; ctx_FileSet := ctx_FileSet ctx; Imports := Imports ctx;
     FuncDecls := FuncDecls ctx; TypeDecls := TypeDecls ctx; Filename := Filename ctx;
     CurrentFunc := name; LoopDepth := LoopDepth ctx; NodeCount := NodeCount ctx;
     InLoop := InLoop ctx |}.

Section Walk.
(** The callback is a closure: it answers whether to descend, and it may
    write to the context it is handed and to the variables it captured,
    here the state [S]. *)
Context {S : Type}.
Variable fn : Syntax -> AnalysisContext -> S -> bool * AnalysisContext * S.

Fixpoint walkWithContext (node : Syntax) (ctx : AnalysisContext) (s : S)
    : AnalysisContext * S :=
  let '(descend, ctx, s) := fn node ctx s in
  if descend then
    match node with
    | Nd kind fields =>
        let walkFields :=
          fix walkFields (fields : list (option Syntax)) (ctx : AnalysisContext) (s : S)
              : AnalysisContext * S :=
            match fields with
            | [] => (ctx, s)
            | None :: rest => walkFields rest ctx s
            | Some child :: rest =>
                let '(ctx, s) := walkWithContext child ctx s in
                walkFields rest ctx s
            end in
        match kind with
        | ForStmt | RangeStmt =>
            let oldLoopDepth := LoopDepth ctx in
            let oldInLoop := InLoop ctx in
            let ctx := set_loop ctx (int_add (LoopDepth ctx) 1) true in
            let '(ctx, s) := walkFields fields ctx s in
            (set_loop ctx oldLoopDepth oldInLoop, s)
        | FuncDecl name =>
            let oldFunc := CurrentFunc ctx in
            let ctx := match name with
                       | Some x => set_CurrentFunc ctx x
                       | None => ctx
                       end in
            let '(ctx, s) := walkFields fields ctx s in
            (set_CurrentFunc ctx oldFunc, s)
        | OtherKind => (ctx, s)
        | _ => walkFields fields ctx s
        end
    end
  else (ctx, s).

(** The loops of the walkers over the fields of a node. *)
Fixpoint walkFields (fields : list (option Syntax)) (ctx : AnalysisContext) (s : S)
    : AnalysisContext * S :=
  match fields with
  | [] => (ctx, s)
  | None :: rest => walkFields rest ctx s
  | Some child :: rest =>
      let '(ctx, s) := walkWithContext child ctx s in
      walkFields rest ctx s
  end.

Definition newContext : AnalysisContext :=
  {| StartTime := 0; ctx_FileSet := None; Imports := ∅; FuncDecls := ∅; TypeDecls := ∅;
     Filename := ""; CurrentFunc := ""; LoopDepth := 0; NodeCount := 0; InLoop := false |}.

(** [WalkWithContext]: what the call leaves in the captured variables. *)
Definition WalkWithContext (node : option Syntax) (s : S) : S :=
  match node with
  | None => s
  | Some node => snd (walkWithContext node newContext s)
  end.
End Walk.

(** * Vocabulary of the statements *)

(** ** Suppression: the ranges a comment contributes *)

Definition mkRange (ty : string) (s e : Z) : ignoreRange :=
  {| startLine := s; endLine := e; issueType := ty |}.

Definition addRange (ic : IgnoreChecker) (r : ignoreRange) : IgnoreChecker :=
  addIgnoreRange ic (issueType r) (startLine r) (endLine r).

Definition addAll (ic : IgnoreChecker) (rs : list ignoreRange) : IgnoreChecker :=
  fold_left addRange rs ic.

Definition directiveRanges (directive : string) (issueTypes : list string) (line : Z)
    : list ignoreRange :=
  if String.eqb directive "abc:ignore-line" then
    map (fun ty => mkRange (TrimSpace ty) line line) issueTypes
  else if String.eqb directive "abc:ignore-next-line" then
    map (fun ty => mkRange (TrimSpace ty) (int_add line 1) (int_add line 1)) issueTypes
  else if String.eqb directive "abc:ignore-file" then
    map (fun ty => mkRange (TrimSpace (if String.eqb ty "" then "*"%string else ty)) 0 999999)
      issueTypes
  else if String.eqb directive "abc:ignore" then
    match issueTypes with
    | [] => [mkRange "" (int_add line 1) (int_add line 1)]
    | _ =>
        map (fun ty =>
               let ty := TrimSpace ty in
               mkRange ty (int_add line 1)
                 (if Contains ty "_IN_LOOP" || Contains ty "LOOP_"
                  then int_add line 10 else int_add line 1))
          issueTypes
    end
  else [].

Definition textRanges (text : string) (line : Z) : list ignoreRange :=
  match Split text " " with
  | [_] => [mkRange "" (int_add line 1) (int_add line 1)]
  | directive :: types :: _ => directiveRanges directive (Split types ",") line
  | [] => []
  end.

Definition commentRanges (fset : FileSet) (c : Comment) : list ignoreRange :=
  let text := extractCommentText (Text c) in
  if HasPrefix text "abc:ignore" then textRanges text (PositionLine fset (Slash c)) else [].

Definition fileRanges (fset : FileSet) (file : ast_File) : list ignoreRange :=
  flat_map (commentRanges fset) (concat (Comments file)).

(** Some range of [rs] recorded under [k] covers [line]. *)
Definition hits (rs : list ignoreRange) (k : string) (line : Z) : bool :=
  existsb (fun r => String.eqb (issueType r) k && in_range line r) rs.

(** A category name as a directive can carry it: no ASCII white space
    and no comma. *)
Definition is_token (s : string) : bool :=
  forallb (fun c => negb (is_space c) && negb (Ascii.eqb c ","))
    (list_ascii_of_string s).

Definition has_sep (sep : ascii) (s : string) : bool :=
  existsb (Ascii.eqb sep) (list_ascii_of_string s).

Definition withComments (file : ast_File) (cs : list CommentGroup) : ast_File :=
  {| Root := Root file; Comments := cs |}.

(** ** Caches: well-formed states and runs *)

Definition nilFree (issues : slice (option Issue)) : Prop :=
  Forall is_Some (slice_elems issues).

(** The disk store keeps one record per path, and no nil issue pointer. *)
Definition diskUnique (fc : FileCache) : Prop := NoDup (map Path (Files (data fc))).

Definition diskNilFree (fc : FileCache) : Prop :=
  Forall (fun r => nilFree (Issues r)) (Files (data fc)).

Definition keyOf (hc : HybridCache) (id : nat) : option string :=
  key <$> elements hc !! id.

(** Map and list in bijection: a key is mapped to an element exactly when
    that element is in the list and holds the key. *)
Definition bijection (hc : HybridCache) : Prop :=
  ∀ k id, memCache hc !! k = Some id ↔ id ∈ lru hc ∧ keyOf hc id = Some k.

Definition memOK (hc : HybridCache) : Prop :=
  NoDup (lru hc)
  ∧ (∀ id, is_Some (elements hc !! id) → (id < nextElement hc)%nat)
  ∧ (∀ id, id ∈ lru hc → is_Some (elements hc !! id))
  ∧ bijection hc
  ∧ 1 ≤ maxItems hc
  ∧ Z.of_nat (length (lru hc)) ≤ maxItems hc.

Definition memNilFree (hc : HybridCache) : Prop :=
  ∀ id item, elements hc !! id = Some item → nilFree (Entry_Issues (entry item)).

Definition WF (hc : HybridCache) : Prop :=
  memOK hc ∧ diskUnique (diskCache hc) ∧ diskNilFree (diskCache hc) ∧ memNilFree hc.

Inductive op :=
| OpGet (now : Time) (k : string)
| OpPut (now : Time) (k : string) (e : Entry).

Definition step (hc : HybridCache) (o : op) : option HybridCache :=
  match o with
  | OpGet now k => fst <$> Get hc now k
  | OpPut now k e => Put hc now k e
  end.

Fixpoint run (ops : list op) (hc : HybridCache) : option HybridCache :=
  match ops with
  | [] => Some hc
  | o :: rest => hc ← step hc o; run rest hc
  end.

Definition opNilFree (o : op) : Prop :=
  match o with
  | OpGet _ _ => True
  | OpPut _ _ e => nilFree (Entry_Issues e)
  end.

(** The keys put by a run, and the entry a key was last put with. *)
Definition putKeys (ops : list op) : list string :=
  flat_map (fun o => match o with OpPut _ k _ => [k] | OpGet _ _ => [] end) ops.

Fixpoint lastPut (k : string) (ops : list op) : option Entry :=
  match ops with
  | [] => None
  | o :: rest =>
      match lastPut k rest with
      | Some e => Some e
      | None =>
          match o with
          | OpPut _ k' e => if String.eqb k' k then Some e else None
          | OpGet _ _ => None
          end
      end
  end.

(** The entry held in memory for a key. *)
Definition resident (hc : HybridCache) (k : string) : option Entry :=
  id ← memCache hc !! k; item ← elements hc !! id; Some (entry item).

Definition holds (files : list FileRecord) (k : string) (e : Entry) : Prop :=
  ∃ r, findRecord k files = Some r ∧ Hash r = Entry_Hash e ∧ Issues r = Entry_Issues e.

(** The disk store has a record of [k] carrying [e], and so does the
    cache file whenever it can be written. *)
Definition onDisk (fc : FileCache) (k : string) (e : Entry) : Prop :=
  holds (Files (data fc)) k e
  ∧ (writable fc = true → ∃ d, persisted fc = Some d ∧ holds (Files d) k e).

(** The latest value of [k] is not lost: it is in memory and still to be
    flushed or already on disk, or it is on disk. *)
Definition kept (hc : HybridCache) (k : string) (e : Entry) : Prop :=
  (resident hc k = Some e ∧ (k ∈ dirtyKeys hc ∨ onDisk (diskCache hc) k e))
  ∨ (memCache hc !! k = None ∧ onDisk (diskCache hc) k e).

(** The record [SaveRawRecord] builds from an entry. *)
Definition rawRecord (now : Time) (k : string) (e : Entry) : FileRecord :=
  {| Path := k; Hash := Entry_Hash e; LastAnalyzed := now;
     Issues := Entry_Issues e; Ignored := Some [] |}.

(** ** Orchestrator: what is cached for a file *)

(** The legacy cache keeps its 15 minutes and stores clones only. *)
Definition legacyOK (c : AnalysisCache) : Prop :=
  maxAge c = 15 * minute
  ∧ ∀ filename e, results c !! filename = Some e →
                  ∃ l, CacheEntry_Issues e = Some l ∧ Forall is_Some l.

Definition WFg (g : Globals) : Prop :=
  match globalHybridCache g with
  | Some hc => WF hc
  | None => True
  end
  ∧ legacyOK (globalCache g).

Definition sameMode (g g' : Globals) : Prop :=
  globalHybridCache g = None ↔ globalHybridCache g' = None.

(** The hash and issues cached for [filename]. *)
Definition cachedFor (g : Globals) (filename : string) : option (string * slice (option Issue)) :=
  match globalHybridCache g with
  | Some hc => e ← resident hc filename; Some (Entry_Hash e, Entry_Issues e)
  | None =>
      e ← results (globalCache g) !! filename;
      Some (CacheEntry_Hash e, CacheEntry_Issues e)
  end.

(** The cache answers at time [now]: always for the hybrid cache, within
    [maxAge] of the entry's time stamp for the legacy cache. *)
Definition fresh (g : Globals) (filename : string) (now : Time) : Prop :=
  match globalHybridCache g with
  | Some _ => True
  | None =>
      ∀ e, results (globalCache g) !! filename = Some e →
           now - Timestamp e < maxAge (globalCache g)
  end.

(** ** Concrete inputs used by the examples *)

Definition emptyStats : CacheStats :=
  {| TotalFiles := 0; TotalIssues := 0; IgnoredIssues := 0; FixedIssues := 0;
     LastFullScan := 0; CacheHits := 0; CacheMisses := 0 |}.

Definition diskWith (files : list FileRecord) : FileCache :=
  {| baseDir := "/proj"; cacheDir := "/proj/.abscleaner";
     data := {| Version := CacheVersion; Files := files; IgnoredRules := [];
                Stats := emptyStats; LastUpdated := 0 |};
     persisted := None; writable := true |}.

Definition issueAt (ty : IssueType) (line : Z) (msg : string) : Issue :=
  {| ID := ""; File := "a.go"; Line := line; Column := 1; Position := zeroPosition;
     Type_ := ty; Severity := SeverityLevelMedium; Message := msg; Suggestion := "";
     Code := ""; CanBeFixed := false; FixedAt := 0; CreatedAt := 0; UpdatedAt := 0;
     IgnoredAt := 0; IgnoreType := 0; WhyBad := "" |}.

Definition entryA : Entry :=
  {| Entry_Hash := "h1"; Entry_Issues := Some [Some (issueAt 0 3 "nested loop")] |}.

Definition entryB : Entry := {| Entry_Hash := "h2"; Entry_Issues := Some [] |}.

(** Two stub rule sets: [loop] reports one issue at the line of the
    root position, and in the second set a nil pointer after it. *)
Definition rootLine (file : ast_File) : Z :=
  match Root file with mkNode p _ => p end.

Definition stubRules (name : string) (file : ast_File) (fset : option FileSet)
    : slice (option Issue) :=
  if String.eqb name "loop" then Some [Some (issueAt 0 (rootLine file) "nested loop")]
  else None.

Definition nilRules (name : string) (file : ast_File) (fset : option FileSet)
    : slice (option Issue) :=
  if String.eqb name "loop" then Some [Some (issueAt 0 (rootLine file) "nested loop"); None]
  else None.

Definition treeOf (n : Node) : ast_File := {| Root := n; Comments := [] |}.

(** A disk store whose record of [a.go] carries a dismissed issue. *)
Definition recordWithIgnored : FileRecord :=
  {| Path := "a.go"; Hash := "h0"; LastAnalyzed := 0;
     Issues := Some [Some (issueAt 0 3 "nested loop")];
     Ignored := Some ["issue-1"%string] |}.

Definition diskIgnored : FileCache := diskWith [recordWithIgnored].

(** One stored record ([a.go], at location 0) whose issue slice lives in
    the array at location 1 and points to the issue at location 2. *)
Definition sharedStore : Shared.Store :=
  {| Shared.recordObjs :=
       {[ 0%nat := {| Shared.rPath := "a.go"; Shared.rHash := "h0";
                      Shared.rLastAnalyzed := 0;
                      Shared.rIssues := {| Shared.arr := Some 1%nat; Shared.len := 1 |};
                      Shared.rIgnored := {| Shared.arr := None; Shared.len := 0 |} |} ]};
     Shared.issueObjs := {[ 2%nat := issueAt 0 3 "nested loop" ]};
     Shared.pointerArrays := {[ 1%nat := [Some 2%nat] ]};
     Shared.stringArrays := ∅;
     Shared.nextLoc := 3%nat |}.

Definition sharedFiles : Shared.FilesP := [0%nat].

(** Two package clauses without declarations.  [treeWide] is the tree
    of "package", 115 blanks, "p": the file node at position 1 and the
    name at 123.  [treeLate] is the tree of ten newlines followed by
    "package", 5 blanks, "p": positions 11 and 23.  [treeOther] moves
    the name to 124. *)
Definition treeWide : ast_File := treeOf (mkNode 1 [mkNode 123 []]).
Definition treeLate : ast_File := treeOf (mkNode 11 [mkNode 23 []]).
Definition treeOther : ast_File := treeOf (mkNode 1 [mkNode 124 []]).

(** The globals [init] builds over an empty disk store, and without one. *)
Definition hybridEmpty : HybridCache :=
  {| memCache := ∅; lru := []; elements := ∅; nextElement := O; maxItems := 1000;
     diskCache := diskWith []; dirtyKeys := ∅ |}.

Definition globalsHybrid : Globals :=
  {| globalHybridCache := Some hybridEmpty; globalCache := initialLegacyCache |}.

Definition globalsLegacy : Globals :=
  {| globalHybridCache := None; globalCache := initialLegacyCache |}.

(** A file set with ten positions per line, two category names as
    [IssueType.String] gives them, and three directive comments on
    line 3. *)
Definition tenPerLine : FileSet := {| PositionLine := fun p => p / 10 |}.

Definition IssueNestedLoop : IssueType := 0.
Definition IssueRaceCondition : IssueType := 79.

Definition typeNames (t : IssueType) : string :=
  if t =? IssueNestedLoop then "NestedLoop" else "RaceCondition".

Definition commentNextLine : Comment :=
  {| Slash := 30; Text := "// abc:ignore-next-line RaceCondition" |}.
Definition commentIgnoreFile : Comment := {| Slash := 30; Text := "// abc:ignore-file" |}.
Definition commentIgnore : Comment := {| Slash := 30; Text := "/* abc:ignore */" |}.

Definition fileWith (c : Comment) : ast_File :=
  {| Root := mkNode 1 [mkNode 9 []]; Comments := [[c]] |}.

(** [abc:ignore-next-line RaceCondition] on line 3 and a bare
    [abc:ignore] on line 4. *)
Definition commentIgnoreLine4 : Comment := {| Slash := 40; Text := "// abc:ignore" |}.
Definition fileTwoDirectives : ast_File :=
  {| Root := mkNode 1 [mkNode 9 []]; Comments := [[commentNextLine]; [commentIgnoreLine4]] |}.

(** ** The fingerprint as a hash of a byte stream *)

Definition countNodes (positions : list Z) : Z :=
  fold_left (fun n _ => int_add n 1) positions 0.

Definition positionBytes (pos : Z) : list ascii :=
  if pos =? NoPos then [] else list_ascii_of_string (AppendInt pos).

(** Everything [computeFileHash] writes to the hash, in order. *)
Definition hashedBytes (file : ast_File) : list ascii :=
  flat_map positionBytes (inspect (Root file))
  ++ list_ascii_of_string (AppendInt (countNodes (inspect (Root file)))).

(** The inverse of the FNV prime modulo [2^64]. *)
Definition fnv_prime64_inverse : Z := 14886173955864302971.

Definition undigit36 (c : ascii) : Z :=
  let n := Z.of_N (N_of_ascii c) in
  if n <? 58 then n - 48 else n - 87.

Definition parse36_step (a : Z) (c : ascii) : Z := a * 36 + undigit36 c.

Definition parse36 (s : string) : Z :=
  fold_left parse36_step (list_ascii_of_string s) 0.

(** ** Suppression: what a directive contributes *)

(** ** Suppression: what one comment adds to a file *)

(** [ShouldIgnore] on a list of ranges: a range under the category, under
    the empty key or under the star key covers the line. *)
Definition suppressedBy (rs : list ignoreRange) (ty : string) (line : Z) : bool :=
  hits rs ty line || hits rs "" line || hits rs "*" line.

Definition isDirective (c : Comment) : bool :=
  HasPrefix (extractCommentText (Text c)) "abc:ignore".

(** The category [abc:ignore-file] records for a name of its list. *)
Definition fileCategory (ty : string) : string :=
  TrimSpace (if String.eqb ty "" then "*"%string else ty).

Definition loopCategory (ty : string) : bool :=
  Contains ty "_IN_LOOP" || Contains ty "LOOP_".

Definition knownDirective (d : string) : bool :=
  String.eqb d "abc:ignore-line" || String.eqb d "abc:ignore-next-line"
  || String.eqb d "abc:ignore-file" || String.eqb d "abc:ignore".

Definition isSome {A : Type} (p : option A) : bool :=
  match p with Some _ => true | None => false end.


(** U+00A0, the no-break space, and U+2003, the em space, in UTF-8. *)
Definition NBSP : string :=
  String (ascii_of_nat 194) (String (ascii_of_nat 160) EmptyString).
Definition EMSP : string :=
  String (ascii_of_nat 226) (String (ascii_of_nat 128) (String (ascii_of_nat 131) EmptyString)).

Definition commentLoopPadded : Comment :=
  {| Slash := 30;
     Text := "//" ++ NBSP ++ "abc:ignore " ++ NBSP ++ "STRING_CONCAT_IN_LOOP" ++ EMSP |}.
Definition commentFilePadded : Comment :=
  {| Slash := 30; Text := "// abc:ignore-file " ++ NBSP ++ "RaceCondition" |}.
Definition commentLinePadded : Comment :=
  {| Slash := 30; Text := "//" ++ NBSP ++ "abc:ignore-line RaceCondition" ++ EMSP |}.
Definition commentTypo : Comment := {| Slash := 30; Text := "// abc:ignore-nextline" |}.
Definition commentTypoArgs : Comment :=
  {| Slash := 30; Text := "// abc:ignore-nextline RaceCondition" |}.
Definition commentList : Comment :=
  {| Slash := 30; Text := "// abc:ignore-file NestedLoop, RaceCondition" |}.
Definition commentPlain : Comment := {| Slash := 30; Text := "// plain remark" |}.

(** ** Disk store: patterns, rules and statistics *)

(** A pattern with its stars deleted. *)
Fixpoint dropStars (s : string) : string :=
  match s with
  | EmptyString => EmptyString
  | String c r => if Ascii.eqb c "*" then dropStars r else String c (dropStars r)
  end.

(** A rule of the list ignores the rule type for the path. *)
Definition ruleIgnores (filePath ruleType : string) (rule : IgnoredRule) : bool :=
  matchPattern filePath (FilePattern rule)
  && existsb (fun rt => String.eqb rt ruleType || String.eqb rt "*")
       (slice_elems (RuleTypes rule)).

(** The issues of a list that carry a fix time. *)
Definition isFixed (p : option Issue) : bool :=
  match p with
  | Some issue => negb (IsZero (FixedAt issue))
  | None => false
  end.

Definition fixedIssues (r : FileRecord) : Z :=
  Z.of_nat (length (List.filter isFixed (slice_elems (Issues r)))).

Definition sumOver (f : FileRecord -> Z) (files : list FileRecord) : Z :=
  fold_right Z.add 0 (map f files).

(** The totals agree with the records. *)
Definition statsAccurate (fc : FileCache) : Prop :=
  let s := Stats (data fc) in
  let files := Files (data fc) in
  TotalFiles s = wrap64 (Z.of_nat (length files))
  ∧ TotalIssues s = wrap64 (sumOver (fun r => slice_len (Issues r)) files)
  ∧ IgnoredIssues s = wrap64 (sumOver (fun r => slice_len (Ignored r)) files)
  ∧ FixedIssues s = wrap64 (sumOver fixedIssues files).

Definition hasID (id : string) (p : option Issue) : bool :=
  match p with
  | Some issue => String.eqb (ID issue) id
  | None => false
  end.

Definition recordOf (p h : string) (issues : slice (option Issue)) (ignored : slice string)
    : FileRecord :=
  {| Path := p; Hash := h; LastAnalyzed := 0; Issues := issues; Ignored := ignored |}.

Definition diskOf (files : list FileRecord) : FileCache :=
  {| baseDir := "/repo"; cacheDir := "/repo/.abc";
     data := {| Version := CacheVersion; Files := files; IgnoredRules := [];
                Stats := {| TotalFiles := Z.of_nat (length files);
                            TotalIssues := sumOver (fun r => slice_len (Issues r)) files;
                            IgnoredIssues := sumOver (fun r => slice_len (Ignored r)) files;
                            FixedIssues := sumOver fixedIssues files;
                            LastFullScan := 0; CacheHits := 0; CacheMisses := 0 |};
                LastUpdated := 0 |};
     persisted := None; writable := true |}.

Definition diskOne : FileCache :=
  diskOf [recordOf "a.go" "h1" (Some [Some (issueAt 0 3 "nested loop")]) None].

Definition afterSave : FileCache * error :=
  default (diskOf [], None) (SaveFileRecord (diskOf []) 7 "a.go" (Some "h1") []).

(** ** Hybrid cache: flushing *)

(** One order in which a range over the dirty set may visit its keys. *)
Definition someRangeOrder (X : gset string) : list string := base.elements X.

(** ** Hybrid cache: the order of eviction *)

(** The keys in memory, most recently used first. *)
Definition keysByRecency (hc : HybridCache) : list string := omap (keyOf hc) (lru hc).

(** The textbook move of an LRU list of capacity [m] when key [k] is
    used: [k] comes first, and the oldest key goes if there are now too
    many. *)
Definition lruTouch (m : Z) (k : string) (keys : list string) : list string :=
  k :: take (Z.to_nat m - 1) (filter (λ x, x ≠ k) keys).

Definition opKey (o : op) : string :=
  match o with
  | OpGet _ k => k
  | OpPut _ k _ => k
  end.

(** The operation finds or stores an entry: every [Put] does, and a
    [Get] whose key is in memory or in the disk store. *)
Definition touches (hc : HybridCache) (o : op) : bool :=
  match o with
  | OpPut _ _ _ => true
  | OpGet _ k => isSome (memCache hc !! k) || isSome (GetFileRecord (diskCache hc) k)
  end.

(** ** Orchestrator: the rules a miss runs *)

(** The enabled names of the registry, in registry order. *)
Definition enabledRules (enabledAnalyzers : option (gmap string bool)) : list string :=
  List.filter (isEnabled enabledAnalyzers) allAnalyzers.

Definition onlyLoop : option (gmap string bool) :=
  Some ({[ "loop"%string := true; "slice"%string := false; "nosuchrule"%string := true ]}).

Definition legacyWith (filename : string) (e : CacheEntry) : AnalysisCache :=
  {| results := {[ filename := e ]}; maxAge := 15 * minute |}.

(** ** The walk with context: what the callback is shown *)

(** Induction over a node and the nodes in its fields. *)
Fixpoint Syntax_fields_ind (P : Syntax -> Prop)
    (step : forall kind fields,
        Forall (fun f => match f with Some child => P child | None => True end) fields ->
        P (Nd kind fields))
    (node : Syntax) : P node :=
  match node with
  | Nd kind fields =>
      step kind fields
        ((fix all (fields : list (option Syntax))
            : Forall (fun f => match f with Some child => P child | None => True end) fields :=
            match fields with
            | [] => @List.Forall_nil _ _
            | f :: rest =>
                @List.Forall_cons _ _ f rest
                  (match f return match f with Some child => P child | None => True end with
                   | Some child => Syntax_fields_ind P step child
                   | None => I
                   end)
                  (all rest)
            end) fields)
  end.

Definition kindOf (node : Syntax) : Kind := match node with Nd kind _ => kind end.
Definition fieldsOf (node : Syntax) : list (option Syntax) :=
  match node with Nd _ fields => fields end.

Definition isLoop (kind : Kind) : bool :=
  match kind with
  | ForStmt | RangeStmt => true
  | _ => false
  end.

(** The kinds [walkNode] has a case for. *)
Definition hasWalker (kind : Kind) : bool :=
  match kind with
  | OtherKind => false
  | _ => true
  end.

Definition funcName (kind : Kind) : option string :=
  match kind with
  | FuncDecl name => name
  | _ => None
  end.

(** [inside descend root d f node]: [node] is [root] or lies in the
    fields of nodes for which [walkNode] has a case and the callback
    answers [true], below [d] loop statements, [f] being the name of the
    innermost named function declaration on the way, if any. *)
Inductive inside (descend : Syntax -> bool)
    : Syntax -> nat -> option string -> Syntax -> Prop :=
| inside_here node : inside descend node O None node
| inside_field parent child d f node :
    descend parent = true -> hasWalker (kindOf parent) = true ->
    Some child ∈ fieldsOf parent ->
    inside descend child d f node ->
    inside descend parent
      (if isLoop (kindOf parent) then Datatypes.S d else d)
      (match f with Some name => Some name | None => funcName (kindOf parent) end)
      node.

(** A callback that only looks: it notes the node and a copy of the
    context it is shown, and answers [descend node]. *)
Definition recorder (descend : Syntax -> bool) (node : Syntax) (ctx : AnalysisContext)
    (seen : list (Syntax * AnalysisContext)) : bool * AnalysisContext * list (Syntax * AnalysisContext) :=
  (descend node, ctx, seen ++ [(node, ctx)]).

(** The callback leaves the three fields the walk maintains alone. *)
Definition keepsWalkFields {S : Type}
    (fn : Syntax -> AnalysisContext -> S -> bool * AnalysisContext * S) : Prop :=
  forall node ctx s,
    LoopDepth (fn node ctx s).1.2 = LoopDepth ctx
    ∧ InLoop (fn node ctx s).1.2 = InLoop ctx
    ∧ CurrentFunc (fn node ctx s).1.2 = CurrentFunc ctx.

Definition sameWalkFields (a b : AnalysisContext) : Prop :=
  LoopDepth b = LoopDepth a ∧ InLoop b = InLoop a ∧ CurrentFunc b = CurrentFunc a.

(** [for { g() }] inside [func f], and the same loop inside a statement
    of a kind the walk has no case for. *)
Definition callG : Syntax := Nd ExprStmt [Some (Nd CallExpr [Some (Nd OtherKind []); None])].
Definition loopG : Syntax := Nd ForStmt [None; None; None; Some (Nd BlockStmt [Some callG])].
Definition funcF : Syntax :=
  Nd (FuncDecl (Some "f"%string)) [Some (Nd OtherKind []); Some (Nd BlockStmt [Some loopG])].
Definition hiddenLoop : Syntax := Nd BlockStmt [Some (Nd OtherKind [Some loopG])].

Definition always (node : Syntax) : bool := true.

(** What the walk does to the context before it walks the fields of a
    node of the given kind. *)
Definition enter (kind : Kind) (ctx : AnalysisContext) : AnalysisContext :=
  if isLoop kind then set_loop ctx (int_add (LoopDepth ctx) 1) true
  else match funcName kind with
       | Some name => set_CurrentFunc ctx name
       | None => ctx
       end.

(** The context [d] loops and function [f] further in. *)
Definition deepen (ctx : AnalysisContext) (d : nat) (f : option string) : AnalysisContext :=
  set_CurrentFunc
    (set_loop ctx (wrap64 (LoopDepth ctx + Z.of_nat d)) (InLoop ctx || (0 <? Z.of_nat d)))
    (default (CurrentFunc ctx) f).

(** The context a callback is shown below [d] loop statements and
    inside the function declaration named [f], in a walk that
    [WalkWithContext] started. *)
Definition shownAt (d : nat) (f : option string) : AnalysisContext :=
  {| StartTime := 0; ctx_FileSet := None; Imports := ∅; FuncDecls := ∅; TypeDecls := ∅;
     Filename := ""; CurrentFunc := default ""%string f;
     LoopDepth := wrap64 (Z.of_nat d); NodeCount := 0; InLoop := (0 <? Z.of_nat d) |}.

Definition visits (descend : Syntax -> bool) (node : Syntax) (ctx : AnalysisContext)
    : list (Syntax * AnalysisContext) :=
  (walkWithContext (recorder descend) node ctx []).2.

Definition fieldsVisits (descend : Syntax -> bool) (fields : list (option Syntax))
    (ctx : AnalysisContext) : list (Syntax * AnalysisContext) :=
  concat (map (fun f => match f with
                        | Some child => visits descend child ctx
                        | None => []
                        end) fields).

(** ** Hybrid cache: what is loaded at start *)

(** The record was analysed less than 24 hours before [now]. *)
Definition recent (now : Time) (record : FileRecord) : bool :=
  now - LastAnalyzed record <? 24 * hour.

Definition entryOf (record : FileRecord) : Entry :=
  {| Entry_Hash := Hash record; Entry_Issues := Issues record |}.

Definition effectiveMaxItems (maxItems : Z) : Z :=
  if maxItems <=? 0 then defaultMaxMemoryItems else maxItems.

Definition diskThree : FileCache :=
  diskWith [ {| Path := "a.go"; Hash := "h1"; LastAnalyzed := 100 * hour;
                Issues := Some []; Ignored := None |};
             {| Path := "b.go"; Hash := "h2"; LastAnalyzed := 10 * hour;
                Issues := Some []; Ignored := None |};
             {| Path := "c.go"; Hash := "h3"; LastAnalyzed := 99 * hour;
                Issues := Some []; Ignored := None |};
             {| Path := "d.go"; Hash := "h4"; LastAnalyzed := 101 * hour;
                Issues := Some []; Ignored := None |} ].

(** ** Hybrid cache: reads *)

Definition isGet (o : op) : bool :=
  match o with
  | OpGet _ _ => true
  | OpPut _ _ _ => false
  end.

(** ** Hybrid cache: a cache of capacity one *)

(** A cache of capacity one over an empty store, and the same after
    [Put("a.go", entryA)]. *)
Definition hybridOne : HybridCache :=
  {| memCache := ∅; lru := []; elements := ∅; nextElement := O; maxItems := 1;
     diskCache := diskWith []; dirtyKeys := ∅ |}.

Definition hybridOneA : HybridCache :=
  default hybridOne (run [OpPut 1 "a.go" entryA] hybridOne).

(** ** Issue pointers held more than once *)

(** No issue object is held at two slots. *)
Definition noSharing (sameObject : slot → slot → bool) : Prop :=
  ∀ p q, sameObject p q = true → p = q.

Definition unshared : slot → slot → bool := λ _ _, false.

(** One record whose [Issues] holds the same pointer twice. *)
Definition diskTwice : FileCache :=
  diskOf [recordOf "a.go" "h1"
            (Some [Some (issueAt 0 3 "nested loop"); Some (issueAt 0 3 "nested loop")]) None].

Definition heldTwice (p q : slot) : bool :=
  slot_eqb p (O, O) && slot_eqb q (O, 1%nat) || slot_eqb p (O, 1%nat) && slot_eqb q (O, O).

(** * Theorems *)

(** ** Strings *)

Lemma Split_nonempty s sep : Split s sep ≠ [].
Proof.
  induction s as [|c r IH]; simpl; [done|].
  destruct (Ascii.eqb c sep); [done|].
  destruct (Split r sep); done.
Qed.

Lemma Split_no_sep s sep : has_sep sep s = false → Split s sep = [s].
Proof.
  unfold has_sep. induction s as [|c r IH]; simpl; [done|].
  intros H. apply orb_false_elim in H as [Hc Hr].
  rewrite Ascii.eqb_sym, Hc, (IH Hr). done.
Qed.

Lemma Split_app_sep p s sep :
  has_sep sep p = false → Split (p ++ String sep s) sep = p :: Split s sep.
Proof.
  unfold has_sep. induction p as [|c r IH]; simpl.
  - intros _. by rewrite Ascii.eqb_refl.
  - intros H. apply orb_false_elim in H as [Hc Hr].
    rewrite Ascii.eqb_sym, Hc, (IH Hr). done.
Qed.

Lemma is_token_no_sep s sep :
  is_token s = true → (is_space sep = true ∨ sep = ","%char) → has_sep sep s = false.
Proof.
  unfold is_token, has_sep. intros H Hsep.
  induction s as [|c r IH]; simpl in *; [done|].
  apply andb_prop in H as [Hc Hr]. rewrite (IH Hr), orb_false_r.
  apply andb_prop in Hc as [Hs Hcomma].
  destruct (Ascii.eqb_spec sep c) as [->|]; [|done].
  destruct Hsep as [Hsp | ->].
  - by rewrite Hsp in Hs.
  - by rewrite Ascii.eqb_refl in Hcomma.
Qed.

(** ** Suppression engine *)

Lemma fold_left_via_map {A B C : Type} (f : A → B → A) (g : A → C → A) (h : B → C) l a :
  (∀ a x, f a x = g a (h x)) → fold_left f l a = fold_left g (map h l) a.
Proof.
  intros Hfg. revert a. induction l as [|x l IH]; intros a; simpl; [done|].
  by rewrite Hfg, IH.
Qed.

Lemma processSpecificDirective_addAll ic directive issueTypes line :
  processSpecificDirective ic directive issueTypes line
  = addAll ic (directiveRanges directive issueTypes line).
Proof.
  unfold processSpecificDirective, directiveRanges, addAll.
  repeat case_match; try done; try (by apply fold_left_via_map).
  apply fold_left_via_map. intros a x. simpl. by case_match.
Qed.

Lemma processIgnoreDirective_addAll ic text pos :
  processIgnoreDirective ic text pos
  = addAll ic (textRanges text (PositionLine (ic_fset ic) pos)).
Proof.
  unfold processIgnoreDirective, textRanges.
  destruct (Split text " ") as [|d [|tys rest]]; try done.
  apply processSpecificDirective_addAll.
Qed.

Lemma processComment_addAll ic c :
  processComment ic c = addAll ic (commentRanges (ic_fset ic) c).
Proof.
  unfold processComment, commentRanges. case_match; [|done].
  apply processIgnoreDirective_addAll.
Qed.

Lemma ic_fset_addAll ic rs : ic_fset (addAll ic rs) = ic_fset ic.
Proof.
  unfold addAll. revert ic. induction rs as [|r rs IH]; intros ic; simpl; [done|].
  by rewrite IH.
Qed.

Lemma addAll_app ic rs1 rs2 : addAll ic (rs1 ++ rs2) = addAll (addAll ic rs1) rs2.
Proof. unfold addAll. apply fold_left_app. Qed.

Lemma fold_processComment ic cs :
  fold_left processComment cs ic = addAll ic (flat_map (commentRanges (ic_fset ic)) cs).
Proof.
  revert ic. induction cs as [|c cs IH]; intros ic; simpl; [done|].
  rewrite IH, processComment_addAll, ic_fset_addAll, addAll_app. done.
Qed.

Lemma fold_groups ic gs :
  fold_left (fun ic cg => fold_left processComment cg ic) gs ic
  = addAll ic (flat_map (commentRanges (ic_fset ic)) (concat gs)).
Proof.
  revert ic. induction gs as [|g gs IH]; intros ic; simpl; [done|].
  rewrite IH, fold_processComment, ic_fset_addAll, flat_map_app, addAll_app. done.
Qed.

(** The checker of a file holds exactly the ranges its comments
    contribute, added in source order. *)
Lemma NewIgnoreChecker_ranges fset file :
  NewIgnoreChecker fset file
  = addAll {| ic_fset := fset; ic_file := file; ignoreRanges := ∅ |} (fileRanges fset file).
Proof. unfold NewIgnoreChecker, parseIgnoreComments. by rewrite fold_groups. Qed.

Lemma covers_addRange ic r k line :
  covers (ignoreRanges (addRange ic r)) k line
  = covers (ignoreRanges ic) k line || (String.eqb (issueType r) k && in_range line r).
Proof.
  unfold covers, addRange, addIgnoreRange. simpl.
  destruct (String.eqb_spec (issueType r) k) as [->|Hne].
  - rewrite lookup_insert_eq. destruct (ignoreRanges ic !! k) as [rs|]; simpl.
    + rewrite existsb_app. simpl. by rewrite orb_false_r.
    + by rewrite orb_false_r.
  - rewrite lookup_insert_ne by done. by rewrite orb_false_r.
Qed.

Lemma covers_addAll ic rs k line :
  covers (ignoreRanges (addAll ic rs)) k line
  = covers (ignoreRanges ic) k line || hits rs k line.
Proof.
  unfold addAll, hits. revert ic. induction rs as [|r rs IH]; intros ic; simpl.
  - by rewrite orb_false_r.
  - rewrite IH, covers_addRange, orb_assoc. done.
Qed.

(** [ShouldIgnore] read off the contributed ranges. *)
Lemma ShouldIgnore_fileRanges fset file ty line :
  ShouldIgnore (NewIgnoreChecker fset file) ty line
  = hits (fileRanges fset file) ty line
    || hits (fileRanges fset file) "" line
    || hits (fileRanges fset file) "*" line.
Proof.
  unfold ShouldIgnore. rewrite NewIgnoreChecker_ranges, !covers_addAll.
  unfold covers at 1 2 3. simpl. rewrite !lookup_empty. simpl.
  by repeat case_match.
Qed.

Lemma hits_app rs1 rs2 k line : hits (rs1 ++ rs2) k line = hits rs1 k line || hits rs2 k line.
Proof. unfold hits. apply existsb_app. Qed.

Lemma filter_twice {A : Type} (f : A → bool) l : List.filter f (List.filter f l) = List.filter f l.
Proof.
  induction l as [|x l IH]; simpl; [done|].
  destruct (f x) eqn:E; simpl; [|done]. by rewrite E, IH.
Qed.

Lemma wrap64_step z : wrap64 (z + 2) ≠ wrap64 (z + 1).
Proof.
  unfold wrap64. intros H.
  assert (E : (z + 2 + 2 ^ 63) mod 2 ^ 64 = (z + 1 + 2 ^ 63) mod 2 ^ 64) by lia.
  pose proof (Z.div_mod (z + 2 + 2 ^ 63) (2 ^ 64) ltac:(lia)) as H2.
  pose proof (Z.div_mod (z + 1 + 2 ^ 63) (2 ^ 64) ltac:(lia)) as H1.
  rewrite E in H2. lia.
Qed.

Lemma in_range_point line l : in_range line (mkRange "" l l) = true ↔ line = l.
Proof. unfold in_range. simpl. lia. Qed.

Lemma fileRanges_split fset file gs1 g1 c g2 gs2 :
  Comments file = gs1 ++ (g1 ++ c :: g2) :: gs2 →
  ∃ before after,
    fileRanges fset file = before ++ commentRanges fset c ++ after
    ∧ fileRanges fset (withComments file (gs1 ++ (g1 ++ g2) :: gs2)) = before ++ after.
Proof.
  intros HC. unfold fileRanges. rewrite HC. simpl.
  exists (flat_map (commentRanges fset) (concat gs1 ++ g1)),
         (flat_map (commentRanges fset) (g2 ++ concat gs2)).
  rewrite !concat_app, !concat_cons, !flat_map_app. simpl.
  rewrite <- ?app_assoc. done.
Qed.

Lemma commentRanges_next_line fset c Foo :
  extractCommentText (Text c) = ("abc:ignore-next-line " ++ Foo)%string →
  is_token Foo = true → TrimSpace Foo = Foo →
  commentRanges fset c
  = [mkRange Foo (int_add (PositionLine fset (Slash c)) 1)
       (int_add (PositionLine fset (Slash c)) 1)].
Proof.
  intros Htext Htok Htrim. unfold commentRanges. rewrite Htext.
  change (HasPrefix ("abc:ignore-next-line " ++ Foo) "abc:ignore") with true.
  cbv iota. unfold textRanges.
  change ("abc:ignore-next-line " ++ Foo)%string
    with ("abc:ignore-next-line" ++ String " " Foo)%string.
  rewrite Split_app_sep by reflexivity.
  rewrite (Split_no_sep Foo " ") by (apply is_token_no_sep; [done | by left]).
  unfold directiveRanges.
  change (String.eqb "abc:ignore-next-line" "abc:ignore-line") with false.
  change (String.eqb "abc:ignore-next-line" "abc:ignore-next-line") with true.
  cbv iota.
  rewrite (Split_no_sep Foo ",") by (apply is_token_no_sep; [done | by right]).
  cbn [map]. by rewrite Htrim.
Qed.

Lemma commentRanges_bare fset c :
  extractCommentText (Text c) = "abc:ignore-file"%string
  ∨ extractCommentText (Text c) = "abc:ignore"%string →
  commentRanges fset c
  = [mkRange "" (int_add (PositionLine fset (Slash c)) 1)
       (int_add (PositionLine fset (Slash c)) 1)].
Proof. intros [H|H]; unfold commentRanges; rewrite H; reflexivity. Qed.

Section FilterLaws.
Variable IssueType_String : IssueType → string.

Local Abbreviation Filter := (FilterIssuesByComments IssueType_String).

Lemma elem_of_Filter fset file issues d :
  Some d ∈ slice_elems (Filter issues (Some fset) (Some file))
  ↔ Some d ∈ slice_elems issues
    ∧ ShouldIgnore (NewIgnoreChecker fset file) (IssueType_String (Type_ d)) (Line d) = false.
Proof.
  unfold FilterIssuesByComments. simpl.
  rewrite !list_elem_of_In, filter_In. unfold keep_issue.
  by rewrite negb_true_iff.
Qed.

(** C8, amended.  A comment [abc:ignore-next-line Foo] at line [N],
    [Foo] being a category name without ASCII white space or comma and
    without other white space around it, removes every diagnostic of
    category [Foo] at line [N+1]; a diagnostic of the same category at
    line [N+2] is retained when no other comment of the file suppresses
    it.  (The directive never widens its range, whatever [Foo] is.) *)
Theorem ignore_next_line_precision
    fset file gs1 g1 c g2 gs2 Foo (issues : slice (option Issue)) (d1 d2 : Issue) :
  Comments file = gs1 ++ (g1 ++ c :: g2) :: gs2 →
  extractCommentText (Text c) = ("abc:ignore-next-line " ++ Foo)%string →
  is_token Foo = true → TrimSpace Foo = Foo →
  IssueType_String (Type_ d1) = Foo →
  Line d1 = int_add (PositionLine fset (Slash c)) 1 →
  IssueType_String (Type_ d2) = Foo →
  Line d2 = int_add (PositionLine fset (Slash c)) 2 →
  Some d2 ∈ slice_elems issues →
  ShouldIgnore (NewIgnoreChecker fset (withComments file (gs1 ++ (g1 ++ g2) :: gs2)))
    Foo (Line d2) = false →
  (Some d1 ∉ slice_elems (Filter issues (Some fset) (Some file)))
  ∧ (Some d2 ∈ slice_elems (Filter issues (Some fset) (Some file))).
Proof.
  intros HC Htext Htok Htrim Hty1 Hl1 Hty2 Hl2 Hin Hrest.
  destruct (fileRanges_split fset file gs1 g1 c g2 gs2 HC) as (A & B & Hfull & Hwithout).
  rewrite (commentRanges_next_line fset c Foo Htext Htok Htrim) in Hfull.
  set (N := PositionLine fset (Slash c)) in *.
  rewrite !elem_of_Filter, !ShouldIgnore_fileRanges, Hfull, Hty1, Hty2, !hits_app.
  rewrite ShouldIgnore_fileRanges, Hwithout, !hits_app in Hrest.
  split.
  - intros [_ Hno].
    assert (Hhit : hits [mkRange Foo (int_add N 1) (int_add N 1)] Foo (Line d1) = true).
    { unfold hits, in_range. simpl. rewrite String.eqb_refl, Hl1. simpl.
      rewrite !Z.leb_refl. done. }
    rewrite Hhit in Hno. simpl in Hno. by rewrite orb_true_r in Hno.
  - split; [done|].
    assert (Hmiss : ∀ k, hits [mkRange Foo (int_add N 1) (int_add N 1)] k (Line d2) = false).
    { intros k. unfold hits, in_range. simpl. rewrite orb_false_r, Hl2.
      apply andb_false_intro2.
      pose proof (wrap64_step N) as Hstep. unfold int_add.
      destruct (Z.leb_spec (wrap64 (N + 1)) (wrap64 (N + 2)));
        destruct (Z.leb_spec (wrap64 (N + 2)) (wrap64 (N + 1))); simpl; try done.
      lia. }
    rewrite !Hmiss. simpl.
    repeat match goal with |- context [hits ?a ?b ?c] => destruct (hits a b c) end;
      simpl in *; done.
Qed.

(** C9.  Filtering an already filtered list with the same file set and
    file removes nothing more. *)
Theorem FilterIssuesByComments_idempotent
    (issues : slice (option Issue)) (fset : option FileSet) (file : option ast_File) :
  Filter (Filter issues fset file) fset file = Filter issues fset file.
Proof.
  unfold FilterIssuesByComments.
  destruct file as [file|]; [|done]. destruct fset as [fset|]; [|done].
  simpl. by rewrite filter_twice.
Qed.
End FilterLaws.

(** C10.  A comment that is exactly [abc:ignore-file] is processed like
    the bare [abc:ignore]: it records one all-categories range for the
    next line, and that is its whole effect on what the file suppresses. *)
Theorem bare_ignore_file_is_next_line
    ic fset file gs1 g1 (c c' : Comment) g2 gs2 :
  extractCommentText (Text c) = "abc:ignore-file"%string →
  extractCommentText (Text c') = "abc:ignore"%string →
  Slash c' = Slash c →
  Comments file = gs1 ++ (g1 ++ c :: g2) :: gs2 →
  processComment ic c
  = addIgnoreRange ic "" (int_add (PositionLine (ic_fset ic) (Slash c)) 1)
      (int_add (PositionLine (ic_fset ic) (Slash c)) 1)
  ∧ processComment ic c = processComment ic c'
  ∧ ∀ ty line,
      ShouldIgnore (NewIgnoreChecker fset file) ty line
      = ShouldIgnore (NewIgnoreChecker fset (withComments file (gs1 ++ (g1 ++ g2) :: gs2)))
          ty line
        || (line =? int_add (PositionLine fset (Slash c)) 1).
Proof.
  intros Hc Hc' Hpos HC. split; [|split].
  - rewrite processComment_addAll, commentRanges_bare by (by left). done.
  - rewrite !processComment_addAll, !commentRanges_bare, Hpos by (by left + by right). done.
  - intros ty line.
    destruct (fileRanges_split fset file gs1 g1 c g2 gs2 HC) as (A & B & Hfull & Hwithout).
    rewrite (commentRanges_bare fset c) in Hfull by (by left).
    rewrite !ShouldIgnore_fileRanges, Hfull, Hwithout, !hits_app.
    set (l := int_add (PositionLine fset (Slash c)) 1).
    assert (Hty : hits [mkRange "" l l] ty line = String.eqb "" ty && (line =? l)).
    { unfold hits, in_range. simpl. rewrite orb_false_r. f_equal. lia. }
    assert (Hall : hits [mkRange "" l l] "" line = (line =? l)).
    { unfold hits, in_range. simpl. rewrite orb_false_r. lia. }
    assert (Hstar : hits [mkRange "" l l] "*" line = false) by done.
    rewrite Hty, Hall, Hstar.
    destruct (String.eqb "" ty), (line =? l);
      repeat match goal with |- context [hits ?a ?b ?c] => destruct (hits a b c) end;
      done.
Qed.

(** ** Disk store *)

Lemma findRecord_Some k files r : findRecord k files = Some r → Path r = k ∧ r ∈ files.
Proof.
  induction files as [|x files IH]; simpl; [done|].
  destruct (String.eqb_spec (Path x) k) as [E|E].
  - intros [= <-]. split; [done | left].
  - intros H. destruct (IH H). split; [done | by right].
Qed.

Lemma findRecord_None k files : findRecord k files = None ↔ k ∉ map Path files.
Proof.
  induction files as [|x files IH]; simpl.
  - split; [intros _; apply not_elem_of_nil | done].
  - rewrite not_elem_of_cons. destruct (String.eqb_spec (Path x) k) as [E|E].
    + split; [done | intros [? _]; congruence].
    + rewrite IH. split; [intros ?; split; congruence | tauto].
Qed.

Lemma findRecord_app k l1 l2 :
  findRecord k (l1 ++ l2)
  = match findRecord k l1 with Some r => Some r | None => findRecord k l2 end.
Proof.
  induction l1 as [|x l1 IH]; simpl; [done|].
  by destruct (String.eqb (Path x) k).
Qed.

Lemma findRecord_removeFirst_ne k k' files :
  k' ≠ k → findRecord k' (removeFirst k files) = findRecord k' files.
Proof.
  intros Hne. induction files as [|x files IH]; simpl; [done|].
  destruct (String.eqb_spec (Path x) k) as [E|E]; simpl.
  - destruct (String.eqb_spec (Path x) k'); [congruence | done].
  - by rewrite IH.
Qed.

Lemma removeFirst_paths k files x :
  x ∈ map Path (removeFirst k files) → x ∈ map Path files.
Proof.
  induction files as [|y files IH]; simpl; [done|].
  destruct (String.eqb (Path y) k); simpl.
  - intros H. by right.
  - rewrite !elem_of_cons. intros [->|H]; [by left | right; auto].
Qed.

Lemma removeFirst_NoDup k files :
  NoDup (map Path files) →
  NoDup (map Path (removeFirst k files)) ∧ k ∉ map Path (removeFirst k files).
Proof.
  induction files as [|y files IH]; simpl.
  - intros _. split; [constructor | apply not_elem_of_nil].
  - rewrite NoDup_cons. intros [Hy Hnd].
    destruct (String.eqb_spec (Path y) k) as [E|E]; simpl.
    + split; [done | by rewrite <- E].
    + destruct (IH Hnd) as [H1 H2]. split.
      * apply NoDup_cons. split; [|done]. intros H. by apply Hy, (removeFirst_paths k).
      * rewrite not_elem_of_cons. split; [congruence | done].
Qed.

Lemma removeFirst_Forall (P : FileRecord → Prop) k files :
  Forall P files → Forall P (removeFirst k files).
Proof.
  induction 1 as [|y files Hy Hf IH]; simpl; [constructor|].
  destruct (String.eqb (Path y) k); [done | by constructor].
Qed.

Lemma countFixed_total issues acc : Forall is_Some issues → is_Some (countFixed issues acc).
Proof.
  intros H. revert acc. induction H as [|p l [i ->] Hl IH]; intros acc; simpl; [done|].
  apply IH.
Qed.

Lemma statsLoop_total files stats :
  Forall (fun r => nilFree (Issues r)) files → is_Some (statsLoop files stats).
Proof.
  intros H. revert stats. induction H as [|r l Hr Hl IH]; intros stats; simpl; [done|].
  destruct (countFixed_total (slice_elems (Issues r)) (FixedIssues stats) Hr) as [n ->].
  simpl. apply IH.
Qed.

Lemma updateStats_inv fc fc' :
  updateStats fc = Some fc' →
  Files (data fc') = Files (data fc) ∧ writable fc' = writable fc
  ∧ persisted fc' = persisted fc.
Proof.
  unfold updateStats. intros H. apply bind_Some in H as (stats & _ & [= <-]). done.
Qed.

Lemma updateStats_total fc : diskNilFree fc → is_Some (updateStats fc).
Proof.
  intros H. unfold updateStats.
  destruct (statsLoop_total (Files (data fc))
              {| TotalFiles := 0; TotalIssues := 0; IgnoredIssues := 0; FixedIssues := 0;
                 LastFullScan := LastFullScan (Stats (data fc));
                 CacheHits := CacheHits (Stats (data fc));
                 CacheMisses := CacheMisses (Stats (data fc)) |} H) as [s Hs].
  rewrite Hs. done.
Qed.

Lemma saveUnsafe_inv fc now fc' err :
  saveUnsafe fc now = (fc', err) →
  Files (data fc') = Files (data fc) ∧ writable fc' = writable fc
  ∧ (writable fc = true → persisted fc' = Some (data fc')).
Proof.
  unfold saveUnsafe. destruct (writable fc) eqn:E; intros [= <- <-]; simpl; done.
Qed.

(** What [SaveRawRecord] leaves behind, when it returns. *)
Lemma SaveRawRecord_inv fc now k e fc' err :
  SaveRawRecord fc now k e = Some (fc', err) →
  Files (data fc') = removeFirst k (Files (data fc)) ++ [rawRecord now k e]
  ∧ writable fc' = writable fc
  ∧ (writable fc = true → persisted fc' = Some (data fc')).
Proof.
  unfold SaveRawRecord. intros H. apply bind_Some in H as (fc1 & H1 & [= H2]).
  apply updateStats_inv in H1 as (HF & HW & _). simpl in HF, HW.
  apply saveUnsafe_inv in H2 as (HF2 & HW2 & HP).
  rewrite HF2, HF, HW2, HW. split; [done|]. split; [done|].
  intros Hw. apply HP. by rewrite HW.
Qed.

(** It returns whenever no record holds a nil issue pointer. *)
Lemma SaveRawRecord_total fc now k e :
  diskNilFree fc → nilFree (Entry_Issues e) → is_Some (SaveRawRecord fc now k e).
Proof.
  intros Hfc He. unfold SaveRawRecord.
  set (fc1 := set_data fc _).
  destruct (updateStats_total fc1) as [x Hx].
  { unfold diskNilFree, fc1. simpl. apply Forall_app. split.
    - by apply removeFirst_Forall.
    - by repeat constructor. }
  rewrite Hx. done.
Qed.

Lemma SaveRawRecord_keeps_WF fc now k e fc' err :
  SaveRawRecord fc now k e = Some (fc', err) →
  (diskUnique fc → diskUnique fc')
  ∧ (diskNilFree fc → nilFree (Entry_Issues e) → diskNilFree fc').
Proof.
  intros H. apply SaveRawRecord_inv in H as (HF & _).
  unfold diskUnique, diskNilFree. rewrite HF. split.
  - intros Hnd. destruct (removeFirst_NoDup k _ Hnd) as [H1 H2].
    rewrite map_app. simpl. apply NoDup_app. split; [done|]. split.
    + intros x Hx. rewrite list_elem_of_singleton. intros ->. done.
    + apply NoDup_singleton.
  - intros Hfc He. apply Forall_app. split.
    + by apply removeFirst_Forall.
    + by repeat constructor.
Qed.

Lemma holds_after_save files now k e :
  NoDup (map Path files) → holds (removeFirst k files ++ [rawRecord now k e]) k e.
Proof.
  intros Hnd. exists (rawRecord now k e). split; [|done].
  rewrite findRecord_app.
  destruct (removeFirst_NoDup k _ Hnd) as [_ H2].
  apply findRecord_None in H2. rewrite H2. simpl. by rewrite String.eqb_refl.
Qed.

Lemma holds_other_save files now k e k' e' :
  k' ≠ k → holds files k' e' → holds (removeFirst k files ++ [rawRecord now k e]) k' e'.
Proof.
  intros Hne (r & Hr & H1 & H2). exists r. split; [|done].
  by rewrite findRecord_app, findRecord_removeFirst_ne, Hr.
Qed.

(** ** The LRU list *)

Lemma list_Remove_notin id l : id ∉ l → list_Remove id l = l.
Proof.
  unfold list_Remove. induction l as [|x l IH]; [done|].
  rewrite not_elem_of_cons. intros [Hx Hl].
  rewrite filter_cons_True by congruence. by rewrite IH.
Qed.

Lemma elem_of_list_Remove id l x : x ∈ list_Remove id l ↔ x ∈ l ∧ x ≠ id.
Proof. unfold list_Remove. rewrite list_elem_of_filter. tauto. Qed.

Lemma list_Remove_perm id l : NoDup l → id ∈ l → l ≡ₚ id :: list_Remove id l.
Proof.
  unfold list_Remove. induction l as [|x l IH]; [by intros _ ?%elem_of_nil|].
  rewrite NoDup_cons, elem_of_cons. intros [Hx Hnd] Hin.
  destruct (decide (x = id)) as [->|Hne].
  - rewrite filter_cons_False by tauto.
    fold (list_Remove id l). by rewrite list_Remove_notin.
  - rewrite filter_cons_True by done.
    destruct Hin as [->|Hin]; [done|].
    rewrite (IH Hnd Hin) at 1. apply Permutation_swap.
Qed.

Lemma list_Remove_NoDup id l : NoDup l → NoDup (list_Remove id l).
Proof. apply NoDup_filter. Qed.

Lemma list_Remove_length id l :
  NoDup l → id ∈ l → length l = S (length (list_Remove id l)).
Proof. intros Hnd Hin. by rewrite (list_Remove_perm id l Hnd Hin) at 1. Qed.

Lemma list_MoveToFront_perm id l : NoDup l → list_MoveToFront id l ≡ₚ l.
Proof.
  intros Hnd. unfold list_MoveToFront. case_decide; [|done].
  symmetry. by apply list_Remove_perm.
Qed.

Lemma last_elem_of (l : list nat) id : last l = Some id → id ∈ l.
Proof. intros (l' & ->)%last_Some. apply elem_of_app. right. left. Qed.

(** ** Steps of the hybrid cache, field by field *)

Lemma flushItem_inv hc now k e hc' :
  flushItem hc now k e = Some hc' →
  ∃ fc err, SaveRawRecord (diskCache hc) now k e = Some (fc, err) ∧ hc' = set_diskCache hc fc.
Proof.
  unfold flushItem. intros H. apply bind_Some in H as ([fc err] & H1 & [= <-]). eauto.
Qed.

Lemma evictOldest_inv hc now hc' :
  evictOldest hc now = Some hc' →
  (lru hc = [] ∧ hc' = hc)
  ∨ ∃ id item,
      last (lru hc) = Some id ∧ elements hc !! id = Some item
      ∧ lru hc' = list_Remove id (lru hc)
      ∧ memCache hc' = delete (key item) (memCache hc)
      ∧ elements hc' = elements hc ∧ nextElement hc' = nextElement hc
      ∧ maxItems hc' = maxItems hc
      ∧ dirtyKeys hc' = dirtyKeys hc ∖ {[key item]}
      ∧ (((key item ∈ dirtyKeys hc)
          ∧ ∃ err, SaveRawRecord (diskCache hc) now (key item) (entry item)
                   = Some (diskCache hc', err))
         ∨ ((key item ∉ dirtyKeys hc) ∧ diskCache hc' = diskCache hc)).
Proof.
  unfold evictOldest. destruct (last (lru hc)) as [id|] eqn:Hlast.
  - intros H0. right. destruct (proj1 (bind_Some _ _ _) H0) as (item & Hitem & H).
    exists id, item. simpl in H. case_decide as Hd.
    + apply bind_Some in H as (hc1 & Hflush & [= <-]).
      apply flushItem_inv in Hflush as (fc & err & Hsave & ->). simpl in *.
      repeat split; try done. left. eauto.
    + simplify_eq. simpl. repeat split; try done.
      * apply set_eq. intros x. rewrite elem_of_difference, elem_of_singleton.
        split; [|tauto]. intros Hx. split; [done|]. by intros ->.
      * by right.
  - intros [= <-]. left. by apply last_None in Hlast.
Qed.

Lemma addToMemCache_inv hc now k e hc' :
  addToMemCache hc now k e = Some hc' →
  ∃ hc1,
    ((Z.of_nat (length (lru hc)) >= maxItems hc ∧ evictOldest hc now = Some hc1)
     ∨ (Z.of_nat (length (lru hc)) < maxItems hc ∧ hc1 = hc))
    ∧ lru hc' = nextElement hc1 :: lru hc1
    ∧ memCache hc' = <[k := nextElement hc1]> (memCache hc1)
    ∧ elements hc' = <[nextElement hc1 := {| key := k; entry := e; lastAccess := now |}]>
                       (elements hc1)
    ∧ nextElement hc' = S (nextElement hc1)
    ∧ maxItems hc' = maxItems hc1
    ∧ diskCache hc' = diskCache hc1
    ∧ dirtyKeys hc' = dirtyKeys hc1.
Proof.
  unfold addToMemCache. intros H. apply bind_Some in H as (hc1 & H1 & [= <-]).
  exists hc1. simpl. split; [|done].
  destruct (Z.geb_spec (Z.of_nat (length (lru hc))) (maxItems hc)).
  - left. split; [lia | done].
  - right. injection H1 as <-. split; [lia | done].
Qed.

(** ** Disk facts across a save *)

Lemma onDisk_saved fc now k e fc' err :
  diskUnique fc → SaveRawRecord fc now k e = Some (fc', err) → onDisk fc' k e.
Proof.
  intros Hnd H. apply SaveRawRecord_inv in H as (HF & HW & HP).
  assert (Hh : holds (Files (data fc')) k e) by (rewrite HF; by apply holds_after_save).
  split; [done|]. intros Hw. rewrite HW in Hw. exists (data fc'). split; [by apply HP | done].
Qed.

Lemma onDisk_other_saved fc now k e fc' err k' e' :
  k' ≠ k → SaveRawRecord fc now k e = Some (fc', err) → onDisk fc k' e' → onDisk fc' k' e'.
Proof.
  intros Hne H [Hd _]. apply SaveRawRecord_inv in H as (HF & HW & HP).
  assert (Hh : holds (Files (data fc')) k' e') by (rewrite HF; by apply holds_other_save).
  split; [done|]. intros Hw. rewrite HW in Hw. exists (data fc'). split; [by apply HP | done].
Qed.

(** ** Well-formedness is kept *)

Lemma memOK_key hc k id :
  memOK hc → memCache hc !! k = Some id →
  id ∈ lru hc ∧ ∃ item, elements hc !! id = Some item ∧ key item = k.
Proof.
  intros (_ & _ & _ & Hbij & _) Hk. apply Hbij in Hk as [Hin Hkey].
  split; [done|]. unfold keyOf in Hkey. apply fmap_Some in Hkey as (item & ? & ->). eauto.
Qed.

Lemma resident_Some hc k e :
  resident hc k = Some e ↔
  ∃ id item, memCache hc !! k = Some id ∧ elements hc !! id = Some item ∧ entry item = e.
Proof.
  unfold resident. split.
  - intros H. apply bind_Some in H as (id & Hid & H).
    apply bind_Some in H as (item & Hitem & [= <-]). eauto.
  - intros (id & item & -> & Hitem & <-). simpl. by rewrite Hitem.
Qed.

Lemma evictOldest_total hc now : WF hc → is_Some (evictOldest hc now).
Proof.
  intros ((_ & _ & Halloc & _) & _ & Hdnf & Hmnf). unfold evictOldest.
  destruct (last (lru hc)) as [id|] eqn:Hlast; [|done].
  destruct (Halloc id (last_elem_of _ _ Hlast)) as [item Hitem]. rewrite Hitem. simpl.
  case_decide; [|done]. unfold flushItem. simpl.
  destruct (SaveRawRecord_total (diskCache hc) now (key item) (entry item) Hdnf
              (Hmnf id item Hitem)) as [[fc err] Hs].
  rewrite Hs. done.
Qed.

Lemma evictOldest_spec hc now hc' :
  WF hc → evictOldest hc now = Some hc' →
  WF hc'
  ∧ elements hc' = elements hc ∧ nextElement hc' = nextElement hc
  ∧ maxItems hc' = maxItems hc
  ∧ (lru hc ≠ [] → length (lru hc) = S (length (lru hc')))
  ∧ (∀ k, memCache hc !! k = None → memCache hc' !! k = None)
  ∧ (∀ k, memCache hc !! k = None → k ∈ dirtyKeys hc → k ∈ dirtyKeys hc')
  ∧ (∀ k e, memCache hc !! k = None →
            onDisk (diskCache hc) k e → onDisk (diskCache hc') k e)
  ∧ (∀ k e, kept hc k e → kept hc' k e).
Proof.
  intros (Hmem & Hdu & Hdnf & Hmnf) Hev.
  destruct (evictOldest_inv hc now hc' Hev)
    as [[Hnil ->] | (id & item & Hlast & Hitem & Hlru & Hmc & Hel & Hnx & Hmx & Hdk & Hdisk)].
  { repeat (split; [solve [done | intros; congruence]|]). done. }
  pose proof Hmem as (Hnd & Hfresh & Halloc & Hbij & Hmax1 & Hlen).
  unfold bijection in Hbij.
  pose proof (last_elem_of _ _ Hlast) as Hin.
  assert (Hk0 : memCache hc !! key item = Some id).
  { apply Hbij. split; [done|]. unfold keyOf. by rewrite Hitem. }
  assert (HkeyOf : ∀ i, keyOf hc' i = keyOf hc i) by (intros i; unfold keyOf; by rewrite Hel).
  assert (Hother : ∀ k, k ≠ key item → memCache hc' !! k = memCache hc !! k).
  { intros k Hne. rewrite Hmc. by apply lookup_delete_ne. }
  assert (Hgone : memCache hc' !! key item = None).
  { rewrite Hmc. apply lookup_delete_eq. }
  assert (HWF : WF hc').
  { split; [|split; [|split]].
    - split; [|split; [|split; [|split; [|split]]]].
      + rewrite Hlru. by apply list_Remove_NoDup.
      + intros i. rewrite Hel, Hnx. apply Hfresh.
      + intros i. rewrite Hlru, Hel, elem_of_list_Remove. intros [? _]. by apply Halloc.
      + intros k i. rewrite Hlru, elem_of_list_Remove, HkeyOf.
        destruct (decide (k = key item)) as [->|Hne].
        * rewrite Hgone. split; [done|]. intros [[Hi Hneq] Hkey].
          assert (memCache hc !! key item = Some i) by (apply Hbij; done). congruence.
        * rewrite (Hother k Hne). rewrite Hbij. split.
          -- intros [Hi Hkey]. split; [|done]. split; [done|]. intros ->.
             unfold keyOf in Hkey. rewrite Hitem in Hkey. simpl in Hkey. congruence.
          -- tauto.
      + by rewrite Hmx.
      + rewrite Hmx, Hlru. pose proof (length_filter (λ x, x ≠ id) (lru hc)).
        unfold list_Remove. lia.
    - destruct Hdisk as [[_ [err Hs]] | [_ ->]]; [|done].
      by apply (SaveRawRecord_keeps_WF _ _ _ _ _ _ Hs).
    - destruct Hdisk as [[_ [err Hs]] | [_ ->]]; [|done].
      apply (SaveRawRecord_keeps_WF _ _ _ _ _ _ Hs); [done|]. by apply (Hmnf id).
    - intros i it. rewrite Hel. apply Hmnf. }
  split; [exact HWF|]. do 3 (split; [done|]). split; [|split; [|split; [|split]]].
  - intros _. rewrite Hlru. by apply list_Remove_length.
  - intros k Hk. destruct (decide (k = key item)) as [->|Hne]; [done|].
    by rewrite Hother.
  - intros k Hk Hd. rewrite Hdk. apply elem_of_difference. split; [done|].
    rewrite elem_of_singleton. intros ->. congruence.
  - intros k e Hk Hon. destruct Hdisk as [[_ [err Hs]] | [_ ->]]; [|done].
    eapply onDisk_other_saved; [|exact Hs|done]. intros ->. congruence.
  - intros k e Hkept.
    assert (Hres : ∀ k, k ≠ key item → resident hc' k = resident hc k).
    { intros k' Hne. unfold resident. by rewrite (Hother k' Hne), Hel. }
    destruct (decide (k = key item)) as [->|Hne].
    + right. split; [done|].
      destruct Hkept as [[Hr Hsafe] | [Hnone _]]; [|congruence].
      apply resident_Some in Hr as (i & it & Hi & Hit & <-).
      assert (i = id) as -> by congruence. assert (it = item) as -> by congruence.
      destruct Hdisk as [[Hd [err Hs]] | [Hd ->]].
      * by eapply onDisk_saved.
      * destruct Hsafe; [done | done].
    + assert (Hon : ∀ e, onDisk (diskCache hc) k e → onDisk (diskCache hc') k e).
      { intros e0 Hon. destruct Hdisk as [[_ [err Hs]] | [_ ->]]; [|done].
        by eapply onDisk_other_saved. }
      destruct Hkept as [[Hr Hsafe] | [Hnone Hd]].
      * left. rewrite (Hres k Hne). split; [done|].
        destruct Hsafe as [Hd | Hd]; [left | right; by apply Hon].
        rewrite Hdk. apply elem_of_difference. split; [done|].
        by rewrite elem_of_singleton.
      * right. rewrite (Hother k Hne). split; [done | by apply Hon].
Qed.

(** A hit touches one element: it moves to the front and is rewritten
    under the same key. *)
Lemma touch_spec hc k id item item' hc' :
  WF hc → memCache hc !! k = Some id → elements hc !! id = Some item →
  key item' = key item → nilFree (Entry_Issues (entry item')) →
  hc' = set_element (set_mem hc (memCache hc) (list_MoveToFront id (lru hc))) id item' →
  WF hc'
  ∧ resident hc' k = Some (entry item')
  ∧ (∀ k', k' ≠ k → resident hc' k' = resident hc k')
  ∧ memCache hc' = memCache hc
  ∧ length (lru hc') = length (lru hc).
Proof.
  intros (Hmem & Hdu & Hdnf & Hmnf) Hk Hitem Hkey Hnf ->.
  pose proof Hmem as (Hnd & Hfresh & Halloc & Hbij & Hmax1 & Hlen).
  unfold bijection in Hbij.
  pose proof (list_MoveToFront_perm id (lru hc) Hnd) as Hperm.
  assert (HkeyOf : ∀ i, keyOf (set_element (set_mem hc (memCache hc)
                     (list_MoveToFront id (lru hc))) id item') i = keyOf hc i).
  { intros i. unfold keyOf. simpl. destruct (decide (i = id)) as [->|Hne].
    - rewrite lookup_insert_eq, Hitem. simpl. by rewrite Hkey.
    - by rewrite lookup_insert_ne. }
  assert (Hkk : key item = k).
  { destruct (memOK_key hc k id Hmem Hk) as (_ & it & Hit & <-). congruence. }
  split; [|split; [|split; [|split]]].
  - split; [|split; [|split]]; try done.
    + split; [|split; [|split; [|split; [|split]]]]; simpl; try done.
      * by rewrite Hperm.
      * intros i. destruct (decide (i = id)) as [->|Hne].
        -- intros _. apply Hfresh. by rewrite Hitem.
        -- rewrite lookup_insert_ne by done. apply Hfresh.
      * intros i. rewrite Hperm. intros Hi. destruct (decide (i = id)) as [->|Hne].
        -- by rewrite lookup_insert_eq.
        -- rewrite lookup_insert_ne by done. by apply Halloc.
      * intros k' i. rewrite HkeyOf. simpl. rewrite Hperm. apply Hbij.
      * by rewrite Hperm.
    + intros i it. simpl. destruct (decide (i = id)) as [->|Hne].
      * rewrite lookup_insert_eq. by intros [= <-].
      * rewrite lookup_insert_ne by done. apply Hmnf.
  - unfold resident. simpl. rewrite Hk. simpl. by rewrite lookup_insert_eq.
  - intros k' Hne. unfold resident. simpl.
    destruct (memCache hc !! k') as [i|] eqn:Hi; [|done]. simpl.
    rewrite lookup_insert_ne; [done|]. intros <-.
    destruct (memOK_key hc k' id Hmem Hi) as (_ & it & Hit & <-). congruence.
  - done.
  - simpl. by rewrite Hperm.
Qed.

(** A miss allocates a fresh element at the front. *)
Lemma push_spec hc1 now k e hc' :
  WF hc1 → nilFree (Entry_Issues e) → memCache hc1 !! k = None →
  Z.of_nat (length (lru hc1)) < maxItems hc1 →
  lru hc' = nextElement hc1 :: lru hc1 →
  memCache hc' = <[k := nextElement hc1]> (memCache hc1) →
  elements hc' = <[nextElement hc1 := {| key := k; entry := e; lastAccess := now |}]>
                   (elements hc1) →
  nextElement hc' = S (nextElement hc1) →
  maxItems hc' = maxItems hc1 →
  diskCache hc' = diskCache hc1 →
  WF hc'
  ∧ resident hc' k = Some e
  ∧ (∀ k', k' ≠ k → memCache hc' !! k' = memCache hc1 !! k'
                    ∧ resident hc' k' = resident hc1 k').
Proof.
  intros (Hmem & Hdu & Hdnf & Hmnf) Hnf Hk Hroom Hlru Hmc Hel Hnx Hmx Hdisk.
  pose proof Hmem as (Hnd & Hfresh & Halloc & Hbij & Hmax1 & Hlen).
  unfold bijection in Hbij.
  set (n := nextElement hc1) in *.
  assert (Hn : elements hc1 !! n = None).
  { destruct (elements hc1 !! n) eqn:E; [|done].
    assert (n < n)%nat by (apply Hfresh; by rewrite E). lia. }
  assert (Hnlru : n ∉ lru hc1).
  { intros Hin. apply Halloc in Hin as [it Hit]. congruence. }
  assert (HkeyOf : ∀ i, i ≠ n → keyOf hc' i = keyOf hc1 i).
  { intros i Hne. unfold keyOf. by rewrite Hel, lookup_insert_ne. }
  assert (HkeyOfn : keyOf hc' n = Some k).
  { unfold keyOf. by rewrite Hel, lookup_insert_eq. }
  split; [|split].
  - split; [|split; [|split]].
    + split; [|split; [|split; [|split; [|split]]]].
      * rewrite Hlru. by apply NoDup_cons.
      * intros i. rewrite Hel, Hnx. destruct (decide (i = n)) as [->|Hne]; [lia|].
        rewrite lookup_insert_ne by done. intros Hi. apply Hfresh in Hi. lia.
      * intros i. rewrite Hlru, Hel, elem_of_cons. intros [->|Hi].
        -- by rewrite lookup_insert_eq.
        -- rewrite lookup_insert_ne; [by apply Halloc|]. intros <-. done.
      * intros k' i. rewrite Hmc, Hlru, elem_of_cons.
        destruct (decide (k' = k)) as [->|Hne].
        -- rewrite lookup_insert_eq. split.
           ++ intros [= <-]. split; [by left | done].
           ++ intros [[->|Hi] Hkey]; [done|].
              assert (i ≠ n) by (by intros ->).
              rewrite HkeyOf in Hkey by done.
              assert (memCache hc1 !! k = Some i) by (by apply Hbij). congruence.
        -- rewrite lookup_insert_ne by done. rewrite Hbij. split.
           ++ intros [Hi Hkey]. assert (i ≠ n) by (by intros ->).
              rewrite HkeyOf by done. split; [by right | done].
           ++ intros [[->|Hi] Hkey]; [congruence|].
              assert (i ≠ n) by (by intros ->).
              rewrite HkeyOf in Hkey by done. done.
      * by rewrite Hmx.
      * rewrite Hmx, Hlru. simpl. lia.
    + by rewrite Hdisk.
    + by rewrite Hdisk.
    + intros i it. rewrite Hel. destruct (decide (i = n)) as [->|Hne].
      * rewrite lookup_insert_eq. by intros [= <-].
      * rewrite lookup_insert_ne by done. apply Hmnf.
  - unfold resident. rewrite Hmc, lookup_insert_eq. simpl.
    by rewrite Hel, lookup_insert_eq.
  - intros k' Hne. assert (Hl : memCache hc' !! k' = memCache hc1 !! k').
    { by rewrite Hmc, lookup_insert_ne. }
    split; [done|]. unfold resident. rewrite Hl.
    destruct (memCache hc1 !! k') as [i|] eqn:Hi; [|done]. simpl.
    rewrite Hel, lookup_insert_ne; [done|]. intros <-.
    apply Hbij in Hi as [Hi _]. done.
Qed.

Lemma kept_transfer hc hc' k e :
  resident hc' k = resident hc k → memCache hc' !! k = memCache hc !! k →
  (k ∈ dirtyKeys hc → k ∈ dirtyKeys hc') →
  (onDisk (diskCache hc) k e → onDisk (diskCache hc') k e) →
  kept hc k e → kept hc' k e.
Proof.
  intros Hr Hm Hd Hdisk [[H1 H2] | [H1 H2]].
  - left. rewrite Hr. split; [done|]. destruct H2; [left; auto | right; auto].
  - right. rewrite Hm. split; [done | auto].
Qed.

Lemma addToMemCache_total hc now k e : WF hc → is_Some (addToMemCache hc now k e).
Proof.
  intros HWF. unfold addToMemCache.
  destruct (Z.of_nat (length (lru hc)) >=? maxItems hc).
  - destruct (evictOldest_total hc now HWF) as [hc1 ->]. done.
  - done.
Qed.

Lemma addToMemCache_spec hc now k e hc' :
  WF hc → nilFree (Entry_Issues e) → memCache hc !! k = None →
  addToMemCache hc now k e = Some hc' →
  WF hc'
  ∧ resident hc' k = Some e
  ∧ maxItems hc' = maxItems hc
  ∧ (k ∈ dirtyKeys hc → k ∈ dirtyKeys hc')
  ∧ (∀ e', onDisk (diskCache hc) k e' → onDisk (diskCache hc') k e')
  ∧ (∀ k' e', k' ≠ k → kept hc k' e' → kept hc' k' e')
  ∧ (Z.of_nat (length (lru hc)) = maxItems hc → Z.of_nat (length (lru hc')) = maxItems hc')
  ∧ (Z.of_nat (length (lru hc)) < maxItems hc →
     ∀ k', is_Some (memCache hc !! k') → is_Some (memCache hc' !! k'))
  ∧ (∀ k', k' ≠ k → memCache hc !! k' = None → memCache hc' !! k' = None).
Proof.
  intros HWF Hnf Hk Hadd.
  destruct (addToMemCache_inv hc now k e hc' Hadd)
    as (hc1 & Hpre & Hlru & Hmc & Hel & Hnx & Hmx & Hdisk & Hdk).
  pose proof HWF as ((_ & _ & _ & _ & Hmax1 & Hlen) & _).
  assert (H1 : WF hc1 ∧ maxItems hc1 = maxItems hc
               ∧ (∀ k', memCache hc !! k' = None → memCache hc1 !! k' = None)
               ∧ Z.of_nat (length (lru hc1)) < maxItems hc1
               ∧ (k ∈ dirtyKeys hc → k ∈ dirtyKeys hc1)
               ∧ (∀ e', onDisk (diskCache hc) k e' → onDisk (diskCache hc1) k e')
               ∧ (∀ k' e', kept hc k' e' → kept hc1 k' e')
               ∧ (Z.of_nat (length (lru hc)) = maxItems hc →
                  Z.of_nat (S (length (lru hc1))) = maxItems hc)
               ∧ (Z.of_nat (length (lru hc)) < maxItems hc → hc1 = hc)).
  { destruct Hpre as [[Hfull Hev] | [Hroom ->]].
    - destruct (evictOldest_spec hc now hc1 HWF Hev)
        as (HWF1 & _ & _ & Hmx1 & Hlen1 & Hnone & Hdirty & Hon & Hkept).
      assert (Hne : lru hc ≠ []) by (intros E; rewrite E in Hfull; simpl in Hfull; lia).
      specialize (Hlen1 Hne).
      split; [done|]. split; [done|]. split; [done|]. split; [lia|].
      split; [by apply Hdirty|]. split; [intros e'; by apply Hon|]. split; [done|].
      split; [lia | lia].
    - repeat (split; [solve [done | lia]|]). done. }
  destruct H1 as (HWF1 & Hmx1 & Hnone1 & Hroom1 & Hdirty1 & Hon1 & Hkept1 & Hfull1 & Hsame1).
  pose proof (Hnone1 k Hk) as Hk1.
  destruct (push_spec hc1 now k e hc' HWF1 Hnf Hk1 Hroom1 Hlru Hmc Hel Hnx Hmx Hdisk)
    as (HWF' & Hres & Hothers).
  split; [done|]. split; [done|]. split; [congruence|].
  split; [rewrite Hdk; done|]. split; [rewrite Hdisk; done|].
  split; [|split; [|split]].
  - intros k' e' Hne Hkept. destruct (Hothers k' Hne) as [Hm Hr].
    apply (kept_transfer hc1); try done; rewrite ?Hdk, ?Hdisk; auto.
  - intros Hfull. rewrite Hlru, Hmx, Hmx1. simpl length. by apply Hfull1.
  - intros Hroom k' Hk'. rewrite (Hsame1 Hroom) in *.
    destruct (decide (k' = k)) as [->|Hne].
    + rewrite Hmc, lookup_insert_eq. done.
    + by rewrite (proj1 (Hothers k' Hne)).
  - intros k' Hne Hk'. rewrite (proj1 (Hothers k' Hne)). by apply Hnone1.
Qed.

Lemma WF_set_dirtyKeys hc d : WF hc → WF (set_dirtyKeys hc d).
Proof. done. Qed.

Lemma is_Some_memCache_resident hc k :
  WF hc → is_Some (memCache hc !! k) → is_Some (resident hc k).
Proof.
  intros [Hmem _] [id Hid]. destruct (memOK_key hc k id Hmem Hid) as (_ & it & Hit & _).
  unfold resident. rewrite Hid. simpl. rewrite Hit. done.
Qed.

Lemma Put_spec hc now k e :
  WF hc → nilFree (Entry_Issues e) →
  ∃ hc', Put hc now k e = Some hc'
    ∧ WF hc'
    ∧ maxItems hc' = maxItems hc
    ∧ resident hc' k = Some e
    ∧ k ∈ dirtyKeys hc'
    ∧ (∀ k' e', k' ≠ k → kept hc k' e' → kept hc' k' e')
    ∧ (Z.of_nat (length (lru hc)) = maxItems hc → Z.of_nat (length (lru hc')) = maxItems hc')
    ∧ (Z.of_nat (length (lru hc)) < maxItems hc →
       ∀ k', is_Some (memCache hc !! k') → is_Some (memCache hc' !! k')).
Proof.
  intros HWF Hnf. unfold Put.
  set (hc0 := set_dirtyKeys hc ({[k]} ∪ dirtyKeys hc)).
  assert (HWF0 : WF hc0) by done.
  assert (Hkept0 : ∀ k' e', kept hc k' e' → kept hc0 k' e').
  { intros k' e'. apply kept_transfer; try done. simpl. set_solver. }
  assert (Hd0 : k ∈ dirtyKeys hc0) by (simpl; set_solver).
  destruct (memCache hc0 !! k) as [id|] eqn:Hk.
  - destruct (memOK_key hc0 k id (proj1 HWF0) Hk) as (Hin & item & Hitem & Hkey).
    rewrite Hitem. simpl.
    eexists. split; [done|].
    edestruct (touch_spec hc0 k id item {| key := key item; entry := e; lastAccess := now |})
      as (HWF' & Hres & Hothers & Hmc & Hlen); try done.
    split; [done|]. split; [done|]. split; [done|]. split; [done|].
    split; [|split].
    + intros k' e' Hne Hkept.
      apply (kept_transfer hc0); [by apply Hothers | done | done | done | by apply Hkept0].
    + simpl in *. lia.
    + intros _ k' Hk'. exact Hk'.
  - destruct (addToMemCache_total hc0 now k e HWF0) as [hc' Hadd]. rewrite Hadd.
    exists hc'. split; [done|].
    destruct (addToMemCache_spec hc0 now k e hc' HWF0 Hnf Hk Hadd)
      as (HWF' & Hres & Hmx & Hdirty & _ & Hkept & Hfull & Hroom & _).
    split; [done|]. split; [done|]. split; [done|]. split; [by apply Hdirty|].
    split; [|split; [done|done]].
    intros k' e' Hne Hk'. apply Hkept; [done|]. by apply Hkept0.
Qed.

Lemma findRecord_nilFree fc k r :
  diskNilFree fc → GetFileRecord fc k = Some r → nilFree (Issues r).
Proof.
  intros Hnf Hr. apply findRecord_Some in Hr as [_ Hin].
  unfold diskNilFree in Hnf. rewrite Forall_forall in Hnf. by apply Hnf.
Qed.

Lemma Get_spec hc now k :
  WF hc →
  ∃ hc' r, Get hc now k = Some (hc', r)
    ∧ WF hc'
    ∧ maxItems hc' = maxItems hc
    ∧ resident hc' k = r
    ∧ (∀ e, resident hc k = Some e → r = Some e)
    ∧ (∀ k' e', kept hc k' e' → kept hc' k' e')
    ∧ (Z.of_nat (length (lru hc)) = maxItems hc → Z.of_nat (length (lru hc')) = maxItems hc')
    ∧ (Z.of_nat (length (lru hc)) < maxItems hc →
       ∀ k', is_Some (memCache hc !! k') → is_Some (memCache hc' !! k')).
Proof.
  intros HWF. unfold Get.
  destruct (memCache hc !! k) as [id|] eqn:Hk.
  - destruct (memOK_key hc k id (proj1 HWF) Hk) as (Hin & item & Hitem & Hkey).
    rewrite Hitem. simpl. eexists _, _. split; [done|].
    edestruct (touch_spec hc k id item
                 {| key := key item; entry := entry item; lastAccess := now |})
      as (HWF' & Hres & Hothers & Hmc & Hlen); try done.
    { destruct HWF as (_ & _ & _ & Hmnf). exact (Hmnf id item Hitem). }
    simpl in Hres.
    assert (Hresk : resident hc k = Some (entry item)).
    { unfold resident. rewrite Hk. simpl. by rewrite Hitem. }
    split; [done|]. split; [done|]. split; [done|].
    split; [intros e He; congruence|].
    split; [|split].
    + intros k' e' Hkept. apply (kept_transfer hc); [|done|done|done|done].
      destruct (decide (k' = k)) as [->|Hne]; [congruence | by apply Hothers].
    + simpl in *. lia.
    + intros _ k' Hk'. exact Hk'.
  - assert (Hnores : resident hc k = None) by (unfold resident; by rewrite Hk).
    destruct (GetFileRecord (diskCache hc) k) as [record|] eqn:Hrec.
    + set (e := {| Entry_Hash := Hash record; Entry_Issues := Issues record |}).
      destruct (addToMemCache_total hc now k e HWF) as [hc' Hadd]. rewrite Hadd. simpl.
      exists hc', (Some e). split; [done|].
      assert (Hnf : nilFree (Entry_Issues e)).
      { destruct HWF as (_ & _ & Hdnf & _).
        exact (findRecord_nilFree (diskCache hc) k record Hdnf Hrec). }
      destruct (addToMemCache_spec hc now k e hc' HWF Hnf Hk Hadd)
        as (HWF' & Hres & Hmx & Hdirty & Hon & Hkept & Hfull & Hroom & _).
      split; [done|]. split; [done|]. split; [done|].
      split; [intros e0 He0; congruence|].
      split; [|split; [done|done]].
      intros k' e' Hk'. destruct (decide (k' = k)) as [->|Hne]; [|by apply Hkept].
      destruct Hk' as [[Hr _] | [_ Hd]]; [congruence|].
      left. assert (e' = e) as ->.
      { destruct Hd as [(r & Hr & Hh & Hi) _]. unfold GetFileRecord in Hrec.
        assert (r = record) as -> by congruence.
        destruct e'. simpl in *. unfold e. by rewrite Hh, Hi. }
      split; [done|]. right. by apply Hon.
    + exists hc, None. split; [done|]. split; [done|]. split; [done|].
      split; [done|]. split; [intros e He; congruence|]. done.
Qed.

(** ** Runs of [Get] and [Put] *)

Lemma resident_memCache hc k e : resident hc k = Some e → is_Some (memCache hc !! k).
Proof. intros (id & _ & -> & _)%resident_Some. done. Qed.

Lemma step_spec hc o :
  WF hc → opNilFree o →
  ∃ hc', step hc o = Some hc'
    ∧ WF hc'
    ∧ maxItems hc' = maxItems hc
    ∧ (Z.of_nat (length (lru hc)) = maxItems hc → Z.of_nat (length (lru hc')) = maxItems hc')
    ∧ (Z.of_nat (length (lru hc)) < maxItems hc →
       ∀ k, is_Some (memCache hc !! k) → is_Some (memCache hc' !! k))
    ∧ (∀ k e, lastPut k [o] = Some e → kept hc' k e ∧ is_Some (memCache hc' !! k))
    ∧ (∀ k e, lastPut k [o] = None → kept hc k e → kept hc' k e).
Proof.
  intros HWF Ho. destruct o as [now k | now k e]; simpl.
  - destruct (Get_spec hc now k HWF)
      as (hc' & r & HG & HWF' & Hmx & _ & _ & Hkept & Hfull & Hroom).
    rewrite HG. exists hc'. simpl. repeat (split; [done|]).
    intros k' e' _. apply Hkept.
  - destruct (Put_spec hc now k e HWF Ho)
      as (hc' & HP & HWF' & Hmx & Hres & Hd & Hkept & Hfull & Hroom).
    exists hc'. repeat (split; [done|]). split.
    + intros k' e'. destruct (String.eqb_spec k k') as [<-|Hne]; [|done].
      intros [= <-]. split; [|by apply (resident_memCache _ _ e)].
      left. split; [done | by left].
    + intros k' e'. destruct (String.eqb_spec k k') as [<-|Hne]; [done|].
      intros _. by apply Hkept.
Qed.

Lemma run_spec ops hc :
  WF hc → Forall opNilFree ops →
  ∃ hc', run ops hc = Some hc'
    ∧ WF hc'
    ∧ maxItems hc' = maxItems hc
    ∧ (Z.of_nat (length (lru hc)) = maxItems hc → Z.of_nat (length (lru hc')) = maxItems hc')
    ∧ (Z.of_nat (length (lru hc')) = maxItems hc'
       ∨ ∀ k, k ∈ putKeys ops ∨ is_Some (memCache hc !! k) → is_Some (memCache hc' !! k))
    ∧ (∀ k e, lastPut k ops = Some e → kept hc' k e)
    ∧ (∀ k e, lastPut k ops = None → kept hc k e → kept hc' k e).
Proof.
  intros HWF Hops. revert hc HWF.
  induction Hops as [|o ops Ho Hops IH]; intros hc HWF.
  - exists hc. simpl. repeat (split; [done|]). split; [|done].
    right. intros k [Hk|Hk]; [by apply elem_of_nil in Hk | done].
  - destruct (step_spec hc o HWF Ho)
      as (hc1 & Hstep & HWF1 & Hmx1 & Hfull1 & Hroom1 & Hput1 & Hkept1).
    destruct (IH hc1 HWF1) as (hc' & Hrun & HWF' & Hmx & Hfull & Hkeys & Hput & Hkept).
    exists hc'. simpl. rewrite Hstep. simpl.
    split; [done|]. split; [done|]. split; [congruence|]. split; [auto|].
    split; [|split].
    + destruct Hkeys as [Hf | Hkeys]; [by left|].
      pose proof HWF as ((_ & _ & _ & _ & _ & Hlen) & _).
      destruct (decide (Z.of_nat (length (lru hc)) = maxItems hc)) as [Hf | Hnf];
        [left; auto|].
      right. intros k Hk. apply Hkeys.
      assert (Hroom : Z.of_nat (length (lru hc)) < maxItems hc) by lia.
      destruct Hk as [Hk | Hk]; [|right; by apply Hroom1].
      simpl in Hk. apply elem_of_app in Hk as [Hk | Hk]; [|by left].
      right. destruct o as [? ? | now k0 e0]; [by apply elem_of_nil in Hk|].
      apply list_elem_of_singleton in Hk as ->.
      apply (Hput1 k0 e0). simpl. by rewrite String.eqb_refl.
    + intros k e. simpl. destruct (lastPut k ops) as [e1|] eqn:Hl.
      * intros [= <-]. by apply Hput.
      * intros Ho1. apply Hkept; [done|]. apply Hput1. simpl. exact Ho1.
    + intros k e. simpl. destruct (lastPut k ops) as [e1|] eqn:Hl; [done|].
      intros Ho1 Hk. apply Hkept; [done|]. apply Hkept1; [|done]. simpl. exact Ho1.
Qed.

Lemma keys_le_length hc (ks : list string) :
  memOK hc → NoDup ks → (∀ k, k ∈ ks → is_Some (memCache hc !! k)) →
  (length ks ≤ length (lru hc))%nat.
Proof.
  intros (Hnd & _ & _ & Hbij & _) Hks Hall. unfold bijection in Hbij.
  set (f := λ k, default O (memCache hc !! k)).
  rewrite <- (length_fmap f ks). apply submseteq_length, NoDup_submseteq.
  - apply NoDup_fmap_2_strong; [|done]. intros k1 k2 H1 H2. unfold f.
    destruct (Hall k1 H1) as [i1 E1], (Hall k2 H2) as [i2 E2]. rewrite E1, E2. simpl.
    intros ->. apply Hbij in E1 as [_ E1]. apply Hbij in E2 as [_ E2]. congruence.
  - intros i (k & -> & Hk)%list_elem_of_fmap. unfold f.
    destruct (Hall k Hk) as [j E]. rewrite E. simpl. by apply Hbij in E as [? _].
Qed.

(** ** Construction *)

Lemma preloadLoop_WF records count maxPreload hc now :
  WF hc → NoDup (map Path records) →
  Forall (fun r => nilFree (Issues r)) records →
  (∀ r, r ∈ records → memCache hc !! Path r = None) →
  ∃ hc', preloadLoop records count maxPreload hc now = Some hc'
    ∧ WF hc' ∧ maxItems hc' = maxItems hc.
Proof.
  revert count hc. induction records as [|r records IH]; intros count hc HWF Hnd Hnf Hnone.
  - by exists hc.
  - simpl. destruct (count >=? maxPreload); [by exists hc|].
    apply NoDup_cons in Hnd as [Hr Hnd]. apply Forall_cons in Hnf as [Hrnf Hnf].
    assert (Hrest : ∀ r', r' ∈ records → memCache hc !! Path r' = None).
    { intros r' Hr'. apply Hnone. by right. }
    destruct (now - LastAnalyzed r <? 24 * hour); [|by apply IH].
    set (e := {| Entry_Hash := Hash r; Entry_Issues := Issues r |}).
    destruct (addToMemCache_total hc now (Path r) e HWF) as [hc1 Hadd]. rewrite Hadd. simpl.
    destruct (addToMemCache_spec hc now (Path r) e hc1 HWF Hrnf (Hnone r ltac:(left)) Hadd)
      as (HWF1 & _ & Hmx1 & _ & _ & _ & _ & _ & Hnone1).
    destruct (IH (int_add count 1) hc1 HWF1 Hnd Hnf) as (hc' & Hrun & HWF' & Hmx).
    { intros r' Hr'. apply Hnone1; [|by apply Hrest].
      intros E. apply Hr. rewrite <- E. apply list_elem_of_fmap. eauto. }
    exists hc'. split; [done|]. split; [done | congruence].
Qed.

Lemma NewHybridCache_WF disk maxItems0 now :
  diskUnique disk → diskNilFree disk →
  ∃ hc, NewHybridCache disk maxItems0 now = Some hc
    ∧ WF hc
    ∧ maxItems hc = (if maxItems0 <=? 0 then defaultMaxMemoryItems else maxItems0).
Proof.
  intros Hdu Hdnf. unfold NewHybridCache, preloadHotData.
  match goal with |- context [preloadLoop ?rs ?c ?m ?h ?n] =>
    destruct (preloadLoop_WF rs c m h n) as (hc & Hrun & HWF & Hmx) end; try done.
  - split; [|done]. split; [constructor|]. split; [intros i [x Hx]; done|].
    split; [intros i Hi; by apply elem_of_nil in Hi|]. split.
    + intros k i. simpl. rewrite lookup_empty. split; [done|].
      intros [Hi _]. by apply elem_of_nil in Hi.
    + simpl. unfold defaultMaxMemoryItems. destruct (Z.leb_spec maxItems0 0); lia.
  - by exists hc.
Qed.

(** ** The LRU tier: eviction and bounds *)

(** The run of the witness does evict [a.go], and the record is there. *)
Example eviction_run :
  (hc0 ← NewHybridCache (diskWith []) 1 0;
   hc ← run [OpPut 1 "a.go" entryA; OpPut 2 "b.go" entryB] hc0;
   Some (memCache hc !! "a.go", lru hc, GetFileRecord (diskCache hc) "a.go"))
  = Some (None, [1%nat], Some (rawRecord 2 "a.go" entryA)).
Proof. vm_compute. reflexivity. Qed.

(** C5.  In a hybrid cache built over a well-formed disk store, after any
    run of [Get] and [Put]: the LRU list is no longer than the capacity;
    every map entry points to an element of the list that holds its key,
    every element of the list holds a key that the map sends back to it,
    and no element is listed twice; and once the run has put at least
    capacity-many distinct keys the list is exactly full. *)
Theorem LRU_bound_and_bijection disk maxItems0 now ops (ks : list string) :
  diskUnique disk → diskNilFree disk → Forall opNilFree ops →
  NoDup ks → (∀ k, k ∈ ks → k ∈ putKeys ops) →
  ∃ hc0 hc,
    NewHybridCache disk maxItems0 now = Some hc0
    ∧ run ops hc0 = Some hc
    ∧ maxItems hc = (if maxItems0 <=? 0 then defaultMaxMemoryItems else maxItems0)
    ∧ Z.of_nat (length (lru hc)) ≤ maxItems hc
    ∧ (∀ k id, memCache hc !! k = Some id →
               id ∈ lru hc ∧ ∃ item, elements hc !! id = Some item ∧ key item = k)
    ∧ (∀ id, id ∈ lru hc →
             ∃ item, elements hc !! id = Some item ∧ memCache hc !! key item = Some id)
    ∧ NoDup (lru hc)
    ∧ (maxItems hc ≤ Z.of_nat (length ks) → Z.of_nat (length (lru hc)) = maxItems hc).
Proof.
  intros Hdu Hdnf Hops Hks Hsub.
  destruct (NewHybridCache_WF disk maxItems0 now Hdu Hdnf) as (hc0 & Hnew & HWF0 & Hmx0).
  destruct (run_spec ops hc0 HWF0 Hops) as (hc & Hrun & HWF & Hmx & _ & Hkeys & _ & _).
  exists hc0, hc. split; [done|]. split; [done|]. split; [congruence|].
  pose proof HWF as (Hmem & _).
  pose proof Hmem as (Hnd & _ & Halloc & Hbij & _ & Hlen). unfold bijection in Hbij.
  split; [done|]. split; [intros k id; by apply memOK_key|]. split; [|split; [done|]].
  - intros id Hin. destruct (Halloc id Hin) as [item Hitem]. exists item.
    split; [done|]. apply Hbij. split; [done|]. unfold keyOf. by rewrite Hitem.
  - intros Hmany. destruct Hkeys as [Hfull | Hall]; [done|].
    assert (length ks ≤ length (lru hc))%nat; [|lia].
    apply keys_le_length; [done | done |]. intros k Hk. apply Hall. left. by apply Hsub.
Qed.

Lemma LRU_bound_and_bijection_witness :
  ∃ hc0 hc,
    NewHybridCache (diskWith []) 1 0 = Some hc0
    ∧ run [OpPut 1 "a.go" entryA; OpGet 2 "a.go"; OpPut 3 "b.go" entryB] hc0 = Some hc
    ∧ maxItems hc = 1
    ∧ Z.of_nat (length (lru hc)) ≤ maxItems hc
    ∧ (∀ k id, memCache hc !! k = Some id →
               id ∈ lru hc ∧ ∃ item, elements hc !! id = Some item ∧ key item = k)
    ∧ (∀ id, id ∈ lru hc →
             ∃ item, elements hc !! id = Some item ∧ memCache hc !! key item = Some id)
    ∧ NoDup (lru hc)
    ∧ (maxItems hc ≤ Z.of_nat (length ["a.go"; "b.go"]%string) →
       Z.of_nat (length (lru hc)) = maxItems hc).
Proof.
  apply (LRU_bound_and_bijection (diskWith []) 1 0
           [OpPut 1 "a.go" entryA; OpGet 2 "a.go"; OpPut 3 "b.go" entryB]
           ["a.go"; "b.go"]%string).
  - constructor.
  - constructor.
  - repeat constructor; eexists; reflexivity.
  - apply NoDup_cons. split; [|apply NoDup_singleton].
    intros H. apply list_elem_of_singleton in H. discriminate.
  - intros k Hk. exact Hk.
Defined.

(** ** The disk store: what an overwrite keeps *)

(** [SaveFileRecord] carries the ignored list of the record it replaces
    over to the new record. *)
Lemma SaveFileRecord_keeps_ignored fc now p h issues old fc' err :
  diskUnique fc → GetFileRecord fc p = Some old →
  SaveFileRecord fc now p (Some h) issues = Some (fc', err) →
  ∃ r, GetFileRecord fc' p = Some r ∧ Ignored r = Ignored old ∧ Hash r = h.
Proof.
  unfold SaveFileRecord, GetFileRecord. intros Hdu Hold H. rewrite Hold in H.
  apply bind_Some in H as (fc1 & H1 & [= H2]).
  apply updateStats_inv in H1 as (HF & _). simpl in HF.
  apply saveUnsafe_inv in H2 as (HF2 & _).
  rewrite HF2, HF, findRecord_app.
  destruct (removeFirst_NoDup p _ Hdu) as [_ Hp]. apply findRecord_None in Hp.
  rewrite Hp. simpl. rewrite String.eqb_refl. eauto.
Qed.

(** [SaveRawRecord] stores the new record with an empty ignored list,
    whatever the replaced record carried. *)
Lemma SaveRawRecord_resets_ignored fc now k e fc' err :
  diskUnique fc → SaveRawRecord fc now k e = Some (fc', err) →
  GetFileRecord fc' k = Some (rawRecord now k e).
Proof.
  intros Hdu H. apply SaveRawRecord_inv in H as (HF & _).
  unfold GetFileRecord. rewrite HF, findRecord_app.
  destruct (removeFirst_NoDup k _ Hdu) as [_ Hk]. apply findRecord_None in Hk.
  rewrite Hk. simpl. by rewrite String.eqb_refl.
Qed.

(** C3 (the code departs from the claim).  The record of [a.go] carries
    the ignored list [issue-1].  Overwriting it through [SaveRawRecord],
    directly or by a [Put] of the hybrid cache followed by the eviction
    of the entry, leaves a record whose ignored list is empty;
    [SaveFileRecord] on the same store keeps the list. *)
Theorem raw_overwrite_loses_ignored_list :
  (Ignored <$> GetFileRecord diskIgnored "a.go") = Some (Some ["issue-1"%string])
  ∧ ('(fc, _) ← SaveRawRecord diskIgnored 5 "a.go" entryA;
     Ignored <$> GetFileRecord fc "a.go") = Some (Some [])
  ∧ (hc0 ← NewHybridCache diskIgnored 1 (100 * hour);
     hc ← run [OpPut (100 * hour) "a.go" entryA; OpPut (100 * hour) "b.go" entryB] hc0;
     Ignored <$> GetFileRecord (diskCache hc) "a.go") = Some (Some [])
  ∧ ('(fc, _) ← SaveFileRecord diskIgnored 5 "a.go" (Some "h1"%string) [];
     Ignored <$> GetFileRecord fc "a.go") = Some (Some ["issue-1"%string]).
Proof. vm_compute. done. Qed.

(** ** The disk store: what [GetFileRecord] shares *)

(** Assigning a field of the returned copy leaves the stored records as
    they were. *)
Lemma copy_field_write_is_private st files p st1 r h st2 :
  (∀ q, q ∈ files → (q < Shared.nextLoc st)%nat) →
  Shared.GetFileRecord st files p = (st1, Some r) →
  Shared.mutate st1 r (Shared.SetHash h) = Some st2 →
  Shared.stored st2 files = Shared.stored st files.
Proof.
  intros Hfresh HG HM. unfold Shared.GetFileRecord in HG.
  destruct (Shared.findRecordP st p files) as [record|]; [|done].
  injection HG as <- <-.
  unfold Shared.mutate in HM. simpl in HM. rewrite lookup_insert_eq in HM. simpl in HM.
  injection HM as <-.
  unfold Shared.stored. apply map_ext_in. intros q Hq%list_elem_of_In.
  apply Hfresh in Hq.
  unfold Shared.readRecord, Shared.set_recordObj. simpl.
  rewrite !lookup_insert_ne by lia. done.
Qed.

(** C6 (the code departs from the claim).  The record [GetFileRecord]
    returns shares its issue objects with the stored record: writing the
    message of its first issue rewrites the issue the cache holds. *)
Theorem GetFileRecord_shares_issues :
  ∃ st1 r st2,
    Shared.GetFileRecord sharedStore sharedFiles "a.go" = (st1, Some r)
    ∧ (r ∉ sharedFiles)
    ∧ Shared.mutate st1 r (Shared.SetIssueMessage 0 "tampered") = Some st2
    ∧ Shared.stored st1 sharedFiles
      = [Some {| Path := "a.go"; Hash := "h0"; LastAnalyzed := 0;
                 Issues := Some [Some (issueAt 0 3 "nested loop")]; Ignored := None |}]
    ∧ Shared.stored st2 sharedFiles
      = [Some {| Path := "a.go"; Hash := "h0"; LastAnalyzed := 0;
                 Issues := Some [Some (issueAt 0 3 "tampered")]; Ignored := None |}].
Proof.
  eexists _, _, _. split; [vm_compute; reflexivity|].
  split; [intros H; apply list_elem_of_singleton in H; discriminate|].
  split; [vm_compute; reflexivity|].
  split; vm_compute; reflexivity.
Qed.

(** ** The orchestrator on an absent tree *)

(** C7.  With a nil file [Analyze] returns the empty, non-nil slice; it
    does not panic, invokes no rule and leaves the caches untouched. *)
Theorem Analyze_nil_file analyzerImpl g now filename fset enabledAnalyzers :
  Analyze analyzerImpl g now filename None fset enabledAnalyzers = Some (g, Some [], []).
Proof. reflexivity. Qed.

(** ** The fingerprint *)

Lemma fold_visit positions h n :
  fold_left visit positions (h, n)
  = (fold_left fnv_step (flat_map positionBytes positions) h,
     fold_left (fun n _ => int_add n 1) positions n).
Proof.
  revert h n. induction positions as [|p ps IH]; intros h n; [done|].
  cbn [fold_left flat_map]. unfold visit at 2, positionBytes at 1.
  destruct (p =? NoPos).
  - rewrite IH. done.
  - rewrite IH, fold_left_app. done.
Qed.

Lemma fileSum64_bytes file :
  fileSum64 file = fold_left fnv_step (hashedBytes file) fnv_offset64.
Proof.
  unfold fileSum64, hashedBytes, countNodes. rewrite fold_visit, fold_left_app. done.
Qed.

Lemma fnv_step_range h c : 0 ≤ fnv_step h c < 2 ^ 64.
Proof. unfold fnv_step. apply Z.mod_pos_bound. lia. Qed.

Lemma fnv_fold_range bytes h :
  0 ≤ h < 2 ^ 64 → 0 ≤ fold_left fnv_step bytes h < 2 ^ 64.
Proof.
  revert h. induction bytes as [|c bs IH]; intros h Hh; [done|].
  simpl. apply IH, fnv_step_range.
Qed.

Lemma mul_prime_inj x1 x2 :
  0 ≤ x1 < 2 ^ 64 → 0 ≤ x2 < 2 ^ 64 →
  (x1 * fnv_prime64) mod 2 ^ 64 = (x2 * fnv_prime64) mod 2 ^ 64 → x1 = x2.
Proof.
  intros H1 H2 E.
  assert (Hinv : ∀ x, 0 ≤ x < 2 ^ 64 →
            ((x * fnv_prime64) mod 2 ^ 64 * fnv_prime64_inverse) mod 2 ^ 64 = x).
  { intros x Hx. rewrite Z.mul_mod_idemp_l by lia.
    rewrite <- Z.mul_assoc, <- Z.mul_mod_idemp_r by lia.
    change ((fnv_prime64 * fnv_prime64_inverse) mod 2 ^ 64) with 1.
    rewrite Z.mul_1_r. apply Z.mod_small. lia. }
  rewrite <- (Hinv x1 H1), <- (Hinv x2 H2), E. done.
Qed.

Lemma lxor_byte_range h c :
  0 ≤ h < 2 ^ 64 → 0 ≤ Z.lxor h (Z.of_N (N_of_ascii c)) < 2 ^ 64.
Proof.
  intros Hh. set (b := Z.of_N (N_of_ascii c)).
  assert (Hb : 0 ≤ b < 2 ^ 8).
  { unfold b. pose proof (N_ascii_bounded c). lia. }
  assert (Hnn : 0 ≤ Z.lxor h b) by (apply Z.lxor_nonneg; lia).
  split; [done|].
  destruct (Z.eq_dec (Z.lxor h b) 0) as [->|Hne]; [lia|].
  apply Z.log2_lt_pow2; [lia|].
  pose proof (Z.log2_lxor h b ltac:(lia) ltac:(lia)) as Hlog.
  assert (Z.log2 h < 64).
  { destruct (Z.eq_dec h 0) as [->|]; [done|]. apply Z.log2_lt_pow2; lia. }
  assert (Z.log2 b < 64).
  { destruct (Z.eq_dec b 0) as [->|]; [done|].
    assert (Z.log2 b < 8) by (apply Z.log2_lt_pow2; lia). lia. }
  lia.
Qed.

Lemma lxor_inj_l a b c : Z.lxor a c = Z.lxor b c → a = b.
Proof.
  intros E. apply Z.lxor_eq.
  replace (Z.lxor a b) with (Z.lxor (Z.lxor a c) (Z.lxor b c)).
  - rewrite E. apply Z.lxor_nilpotent.
  - rewrite Z.lxor_assoc, (Z.lxor_comm b c), <- (Z.lxor_assoc c c b).
    by rewrite Z.lxor_nilpotent, Z.lxor_0_l.
Qed.

Lemma lxor_inj_r a b c : Z.lxor c a = Z.lxor c b → a = b.
Proof. rewrite !(Z.lxor_comm c). apply lxor_inj_l. Qed.

(** One step of FNV-1a is injective in the state and in the byte. *)
Lemma fnv_step_inj_state h1 h2 c :
  0 ≤ h1 < 2 ^ 64 → 0 ≤ h2 < 2 ^ 64 → fnv_step h1 c = fnv_step h2 c → h1 = h2.
Proof.
  intros H1 H2 E. unfold fnv_step in E.
  apply mul_prime_inj in E; [|by apply lxor_byte_range..].
  by apply lxor_inj_l in E.
Qed.

Lemma fnv_step_inj_byte h c1 c2 :
  0 ≤ h < 2 ^ 64 → fnv_step h c1 = fnv_step h c2 → c1 = c2.
Proof.
  intros Hh E. unfold fnv_step in E.
  apply mul_prime_inj in E; [|by apply lxor_byte_range..].
  apply lxor_inj_r in E. apply N2Z.inj in E.
  rewrite <- (ascii_N_embedding c1), <- (ascii_N_embedding c2). by rewrite E.
Qed.

Lemma fnv_fold_inj bytes h1 h2 :
  0 ≤ h1 < 2 ^ 64 → 0 ≤ h2 < 2 ^ 64 →
  fold_left fnv_step bytes h1 = fold_left fnv_step bytes h2 → h1 = h2.
Proof.
  revert h1 h2. induction bytes as [|c bs IH]; intros h1 h2 H1 H2; [done|].
  simpl. intros E. apply IH in E; [|apply fnv_step_range..].
  by apply fnv_step_inj_state in E.
Qed.

Lemma undigit36_digit36 d : 0 ≤ d < 36 → undigit36 (digit36 d) = d.
Proof.
  intros Hd.
  assert (∃ n, (n < 36)%nat ∧ d = Z.of_nat n) as (n & Hn & ->)
    by (exists (Z.to_nat d); lia).
  clear Hd. do 36 (destruct n as [|n]; [reflexivity|]). lia.
Qed.

Lemma parse36_format36 fuel u acc :
  0 ≤ u < 36 ^ Z.of_nat fuel →
  fold_left parse36_step (list_ascii_of_string (format36 fuel u acc)) 0
  = fold_left parse36_step (list_ascii_of_string acc) u.
Proof.
  revert u acc. induction fuel as [|fuel IH]; intros u acc Hu.
  - simpl in *. by replace u with 0 by lia.
  - cbn [format36].
    assert (Hd : 0 ≤ u mod 36 < 36) by (apply Z.mod_pos_bound; lia).
    pose proof (Z.div_mod u 36 ltac:(lia)) as Hdm.
    destruct (Z.eqb_spec (u / 36) 0) as [Hz|Hnz].
    + cbn [list_ascii_of_string fold_left]. unfold parse36_step at 2.
      rewrite undigit36_digit36 by done. f_equal. lia.
    + rewrite IH.
      * cbn [list_ascii_of_string fold_left]. unfold parse36_step at 2.
        rewrite undigit36_digit36 by done. f_equal. lia.
      * rewrite Nat2Z.inj_succ, Z.pow_succ_r in Hu by lia.
        split; [apply Z.div_pos; lia|]. apply Z.div_lt_upper_bound; lia.
Qed.

Lemma FormatUint36_inj u1 u2 :
  0 ≤ u1 < 2 ^ 64 → 0 ≤ u2 < 2 ^ 64 → FormatUint36 u1 = FormatUint36 u2 → u1 = u2.
Proof.
  intros H1 H2 E.
  assert (Hp : ∀ u, 0 ≤ u < 2 ^ 64 → parse36 (FormatUint36 u) = u).
  { intros u Hu. unfold parse36, FormatUint36. rewrite parse36_format36; [done|].
    split; [lia|]. eapply Z.lt_trans; [apply Hu|]. done. }
  rewrite <- (Hp u1 H1), <- (Hp u2 H2), E. done.
Qed.

(** Changing one byte of what is hashed changes the fingerprint. *)
Lemma one_byte_changes_fingerprint T T' before c c' after :
  hashedBytes T = before ++ c :: after →
  hashedBytes T' = before ++ c' :: after →
  c' ≠ c →
  computeFileHash T' ≠ computeFileHash T.
Proof.
  intros HT HT' Hc E. unfold computeFileHash in E.
  assert (Hoff : 0 ≤ fnv_offset64 < 2 ^ 64) by done.
  apply FormatUint36_inj in E;
    [|rewrite fileSum64_bytes; by apply fnv_fold_range..].
  rewrite !fileSum64_bytes, HT, HT', !fold_left_app in E. cbn [fold_left] in E.
  apply fnv_fold_inj in E; [|apply fnv_step_range..].
  apply fnv_step_inj_byte in E; [done|]. by apply fnv_fold_range.
Qed.

(** Moving the name of [treeWide] from position 123 to 124. *)
Example treeOther_fingerprint : computeFileHash treeOther ≠ computeFileHash treeWide.
Proof.
  apply (one_byte_changes_fingerprint treeWide treeOther
           ["1"; "1"; "2"]%char "3"%char "4"%char ["2"%char]); [done | done | discriminate].
Qed.

(** ** The orchestrator and its caches *)

Lemma filter_all_Some (l : list (option Issue)) :
  Forall is_Some l →
  List.filter (fun p => match p with Some _ => true | None => false end) l = l.
Proof.
  induction 1 as [|p l [i ->] Hl IH]; simpl; [done|]. by rewrite IH.
Qed.

Lemma cloneIssues_clone l : Forall is_Some l → cloneIssues (Some l) = Some l.
Proof.
  intros H. unfold cloneIssues. change (slice_elems (Some l)) with l.
  destruct l as [|p l]; [done|]. cbv iota. by rewrite filter_all_Some.
Qed.

Lemma cloneIssues_nilFree s : ∃ l, cloneIssues s = Some l ∧ Forall is_Some l.
Proof.
  unfold cloneIssues. destruct (slice_elems s) as [|p l]; [by exists []|].
  eexists. split; [done|]. apply Forall_forall. intros x Hx%list_elem_of_In.
  apply filter_In in Hx as [_ Hx]. by destruct x.
Qed.

Lemma cloneIssues_idem s : cloneIssues (cloneIssues s) = cloneIssues s.
Proof. destruct (cloneIssues_nilFree s) as (l & -> & Hl). by apply cloneIssues_clone. Qed.

Lemma nilFree_cloneIssues s : nilFree (cloneIssues s).
Proof. destruct (cloneIssues_nilFree s) as (l & -> & Hl). done. Qed.

Lemma checkCache_hybrid g hc now filename file :
  globalHybridCache g = Some hc → WF hc →
  ∃ hc' got,
    checkCache g now filename file
    = Some ({| globalHybridCache := Some hc'; globalCache := globalCache g |},
            match got with
            | Some e => if String.eqb (Entry_Hash e) (computeFileHash file)
                        then Some (cloneIssues (Entry_Issues e)) else None
            | None => None
            end)
    ∧ WF hc' ∧ resident hc' filename = got
    ∧ (∀ e, resident hc filename = Some e → got = Some e).
Proof.
  intros Hg HWF. unfold checkCache. rewrite Hg.
  destruct (Get_spec hc now filename HWF) as (hc' & got & HG & HWF' & _ & Hres & Hhit & _).
  rewrite HG. simpl. exists hc', got. split; [|done].
  destruct got as [e|]; [|done]. by destruct (String.eqb _ _).
Qed.

Lemma checkCache_legacy g now filename file :
  globalHybridCache g = None →
  checkCache g now filename file
  = Some (g, match results (globalCache g) !! filename with
             | Some e =>
                 if String.eqb (CacheEntry_Hash e) (computeFileHash file)
                    && (now - Timestamp e <? maxAge (globalCache g))
                 then Some (CacheEntry_Issues e) else None
             | None => None
             end).
Proof.
  intros Hg. unfold checkCache. rewrite Hg.
  destruct (results (globalCache g) !! filename) as [e|]; [|done].
  by destruct (_ && _).
Qed.

Lemma updateCache_legacyOK c now filename hash issues :
  legacyOK c →
  let c' := cleanCache
              {| results := <[filename := {| CacheEntry_Hash := hash;
                                            CacheEntry_Issues := cloneIssues issues;
                                            Timestamp := now |}]> (results c);
                 maxAge := maxAge c |} now in
  legacyOK c'
  ∧ results c' !! filename
    = Some {| CacheEntry_Hash := hash; CacheEntry_Issues := cloneIssues issues;
              Timestamp := now |}.
Proof.
  intros [Hage Hclones]. simpl. split; [split; [done|]|].
  - intros fn e. unfold cleanCache. simpl. rewrite map_lookup_filter_Some.
    intros [He _]. destruct (decide (filename = fn)) as [->|Hne].
    + rewrite lookup_insert_eq in He. injection He as <-. simpl.
      apply cloneIssues_nilFree.
    + rewrite lookup_insert_ne in He by done. by apply (Hclones fn).
  - unfold cleanCache. simpl. apply map_lookup_filter_Some. split.
    + apply lookup_insert_eq.
    + simpl. rewrite Hage. unfold minute. lia.
Qed.

Lemma updateCache_spec g now filename file issues :
  WFg g →
  ∃ g', updateCache g now filename file issues = Some g'
    ∧ WFg g' ∧ sameMode g g'
    ∧ cachedFor g' filename = Some (computeFileHash file, cloneIssues issues)
    ∧ (∀ e, results (globalCache g') !! filename = Some e → Timestamp e = now).
Proof.
  intros [Hh Hl]. unfold updateCache.
  destruct (updateCache_legacyOK (globalCache g) now filename (computeFileHash file)
              issues Hl) as [Hl' Hnew].
  destruct (globalHybridCache g) as [hc|] eqn:Hg.
  - destruct (Put_spec hc now filename
                {| Entry_Hash := computeFileHash file; Entry_Issues := cloneIssues issues |}
                Hh (nilFree_cloneIssues issues))
      as (hc' & HP & HWF' & _ & Hres & _).
    rewrite HP. simpl. eexists. split; [done|]. split; [done|].
    split; [unfold sameMode; simpl; by rewrite Hg|]. split.
    + unfold cachedFor. simpl. by rewrite Hres.
    + intros e He.
      assert (E : Some e = Some _) by (etrans; [symmetry; exact He | exact Hnew]).
      by injection E as ->.
  - simpl. eexists. split; [done|]. split; [done|].
    split; [unfold sameMode; simpl; by rewrite Hg|]. split.
    + unfold cachedFor.
      change (results _ !! filename ≫= _) with
        (results (cleanCache
           {| results := <[filename := {| CacheEntry_Hash := computeFileHash file;
                                         CacheEntry_Issues := cloneIssues issues;
                                         Timestamp := now |}]> (results (globalCache g));
              maxAge := maxAge (globalCache g) |} now) !! filename
         ≫= λ e, Some (CacheEntry_Hash e, CacheEntry_Issues e)).
      by rewrite Hnew.
    + intros e He.
      assert (E : Some e = Some _) by (etrans; [symmetry; exact He | exact Hnew]).
      by injection E as ->.
Qed.

Section OrchestratorLaws.
Local Opaque runAnalyzers computeFileHash.
Variable analyzerImpl : string → ast_File → option FileSet → slice (option Issue).

(** A first call returns, keeps the state well formed, and leaves an
    entry for the file under its fingerprint whose clone is the clone of
    what the call returned. *)
Lemma Analyze_first g now filename file fset enabledAnalyzers :
  WFg g →
  ∃ g1 r1 c1,
    Analyze analyzerImpl g now filename (Some file) fset enabledAnalyzers = Some (g1, r1, c1)
    ∧ WFg g1 ∧ sameMode g g1
    ∧ (∃ l, r1 = Some l)
    ∧ ∃ X, cachedFor g1 filename = Some (computeFileHash file, X)
           ∧ cloneIssues X = cloneIssues r1.
Proof.
  intros HWFg. pose proof HWFg as [Hh Hl]. unfold Analyze.
  destruct (globalHybridCache g) as [hc|] eqn:Hg.
  - destruct (checkCache_hybrid g hc now filename file Hg Hh)
      as (hc' & got & HC & HWF' & Hres & _).
    rewrite HC. simpl.
    set (g0 := {| globalHybridCache := Some hc'; globalCache := globalCache g |}).
    assert (HWF0 : WFg g0) by done.
    assert (Hmiss :
      ∃ g1 r1 c1,
        (let '(issues, invoked) := runAnalyzers analyzerImpl file fset enabledAnalyzers in
         updateCache g0 now filename file (Some issues) ≫= λ g2, Some (g2, Some issues, invoked))
        = Some (g1, r1, c1)
        ∧ WFg g1 ∧ sameMode g g1
        ∧ (∃ l, r1 = Some l)
        ∧ ∃ X, cachedFor g1 filename = Some (computeFileHash file, X)
               ∧ cloneIssues X = cloneIssues r1).
    { destruct (runAnalyzers analyzerImpl file fset enabledAnalyzers) as [issues invoked].
      destruct (updateCache_spec g0 now filename file (Some issues) HWF0)
        as (g1 & HU & HWF1 & Hmode & Hc & _).
      rewrite HU. simpl. exists g1, (Some issues), invoked. split; [done|]. split; [done|].
      split; [unfold sameMode in *; simpl in *; rewrite Hg; rewrite <- Hmode; done|].
      split; [by eexists|].
      exists (cloneIssues (Some issues)). split; [done|]. apply cloneIssues_idem. }
    destruct got as [e|]; [|exact Hmiss].
    destruct (String.eqb_spec (Entry_Hash e) (computeFileHash file)) as [Hhash|]; [|exact Hmiss].
    exists g0, (cloneIssues (Entry_Issues e)), []. split; [done|]. split; [done|].
    split; [unfold sameMode; simpl; by rewrite Hg|].
    split; [destruct (cloneIssues_nilFree (Entry_Issues e)) as (l & -> & _); by eexists|].
    exists (Entry_Issues e). split.
    + unfold cachedFor. simpl. rewrite Hres. simpl. by rewrite Hhash.
    + by rewrite cloneIssues_idem.
  - rewrite (checkCache_legacy g now filename file Hg). simpl.
    assert (Hmiss :
      ∃ g1 r1 c1,
        (let '(issues, invoked) := runAnalyzers analyzerImpl file fset enabledAnalyzers in
         updateCache g now filename file (Some issues) ≫= λ g2, Some (g2, Some issues, invoked))
        = Some (g1, r1, c1)
        ∧ WFg g1 ∧ sameMode g g1
        ∧ (∃ l, r1 = Some l)
        ∧ ∃ X, cachedFor g1 filename = Some (computeFileHash file, X)
               ∧ cloneIssues X = cloneIssues r1).
    { destruct (runAnalyzers analyzerImpl file fset enabledAnalyzers) as [issues invoked].
      destruct (updateCache_spec g now filename file (Some issues) HWFg)
        as (g1 & HU & HWF1 & Hmode & Hc & _).
      rewrite HU. simpl. exists g1, (Some issues), invoked. split; [done|]. split; [done|].
      split; [done|]. split; [by eexists|].
      exists (cloneIssues (Some issues)). split; [done|]. apply cloneIssues_idem. }
    destruct (results (globalCache g) !! filename) as [e|] eqn:He; [|exact Hmiss].
    destruct (String.eqb_spec (CacheEntry_Hash e) (computeFileHash file)) as [Hhash|];
      [|exact Hmiss].
    destruct (now - Timestamp e <? maxAge (globalCache g)); [|exact Hmiss].
    simpl. exists g, (CacheEntry_Issues e), []. split; [done|]. split; [done|].
    split; [done|].
    split; [destruct Hl as [_ Hcl]; destruct (Hcl filename e He) as (l & -> & _); by eexists|].
    exists (CacheEntry_Issues e). split; [|done].
    unfold cachedFor. rewrite Hg, He. simpl. by rewrite Hhash.
Qed.

(** A call that finds the entry of the file under the fingerprint of the
    tree, and finds it fresh, returns its clone and invokes no rule. *)
Lemma Analyze_hit g now filename file fset enabledAnalyzers X :
  WFg g → cachedFor g filename = Some (computeFileHash file, X) → fresh g filename now →
  ∃ g', Analyze analyzerImpl g now filename (Some file) fset enabledAnalyzers
        = Some (g', cloneIssues X, []).
Proof.
  intros [Hh Hl] Hc Hfresh. unfold Analyze, cachedFor, fresh in *.
  destruct (globalHybridCache g) as [hc|] eqn:Hg.
  - apply bind_Some in Hc as (e & He & [= Hhash HX]).
    destruct (checkCache_hybrid g hc now filename file Hg Hh)
      as (hc' & got & HC & _ & _ & Hhit).
    rewrite HC, (Hhit e He), Hhash, String.eqb_refl, HX. simpl. eauto.
  - apply bind_Some in Hc as (e & He & [= Hhash HX]).
    rewrite (checkCache_legacy g now filename file Hg), He, Hhash, String.eqb_refl.
    specialize (Hfresh e He). simpl.
    destruct (Z.ltb_spec (now - Timestamp e) (maxAge (globalCache g))); [|lia].
    simpl. destruct Hl as [_ Hclones]. destruct (Hclones filename e He) as (l & Hl & Hsome).
    rewrite <- HX, Hl, cloneIssues_clone by done. eauto.
Qed.

(** A call that finds the file cached under another fingerprint runs the
    enabled rules and returns what they report. *)
Lemma Analyze_miss g now filename file fset enabledAnalyzers h X :
  WFg g → cachedFor g filename = Some (h, X) → h ≠ computeFileHash file →
  ∃ g', Analyze analyzerImpl g now filename (Some file) fset enabledAnalyzers
        = Some (g', Some (runAnalyzers analyzerImpl file fset enabledAnalyzers).1,
                (runAnalyzers analyzerImpl file fset enabledAnalyzers).2).
Proof.
  intros HWFg Hc Hne. pose proof HWFg as [Hh Hl]. unfold Analyze, cachedFor in *.
  destruct (globalHybridCache g) as [hc|] eqn:Hg.
  - apply bind_Some in Hc as (e & He & [= Hhash HX]).
    destruct (checkCache_hybrid g hc now filename file Hg Hh)
      as (hc' & got & HC & HWF' & _ & Hhit).
    rewrite HC, (Hhit e He), Hhash. simpl.
    destruct (String.eqb_spec h (computeFileHash file)) as [|_]; [done|].
    destruct (runAnalyzers analyzerImpl file fset enabledAnalyzers) as [issues invoked].
    set (g0 := {| globalHybridCache := Some hc'; globalCache := globalCache g |}).
    destruct (updateCache_spec g0 now filename file (Some issues)) as (g1 & HU & _); [done|].
    rewrite HU. simpl. eauto.
  - apply bind_Some in Hc as (e & He & [= Hhash HX]).
    rewrite (checkCache_legacy g now filename file Hg), He, Hhash. simpl.
    destruct (String.eqb_spec h (computeFileHash file)) as [|_]; [done|]. simpl.
    destruct (runAnalyzers analyzerImpl file fset enabledAnalyzers) as [issues invoked].
    destruct (updateCache_spec g now filename file (Some issues) HWFg) as (g1 & HU & _).
    rewrite HU. simpl. eauto.
Qed.
End OrchestratorLaws.

Lemma init_hybrid : init (Some (diskWith [])) 0 = Some globalsHybrid.
Proof. reflexivity. Qed.

Lemma init_legacy : init None 0 = Some globalsLegacy.
Proof. reflexivity. Qed.

Lemma legacyOK_initial : legacyOK initialLegacyCache.
Proof. split; [done|]. intros fn e. simpl. by rewrite lookup_empty. Qed.

Lemma WFg_hybrid : WFg globalsHybrid.
Proof.
  split; [|apply legacyOK_initial].
  destruct (NewHybridCache_WF (diskWith []) 1000 0) as (hc & Hnew & HWF & _).
  - constructor.
  - constructor.
  - assert (E : Some hc = Some hybridEmpty) by (rewrite <- Hnew; reflexivity).
    injection E as ->. exact HWF.
Qed.

Lemma WFg_legacy : WFg globalsLegacy.
Proof. split; [done | apply legacyOK_initial]. Qed.

(** Every state the orchestrator reaches is well formed: [init] builds
    one, and [Analyze] returns and keeps it. *)
Lemma init_WFg opened now :
  (∀ disk, opened = Some disk → diskUnique disk ∧ diskNilFree disk) →
  ∃ g, init opened now = Some g ∧ WFg g.
Proof.
  intros Hdisk. unfold init. destruct opened as [disk|].
  - destruct (Hdisk disk eq_refl) as [Hdu Hdnf].
    destruct (NewHybridCache_WF disk 1000 now Hdu Hdnf) as (hc & -> & HWF & _).
    simpl. eexists. split; [done|]. split; [done | apply legacyOK_initial].
  - eexists. split; [done|]. split; [done | apply legacyOK_initial].
Qed.

Lemma Analyze_keeps_WFg analyzerImpl g now filename file fset enabledAnalyzers :
  WFg g →
  ∃ g' r c,
    Analyze analyzerImpl g now filename file fset enabledAnalyzers = Some (g', r, c)
    ∧ WFg g'.
Proof.
  intros HWFg. destruct file as [file|].
  - destruct (Analyze_first analyzerImpl g now filename file fset enabledAnalyzers HWFg)
      as (g1 & r1 & c1 & H1 & HWF1 & _).
    by exists g1, r1, c1.
  - by exists g, (Some []), [].
Qed.

Section OrchestratorTheorems.
Variable analyzerImpl : string → ast_File → option FileSet → slice (option Issue).
Local Opaque runAnalyzers computeFileHash.

(** C1, as the code has it.  After a call of [Analyze] on a file, a
    second call with the same path and tree that finds the cached entry
    fresh (always with the hybrid cache; younger than [maxAge] with the
    legacy cache) invokes no rule and returns the clone of what the first
    call returned: the same issues without the nil pointers, so the same
    list when the first result holds no nil pointer. *)
Theorem second_Analyze_served_from_cache g now1 now2 filename file fset enabledAnalyzers :
  WFg g →
  ∃ g1 r1 c1,
    Analyze analyzerImpl g now1 filename (Some file) fset enabledAnalyzers = Some (g1, r1, c1)
    ∧ (fresh g1 filename now2 →
       ∃ g2,
         Analyze analyzerImpl g1 now2 filename (Some file) fset enabledAnalyzers
         = Some (g2, cloneIssues r1, [])
         ∧ (nilFree r1 → cloneIssues r1 = r1)).
Proof.
  intros HWFg.
  destruct (Analyze_first analyzerImpl g now1 filename file fset enabledAnalyzers HWFg)
    as (g1 & r1 & c1 & H1 & HWF1 & _ & (l & ->) & X & HX & Hclone).
  exists g1, (Some l), c1. split; [done|]. intros Hfresh.
  destruct (Analyze_hit analyzerImpl g1 now2 filename file fset enabledAnalyzers X
              HWF1 HX Hfresh) as (g2 & H2).
  exists g2. rewrite <- Hclone. split; [done|].
  intros Hnf. rewrite Hclone. by apply cloneIssues_clone.
Qed.

(** C2, as the code has it.  When the fingerprint of [T'] differs from
    that of [T], a call of [Analyze] on [T'] that follows a call on [T]
    under the same path does not return what is cached for [T]: it
    invokes the enabled rules on [T'] and returns what they report. *)
Theorem changed_fingerprint_is_a_miss g now1 now2 filename T T' fset enabledAnalyzers :
  WFg g → computeFileHash T' ≠ computeFileHash T →
  ∃ g1 r1 c1 g2,
    Analyze analyzerImpl g now1 filename (Some T) fset enabledAnalyzers = Some (g1, r1, c1)
    ∧ Analyze analyzerImpl g1 now2 filename (Some T') fset enabledAnalyzers
      = Some (g2, Some (runAnalyzers analyzerImpl T' fset enabledAnalyzers).1,
              (runAnalyzers analyzerImpl T' fset enabledAnalyzers).2).
Proof.
  intros HWFg Hne.
  destruct (Analyze_first analyzerImpl g now1 filename T fset enabledAnalyzers HWFg)
    as (g1 & r1 & c1 & H1 & HWF1 & _ & _ & X & HX & _).
  destruct (Analyze_miss analyzerImpl g1 now2 filename T' fset enabledAnalyzers
              (computeFileHash T) X HWF1 HX) as (g2 & H2); [congruence|].
  by exists g1, r1, c1, g2.
Qed.
End OrchestratorTheorems.

Lemma second_Analyze_served_from_cache_witness :
  ∃ g1 r1 c1 g2,
    Analyze stubRules globalsHybrid 0 "a.go" (Some treeWide) None None = Some (g1, r1, c1)
    ∧ Analyze stubRules g1 (16 * minute) "a.go" (Some treeWide) None None = Some (g2, r1, []).
Proof.
  destruct (second_Analyze_served_from_cache stubRules globalsHybrid 0 (16 * minute) "a.go"
              treeWide None None WFg_hybrid) as (g1 & r1 & c1 & H1 & H2).
  exists g1, r1, c1.
  assert (Hg : is_Some (globalHybridCache g1) ∧ nilFree r1).
  { vm_compute in H1. injection H1 as <- <- _. split; [by eexists|].
    repeat constructor. by eexists. }
  destruct Hg as [[hc Hhc] Hnf].
  destruct H2 as (g2 & H2 & Heq).
  { unfold fresh. by rewrite Hhc. }
  exists g2. split; [done|]. rewrite (Heq Hnf) in H2. exact H2.
Defined.

(** C1 as stated fails twice over.  With the legacy cache a second call
    sixteen minutes after the first runs the rules again; and when a rule
    reports a nil pointer the second call returns a shorter list. *)
Lemma second_Analyze_can_rerun_or_differ :
  (∃ g1 r1 c1 g2 r2 c2,
     Analyze stubRules globalsLegacy 0 "a.go" (Some treeWide) None None = Some (g1, r1, c1)
     ∧ Analyze stubRules g1 (16 * minute) "a.go" (Some treeWide) None None
       = Some (g2, r2, c2)
     ∧ c2 ≠ [])
  ∧ (∃ g1 r1 c1 g2 r2 c2,
       Analyze nilRules globalsHybrid 0 "a.go" (Some treeWide) None None = Some (g1, r1, c1)
       ∧ Analyze nilRules g1 1 "a.go" (Some treeWide) None None = Some (g2, r2, c2)
       ∧ c2 = [] ∧ r2 ≠ r1).
Proof.
  split.
  - eexists _, _, _, _, _, _. split; [vm_compute; reflexivity|].
    split; [vm_compute; reflexivity|]. discriminate.
  - eexists _, _, _, _, _, _. split; [vm_compute; reflexivity|].
    split; [vm_compute; reflexivity|]. split; [reflexivity | discriminate].
Qed.

Lemma changed_fingerprint_is_a_miss_witness :
  ∃ g1 r1 c1 g2,
    Analyze stubRules globalsHybrid 0 "a.go" (Some treeWide) None None = Some (g1, r1, c1)
    ∧ Analyze stubRules g1 1 "a.go" (Some treeOther) None None
      = Some (g2, Some (runAnalyzers stubRules treeOther None None).1,
              (runAnalyzers stubRules treeOther None None).2).
Proof.
  apply (changed_fingerprint_is_a_miss stubRules globalsHybrid 0 1 "a.go"
           treeWide treeOther None None WFg_hybrid).
  apply treeOther_fingerprint.
Defined.

(** C2 as stated fails.  The trees of two different package clauses have
    their nodes at different positions and the same fingerprint, and the
    call on the second returns the diagnostics cached for the first
    without invoking a rule, although the rules report something else on
    the second. *)
Lemma fingerprint_collision_reuses_cache :
  inspect (Root treeLate) ≠ inspect (Root treeWide)
  ∧ computeFileHash treeLate = computeFileHash treeWide
  ∧ ∃ g1 r1 c1 g2,
      Analyze stubRules globalsHybrid 0 "a.go" (Some treeWide) None None = Some (g1, r1, c1)
      ∧ Analyze stubRules g1 1 "a.go" (Some treeLate) None None = Some (g2, r1, [])
      ∧ r1 ≠ Some (runAnalyzers stubRules treeLate None None).1.
Proof.
  split; [discriminate|]. split; [vm_compute; reflexivity|].
  eexists _, _, _, _. split; [vm_compute; reflexivity|].
  split; [vm_compute; reflexivity|]. vm_compute. discriminate.
Qed.

(** ** Suppression: the theorems at concrete inputs *)

Lemma ignore_next_line_precision_witness :
  (Some (issueAt IssueRaceCondition 4 "race") ∉
     slice_elems (FilterIssuesByComments typeNames
                    (Some [Some (issueAt IssueRaceCondition 4 "race");
                           Some (issueAt IssueRaceCondition 5 "race")])
                    (Some tenPerLine) (Some (fileWith commentNextLine))))
  ∧ (Some (issueAt IssueRaceCondition 5 "race") ∈
       slice_elems (FilterIssuesByComments typeNames
                      (Some [Some (issueAt IssueRaceCondition 4 "race");
                             Some (issueAt IssueRaceCondition 5 "race")])
                      (Some tenPerLine) (Some (fileWith commentNextLine)))).
Proof.
  apply (ignore_next_line_precision typeNames tenPerLine (fileWith commentNextLine)
           [] [] commentNextLine [] [] "RaceCondition").
  - reflexivity.
  - reflexivity.
  - reflexivity.
  - reflexivity.
  - reflexivity.
  - reflexivity.
  - reflexivity.
  - reflexivity.
  - right. left.
  - reflexivity.
Defined.

(** C8, as claimed for every file, fails: with a second directive on
    line [N+1] the diagnostic at line [N+2] is removed too. *)
Lemma next_but_one_line_can_be_suppressed :
  extractCommentText (Text commentNextLine) = "abc:ignore-next-line RaceCondition"%string
  ∧ PositionLine tenPerLine (Slash commentNextLine) = 3
  ∧ FilterIssuesByComments typeNames
      (Some [Some (issueAt IssueRaceCondition 4 "race");
             Some (issueAt IssueRaceCondition 5 "race")])
      (Some tenPerLine) (Some fileTwoDirectives)
    = Some [].
Proof. repeat split; reflexivity. Qed.

Lemma bare_ignore_file_is_next_line_witness :
  processComment (NewIgnoreChecker tenPerLine (fileWith commentIgnoreFile)) commentIgnoreFile
  = addIgnoreRange (NewIgnoreChecker tenPerLine (fileWith commentIgnoreFile)) ""
      (int_add (PositionLine tenPerLine 30) 1) (int_add (PositionLine tenPerLine 30) 1)
  ∧ processComment (NewIgnoreChecker tenPerLine (fileWith commentIgnoreFile)) commentIgnoreFile
    = processComment (NewIgnoreChecker tenPerLine (fileWith commentIgnoreFile)) commentIgnore
  ∧ ∀ ty line,
      ShouldIgnore (NewIgnoreChecker tenPerLine (fileWith commentIgnoreFile)) ty line
      = ShouldIgnore
          (NewIgnoreChecker tenPerLine (withComments (fileWith commentIgnoreFile) [[]]))
          ty line
        || (line =? int_add (PositionLine tenPerLine 30) 1).
Proof.
  apply (bare_ignore_file_is_next_line
           (NewIgnoreChecker tenPerLine (fileWith commentIgnoreFile))
           tenPerLine (fileWith commentIgnoreFile) [] [] commentIgnoreFile commentIgnore [] []).
  - reflexivity.
  - reflexivity.
  - reflexivity.
  - reflexivity.
Defined.

(** The file whose only comment is [abc:ignore-file] suppresses line 4,
    whatever the category, and nothing else. *)
Example ignore_file_alone :
  map (fun line => ShouldIgnore (NewIgnoreChecker tenPerLine (fileWith commentIgnoreFile))
                     "RaceCondition" line) [3; 4; 5; 100]
  = [false; true; false; false].
Proof. vm_compute. reflexivity. Qed.

(** ** Suppression: the other directives *)

Lemma ShouldIgnore_suppressedBy fset file ty line :
  ShouldIgnore (NewIgnoreChecker fset file) ty line
  = suppressedBy (fileRanges fset file) ty line.
Proof. apply ShouldIgnore_fileRanges. Qed.

Lemma suppressedBy_app rs1 rs2 ty line :
  suppressedBy (rs1 ++ rs2) ty line = suppressedBy rs1 ty line || suppressedBy rs2 ty line.
Proof.
  unfold suppressedBy. rewrite !hits_app.
  repeat match goal with |- context [hits ?a ?b ?c] => destruct (hits a b c) end; done.
Qed.

(** What a file suppresses is what the file without one comment
    suppresses, or what that comment contributes. *)
Lemma ShouldIgnore_split fset file gs1 g1 c g2 gs2 ty line :
  Comments file = gs1 ++ (g1 ++ c :: g2) :: gs2 →
  ShouldIgnore (NewIgnoreChecker fset file) ty line
  = ShouldIgnore (NewIgnoreChecker fset (withComments file (gs1 ++ (g1 ++ g2) :: gs2))) ty line
    || suppressedBy (commentRanges fset c) ty line.
Proof.
  intros HC.
  destruct (fileRanges_split fset file gs1 g1 c g2 gs2 HC) as (A & B & Hfull & Hwithout).
  rewrite !ShouldIgnore_suppressedBy, Hfull, Hwithout, !suppressedBy_app.
  repeat match goal with |- context [suppressedBy ?a ?b ?c] => destruct (suppressedBy a b c) end;
    done.
Qed.

Lemma suppressedBy_one K s e ty line :
  suppressedBy [mkRange K s e] ty line
  = (String.eqb K ty || String.eqb K "" || String.eqb K "*") && (s <=? line) && (line <=? e).
Proof.
  unfold suppressedBy, hits, in_range. simpl.
  destruct (String.eqb K ty), (String.eqb K ""), (String.eqb K "*"),
    (s <=? line), (line <=? e); done.
Qed.

Lemma strip_prefix_app p s t :
  strip_prefix p s = Some t → ∀ u, strip_prefix p (s ++ u) = Some (t ++ u)%string.
Proof.
  revert s. induction p as [|a p IH]; intros s H u.
  - simpl in *. by injection H as ->.
  - destruct s as [|b s]; [done|]. simpl in *.
    destruct (Ascii.eqb a b); [by apply IH | done].
Qed.

Lemma HasPrefix_app s p u : HasPrefix s p = true → HasPrefix (s ++ u) p = true.
Proof.
  unfold HasPrefix. destruct (strip_prefix p s) as [t|] eqn:E; [|done].
  intros _. by rewrite (strip_prefix_app p s t E u).
Qed.

Lemma string_app_assoc (a b c : string) : ((a ++ b) ++ c = a ++ (b ++ c))%string.
Proof.
  induction a as [|x a IH]; [done|].
  change (String x ((a ++ b) ++ c) = String x (a ++ (b ++ c)))%string. by rewrite IH.
Qed.

(** A directive word followed by one category token contributes the
    ranges [processSpecificDirective] adds for that single category. *)
Lemma commentRanges_directive fset c d Foo :
  extractCommentText (Text c) = (d ++ String " " Foo)%string →
  HasPrefix d "abc:ignore" = true → has_sep " " d = false → is_token Foo = true →
  commentRanges fset c = directiveRanges d [Foo] (PositionLine fset (Slash c)).
Proof.
  intros Htext Hd Hsep Htok. unfold commentRanges. rewrite Htext, (HasPrefix_app _ _ _ Hd).
  unfold textRanges. rewrite (Split_app_sep d Foo " " Hsep).
  rewrite (Split_no_sep Foo " ") by (apply is_token_no_sep; [done | by left]).
  rewrite (Split_no_sep Foo ",") by (apply is_token_no_sep; [done | by right]).
  done.
Qed.

Section DirectiveLaws.
Variables (fset : FileSet) (file : ast_File).
Variables (gs1 : list CommentGroup) (g1 : CommentGroup) (c : Comment)
          (g2 : CommentGroup) (gs2 : list CommentGroup).
Hypothesis Hcomments : Comments file = gs1 ++ (g1 ++ c :: g2) :: gs2.

Local Abbreviation rest := (withComments file (gs1 ++ (g1 ++ g2) :: gs2)).
Local Abbreviation N := (PositionLine fset (Slash c)).

(** [abc:ignore Foo], [Foo] without ASCII white space or comma: the
    category is [Foo] with the white space around it trimmed; it is
    covered on the next line, and on the next ten lines when its name
    contains [_IN_LOOP] or [LOOP_].  A range under the name [*] or the
    empty name covers every category. *)
Theorem ignore_category_window Foo :
  extractCommentText (Text c) = ("abc:ignore " ++ Foo)%string →
  is_token Foo = true →
  ∀ ty line,
    ShouldIgnore (NewIgnoreChecker fset file) ty line
    = ShouldIgnore (NewIgnoreChecker fset rest) ty line
      || (String.eqb (TrimSpace Foo) ty || String.eqb (TrimSpace Foo) ""
          || String.eqb (TrimSpace Foo) "*")
         && (int_add N 1 <=? line)
         && (line <=? if loopCategory (TrimSpace Foo) then int_add N 10 else int_add N 1).
Proof.
  intros Htext Htok ty line.
  rewrite (ShouldIgnore_split fset file gs1 g1 c g2 gs2 ty line Hcomments).
  rewrite (commentRanges_directive fset c "abc:ignore" Foo Htext) by done.
  unfold directiveRanges. cbn [String.eqb Ascii.eqb Bool.eqb map].
  cbv zeta. fold (loopCategory (TrimSpace Foo)).
  by rewrite suppressedBy_one.
Qed.

(** [abc:ignore-file Foo], [Foo] without ASCII white space or comma:
    the category is the trimmed [Foo], or [*] when [Foo] is empty; it
    is covered on the lines 0 to 999999 and on no line beyond. *)
Theorem ignore_file_category_range Foo :
  extractCommentText (Text c) = ("abc:ignore-file " ++ Foo)%string →
  is_token Foo = true →
  ∀ ty line,
    ShouldIgnore (NewIgnoreChecker fset file) ty line
    = ShouldIgnore (NewIgnoreChecker fset rest) ty line
      || (String.eqb (fileCategory Foo) ty || String.eqb (fileCategory Foo) ""
          || String.eqb (fileCategory Foo) "*")
         && (0 <=? line) && (line <=? 999999).
Proof.
  intros Htext Htok ty line.
  rewrite (ShouldIgnore_split fset file gs1 g1 c g2 gs2 ty line Hcomments).
  rewrite (commentRanges_directive fset c "abc:ignore-file" Foo Htext) by done.
  unfold directiveRanges. cbn [String.eqb Ascii.eqb Bool.eqb map].
  fold (fileCategory Foo). by rewrite suppressedBy_one.
Qed.

(** [abc:ignore-line Foo], [Foo] without ASCII white space or comma:
    the trimmed [Foo] is covered on the line of the comment itself. *)
Theorem ignore_line_current_line Foo :
  extractCommentText (Text c) = ("abc:ignore-line " ++ Foo)%string →
  is_token Foo = true →
  ∀ ty line,
    ShouldIgnore (NewIgnoreChecker fset file) ty line
    = ShouldIgnore (NewIgnoreChecker fset rest) ty line
      || (String.eqb (TrimSpace Foo) ty || String.eqb (TrimSpace Foo) ""
          || String.eqb (TrimSpace Foo) "*")
         && (line =? N).
Proof.
  intros Htext Htok ty line.
  rewrite (ShouldIgnore_split fset file gs1 g1 c g2 gs2 ty line Hcomments).
  rewrite (commentRanges_directive fset c "abc:ignore-line" Foo Htext) by done.
  unfold directiveRanges. cbn [String.eqb Ascii.eqb Bool.eqb map].
  rewrite suppressedBy_one, <- andb_assoc.
  f_equal. f_equal. lia.
Qed.

(** A comment of one word that starts with [abc:ignore], whatever
    follows the prefix, suppresses every category on the next line. *)
Theorem one_word_directive_is_bare_ignore :
  isDirective c = true → has_sep " " (extractCommentText (Text c)) = false →
  ∀ ty line,
    ShouldIgnore (NewIgnoreChecker fset file) ty line
    = ShouldIgnore (NewIgnoreChecker fset rest) ty line || (line =? int_add N 1).
Proof.
  intros Hdir Hsep ty line.
  rewrite (ShouldIgnore_split fset file gs1 g1 c g2 gs2 ty line Hcomments).
  unfold commentRanges. unfold isDirective in Hdir. rewrite Hdir.
  unfold textRanges. rewrite (Split_no_sep _ " " Hsep).
  rewrite suppressedBy_one. cbn [String.eqb]. rewrite orb_true_r, <- andb_assoc.
  f_equal. simpl. lia.
Qed.

(** A directive word that is none of the four known ones, followed by
    arguments, suppresses nothing. *)
Theorem unknown_directive_is_ignored d args :
  extractCommentText (Text c) = (d ++ String " " args)%string →
  has_sep " " d = false → knownDirective d = false →
  ∀ ty line,
    ShouldIgnore (NewIgnoreChecker fset file) ty line
    = ShouldIgnore (NewIgnoreChecker fset rest) ty line.
Proof.
  intros Htext Hsep Hunknown ty line.
  rewrite (ShouldIgnore_split fset file gs1 g1 c g2 gs2 ty line Hcomments).
  assert (Hnone : commentRanges fset c = []).
  { unfold commentRanges. rewrite Htext. case_match; [|done].
    unfold textRanges. rewrite (Split_app_sep d args " " Hsep).
    pose proof (Split_nonempty args " ") as Hne.
    destruct (Split args " ") as [|types more]; [done|].
    unfold directiveRanges. unfold knownDirective in Hunknown.
    apply orb_false_elim in Hunknown as [Hunknown H4].
    apply orb_false_elim in Hunknown as [Hunknown H3].
    apply orb_false_elim in Hunknown as [H1 H2].
    by rewrite H1, H2, H3, H4. }
  rewrite Hnone. unfold suppressedBy. simpl. by rewrite orb_false_r.
Qed.

(** [abc:ignore-file A, B]: the blank after the comma ends the category
    list at an empty name, which stands for all categories, so the whole
    file (lines 0 to 999999) is suppressed for every category. *)
Theorem blank_after_comma_suppresses_all A more :
  extractCommentText (Text c) = ("abc:ignore-file " ++ A ++ String "," (String " " more))%string →
  is_token A = true →
  ∀ ty line, 0 ≤ line ≤ 999999 →
    ShouldIgnore (NewIgnoreChecker fset file) ty line = true.
Proof.
  intros Htext Htok ty line Hline.
  rewrite (ShouldIgnore_split fset file gs1 g1 c g2 gs2 ty line Hcomments).
  assert (Hr : ∃ K, commentRanges fset c
                    = [mkRange K 0 999999; mkRange "*" 0 999999]).
  { unfold commentRanges. rewrite Htext.
    change (HasPrefix ("abc:ignore-file " ++ A ++ String "," (String " " more)) "abc:ignore")
      with true. cbv iota. unfold textRanges.
    change ("abc:ignore-file " ++ A ++ String "," (String " " more))%string
      with ("abc:ignore-file" ++ String " " (A ++ String "," (String " " more)))%string.
    rewrite Split_app_sep by reflexivity.
    assert (Hsp : has_sep " " (A ++ ",") = false).
    { unfold has_sep. assert (HA := is_token_no_sep A " " Htok ltac:(by left)).
      unfold has_sep in HA. clear -HA. induction A as [|a A IH]; simpl in *; [done|].
      apply orb_false_elim in HA as [H1 H2]. by rewrite H1, IH. }
    replace (A ++ String "," (String " " more))%string
      with ((A ++ ",") ++ String " " more)%string
      by apply string_app_assoc.
    rewrite (Split_app_sep _ more " " Hsp).
    pose proof (Split_nonempty more " ") as Hne.
    assert (Hc : Split (A ++ ",") "," = [A; ""%string]).
    { rewrite (Split_app_sep A "" ","); [done|]. apply is_token_no_sep; [done | by right]. }
    rewrite Hc. unfold directiveRanges. cbn [String.eqb Ascii.eqb Bool.eqb map].
    by eexists. }
  destruct Hr as [K Hr].
  rewrite Hr. replace [mkRange K 0 999999; mkRange "*" 0 999999]
    with ([mkRange K 0 999999] ++ [mkRange "*" 0 999999]) by done.
  rewrite suppressedBy_app, !suppressedBy_one.
  destruct (Z.leb_spec 0 line); [|lia]. destruct (Z.leb_spec line 999999); [|lia].
  change (String.eqb "*" "*") with true.
  destruct (ShouldIgnore _ _ _), (String.eqb K ty), (String.eqb K ""), (String.eqb K "*"),
    (String.eqb "*" ty), (String.eqb "*" ""); done.
Qed.
End DirectiveLaws.

Section FilterBounds.
Variable IssueType_String : IssueType → string.

(** A file none of whose comments is a directive suppresses nothing:
    the filter returns the issues in order, without the nil pointers. *)
Theorem no_directive_no_suppression fset file (issues : slice (option Issue)) :
  (∀ c, c ∈ concat (Comments file) → isDirective c = false) →
  FilterIssuesByComments IssueType_String issues (Some fset) (Some file)
  = Some (List.filter isSome (slice_elems issues)).
Proof.
  intros Hnone. unfold FilterIssuesByComments. f_equal.
  assert (Hr : fileRanges fset file = []).
  { unfold fileRanges. induction (concat (Comments file)) as [|c cs IH]; [done|].
    simpl. rewrite IH by (intros c' Hc'; apply Hnone; by right).
    unfold commentRanges. specialize (Hnone c ltac:(left)). unfold isDirective in Hnone.
    by rewrite Hnone. }
  apply filter_ext. intros [d|]; [|done]. unfold keep_issue.
  by rewrite ShouldIgnore_fileRanges, Hr.
Qed.

(** The filter only removes: what it returns is a sublist of what it was
    given, and with a file and a file set no nil pointer is left. *)
Theorem Filter_only_removes (issues : slice (option Issue)) ofset ofile :
  slice_elems (FilterIssuesByComments IssueType_String issues ofset ofile)
    `sublist_of` slice_elems issues
  ∧ ∀ fset file,
      Forall is_Some
        (slice_elems (FilterIssuesByComments IssueType_String issues (Some fset) (Some file))).
Proof.
  unfold FilterIssuesByComments. split.
  - destruct ofile as [f|]; [|done]. destruct ofset as [fs|]; [|done]. simpl.
    induction (slice_elems issues) as [|p l IH]; simpl; [done|].
    destruct (keep_issue _ _ p); [by apply sublist_skip | by apply sublist_cons].
  - intros fs f. simpl. apply Forall_forall.
    intros p Hp%list_elem_of_In. apply filter_In in Hp as [_ Hp]. by destruct p.
Qed.
End FilterBounds.

Lemma ignore_category_window_witness :
  ShouldIgnore (NewIgnoreChecker tenPerLine (fileWith commentLoopPadded))
    "STRING_CONCAT_IN_LOOP" 13
  = ShouldIgnore (NewIgnoreChecker tenPerLine
                    (withComments (fileWith commentLoopPadded) ([] ++ ([] ++ []) :: [])))
      "STRING_CONCAT_IN_LOOP" 13
    || (String.eqb (TrimSpace (NBSP ++ "STRING_CONCAT_IN_LOOP")) "STRING_CONCAT_IN_LOOP"
        || String.eqb (TrimSpace (NBSP ++ "STRING_CONCAT_IN_LOOP")) ""
        || String.eqb (TrimSpace (NBSP ++ "STRING_CONCAT_IN_LOOP")) "*")
       && (int_add 3 1 <=? 13)
       && (13 <=? if loopCategory (TrimSpace (NBSP ++ "STRING_CONCAT_IN_LOOP"))
                  then int_add 3 10 else int_add 3 1).
Proof.
  apply (ignore_category_window tenPerLine (fileWith commentLoopPadded) [] []
           commentLoopPadded [] [] eq_refl (NBSP ++ "STRING_CONCAT_IN_LOOP")).
  - reflexivity.
  - reflexivity.
Defined.

Lemma ignore_file_category_range_witness :
  ShouldIgnore (NewIgnoreChecker tenPerLine (fileWith commentFilePadded)) "RaceCondition" 1000000
  = ShouldIgnore (NewIgnoreChecker tenPerLine
                    (withComments (fileWith commentFilePadded) ([] ++ ([] ++ []) :: [])))
      "RaceCondition" 1000000
    || (String.eqb (fileCategory (NBSP ++ "RaceCondition")) "RaceCondition"
        || String.eqb (fileCategory (NBSP ++ "RaceCondition")) ""
        || String.eqb (fileCategory (NBSP ++ "RaceCondition")) "*")
       && (0 <=? 1000000) && (1000000 <=? 999999).
Proof.
  apply (ignore_file_category_range tenPerLine (fileWith commentFilePadded) [] []
           commentFilePadded [] [] eq_refl (NBSP ++ "RaceCondition")).
  - reflexivity.
  - reflexivity.
Defined.

Lemma ignore_line_current_line_witness :
  ShouldIgnore (NewIgnoreChecker tenPerLine (fileWith commentLinePadded)) "RaceCondition" 3
  = ShouldIgnore (NewIgnoreChecker tenPerLine
                    (withComments (fileWith commentLinePadded) ([] ++ ([] ++ []) :: [])))
      "RaceCondition" 3
    || (String.eqb (TrimSpace "RaceCondition") "RaceCondition"
        || String.eqb (TrimSpace "RaceCondition") ""
        || String.eqb (TrimSpace "RaceCondition") "*")
       && (3 =? 3).
Proof.
  apply (ignore_line_current_line tenPerLine (fileWith commentLinePadded) [] []
           commentLinePadded [] [] eq_refl "RaceCondition").
  - reflexivity.
  - reflexivity.
Defined.

(** White space that is not ASCII is trimmed as Go trims it: a comment
    that starts with a no-break space is a directive, a category loses
    the no-break space in front of it, and the text of a comment loses
    the em space it ends with. *)
Example unicode_space_is_trimmed :
  extractCommentText ("//" ++ NBSP ++ "abc:ignore") = "abc:ignore"%string
  ∧ extractCommentText (Text commentLinePadded) = "abc:ignore-line RaceCondition"%string
  ∧ TrimSpace (NBSP ++ "RaceCondition") = "RaceCondition"%string
  ∧ ShouldIgnore (NewIgnoreChecker tenPerLine (fileWith commentFilePadded))
      "RaceCondition" 500 = true
  ∧ ShouldIgnore (NewIgnoreChecker tenPerLine (fileWith commentLinePadded))
      "RaceCondition" 3 = true.
Proof. repeat split; reflexivity. Qed.

Lemma one_word_directive_is_bare_ignore_witness :
  ShouldIgnore (NewIgnoreChecker tenPerLine (fileWith commentTypo)) "RaceCondition" 4
  = ShouldIgnore (NewIgnoreChecker tenPerLine
                    (withComments (fileWith commentTypo) ([] ++ ([] ++ []) :: [])))
      "RaceCondition" 4
    || (4 =? int_add 3 1).
Proof.
  apply (one_word_directive_is_bare_ignore tenPerLine (fileWith commentTypo) [] []
           commentTypo [] [] eq_refl).
  - reflexivity.
  - reflexivity.
Defined.

Lemma unknown_directive_is_ignored_witness :
  ShouldIgnore (NewIgnoreChecker tenPerLine (fileWith commentTypoArgs)) "RaceCondition" 4
  = ShouldIgnore (NewIgnoreChecker tenPerLine
                    (withComments (fileWith commentTypoArgs) ([] ++ ([] ++ []) :: [])))
      "RaceCondition" 4.
Proof.
  apply (unknown_directive_is_ignored tenPerLine (fileWith commentTypoArgs) [] []
           commentTypoArgs [] [] eq_refl "abc:ignore-nextline" "RaceCondition").
  - reflexivity.
  - reflexivity.
  - reflexivity.
Defined.

Lemma blank_after_comma_suppresses_all_witness :
  0 ≤ 500 ≤ 999999
  ∧ ShouldIgnore (NewIgnoreChecker tenPerLine (fileWith commentList)) "SQLInjection" 500 = true.
Proof.
  split; [lia|].
  apply (blank_after_comma_suppresses_all tenPerLine (fileWith commentList) [] []
           commentList [] [] eq_refl "NestedLoop" "RaceCondition").
  - reflexivity.
  - reflexivity.
  - lia.
Defined.

Lemma no_directive_no_suppression_witness :
  FilterIssuesByComments typeNames
    (Some [Some (issueAt IssueRaceCondition 4 "race"); None])
    (Some tenPerLine) (Some (fileWith commentPlain))
  = Some (List.filter isSome [Some (issueAt IssueRaceCondition 4 "race"); None]).
Proof.
  apply (no_directive_no_suppression typeNames tenPerLine (fileWith commentPlain)
           (Some [Some (issueAt IssueRaceCondition 4 "race"); None])).
  intros c Hc. apply list_elem_of_singleton in Hc. rewrite Hc. reflexivity.
Defined.

(** ** [matchPattern] *)

Lemma string_app_cons x (a b : string) : (String x a ++ b = String x (a ++ b))%string.
Proof. reflexivity. Qed.

Lemma HasPrefix_cons b s a p :
  HasPrefix (String b s) (String a p) = Ascii.eqb a b && HasPrefix s p.
Proof. unfold HasPrefix. simpl. by destruct (Ascii.eqb a b). Qed.

Lemma HasPrefix_nil s : HasPrefix s "" = true.
Proof. by destruct s. Qed.

Lemma HasPrefix_refl s : HasPrefix s s = true.
Proof.
  induction s as [|c s IH]; [done|]. by rewrite HasPrefix_cons, Ascii.eqb_refl.
Qed.

Lemma HasSuffix_nil s : HasSuffix s "" = true.
Proof. induction s as [|c s IH]; [done|]. simpl. by rewrite IH. Qed.

Lemma Contains_cons c r sub :
  Contains (String c r) sub = HasPrefix (String c r) sub || Contains r sub.
Proof. reflexivity. Qed.

Lemma Contains_double_star p : Contains p "**" = true → Contains p "*" = true.
Proof.
  induction p as [|c p IH]; [done|]. rewrite !Contains_cons, !HasPrefix_cons, HasPrefix_nil.
  intros [H|H]%orb_true_iff.
  - apply andb_true_iff in H as [-> _]. done.
  - rewrite (IH H). by rewrite orb_true_r.
Qed.

(** Putting [.*] for every star and then deleting every [.*] deletes the
    stars: the dots of the pattern itself are never taken for inserted
    ones, since no star is left without its dot. *)
Lemma ReplaceAll_star_from p :
  ReplaceAll_from (ReplaceAll_from p "*" ".*" O) ".*" "" O = dropStars p
  ∧ HasPrefix (ReplaceAll_from p "*" ".*" O) "*" = false.
Proof.
  induction p as [|c p [IH Hnostar]]; [done|].
  cbn [ReplaceAll_from dropStars]. rewrite HasPrefix_cons, HasPrefix_nil, andb_true_r.
  rewrite (Ascii.eqb_sym "*" c).
  destruct (Ascii.eqb c "*") eqn:Hc.
  - change (String.length "*" - 1)%nat with O.
    change (".*" ++ ReplaceAll_from p "*" ".*" 0)%string
      with (String "." (String "*" (ReplaceAll_from p "*" ".*" 0))).
    split; [|done].
    cbn [ReplaceAll_from]. rewrite !HasPrefix_cons, HasPrefix_nil.
    change (Ascii.eqb "." "." && (Ascii.eqb "*" "*" && true)) with true. cbv iota.
    change (String.length ".*" - 1)%nat with 1%nat.
    change ("" ++ ReplaceAll_from (ReplaceAll_from p "*" ".*" 0) ".*" "" 0)%string
      with (ReplaceAll_from (ReplaceAll_from p "*" ".*" 0) ".*" "" 0).
    exact IH.
  - split.
    + cbn [ReplaceAll_from]. rewrite HasPrefix_cons.
      assert (Hp : Ascii.eqb "." c && HasPrefix (ReplaceAll_from p "*" ".*" 0) "*" = false)
        by (by rewrite Hnostar, andb_false_r).
      rewrite Hp. by rewrite IH.
    + rewrite HasPrefix_cons, HasPrefix_nil, andb_true_r, (Ascii.eqb_sym "*" c). exact Hc.
Qed.

Lemma eqb_HasPrefix path pattern :
  String.eqb path pattern || HasPrefix path pattern = HasPrefix path pattern.
Proof.
  destruct (String.eqb_spec path pattern) as [->|]; [|done]. by rewrite HasPrefix_refl.
Qed.

(** A piece that does not contain the separator is not split. *)
Lemma SplitOn_from_absent post sep :
  Contains post sep = false → SplitOn_from post sep O = [post].
Proof.
  induction post as [|c r IH]; [done|]. rewrite Contains_cons.
  intros [H1 H2]%orb_false_elim. cbn [SplitOn_from]. rewrite H1, (IH H2). done.
Qed.

Lemma SplitOn_double_star pre post :
  Contains (pre ++ "*") "**" = false → Contains post "**" = false →
  SplitOn (pre ++ "**" ++ post) "**" = [pre; post].
Proof.
  intros Hpre Hpost. unfold SplitOn. induction pre as [|c pre IH].
  - change ("" ++ "**" ++ post)%string with (String "*" (String "*" post)).
    cbn [SplitOn_from]. rewrite !HasPrefix_cons, HasPrefix_nil.
    change (Ascii.eqb "*" "*" && (Ascii.eqb "*" "*" && true)) with true. cbv iota.
    change (String.length "**" - 1)%nat with 1%nat. cbn [SplitOn_from].
    by rewrite (SplitOn_from_absent post "**" Hpost).
  - rewrite string_app_cons in Hpre |- *. rewrite Contains_cons in Hpre.
    apply orb_false_elim in Hpre as [Hhead Htail].
    cbn [SplitOn_from].
    assert (Hno : HasPrefix (String c (pre ++ "**" ++ post)) "**" = false).
    { rewrite HasPrefix_cons in Hhead |- *. destruct (Ascii.eqb "*" c); [|done].
      destruct pre as [|d pre]; [done|].
      rewrite string_app_cons in Hhead |- *. rewrite HasPrefix_cons in Hhead |- *.
      by rewrite HasPrefix_nil in Hhead |- *. }
    rewrite Hno, (IH Htail). done.
Qed.

Lemma Contains_app_r pre s sub : Contains s sub = true → Contains (pre ++ s) sub = true.
Proof.
  intros H. induction pre as [|c pre IH]; [done|].
  rewrite string_app_cons, Contains_cons, IH. apply orb_true_r.
Qed.

(** A pattern without [**]: a star stands for nothing at all.  With a
    star in it, the pattern matches the paths that contain the pattern
    with its stars deleted; without star, the paths it is a prefix of. *)
Theorem matchPattern_single_star path pattern :
  Contains pattern "**" = false → pattern ≠ "*"%string →
  matchPattern path pattern
  = if Contains pattern "*" then Contains path (dropStars pattern)
    else HasPrefix path pattern.
Proof.
  intros Hno Hne. unfold matchPattern.
  assert (H1 : String.eqb pattern "*" = false) by by apply String.eqb_neq.
  assert (H2 : String.eqb pattern "**" = false).
  { apply String.eqb_neq. intros ->. done. }
  rewrite H1, H2, Hno. cbn [orb]. cbv zeta.
  destruct (Contains pattern "*").
  - unfold ReplaceAll. by rewrite (proj1 (ReplaceAll_star_from pattern)).
  - apply eqb_HasPrefix.
Qed.

(** A pattern [pre**post] with no other [**] matches the paths that
    start with [pre] and end with [post], read literally: a single star
    in [pre] or [post] matches a star only. *)
Theorem matchPattern_double_star path pre post :
  Contains (pre ++ "*") "**" = false → Contains post "**" = false →
  matchPattern path (pre ++ "**" ++ post) = HasPrefix path pre && HasSuffix path post.
Proof.
  intros Hpre Hpost. unfold matchPattern.
  assert (Hc : Contains (pre ++ "**" ++ post) "**" = true).
  { apply Contains_app_r. change ("**" ++ post)%string with (String "*" (String "*" post)).
    rewrite Contains_cons, !HasPrefix_cons, HasPrefix_nil. done. }
  rewrite Hc, (SplitOn_double_star pre post Hpre Hpost).
  destruct (String.eqb_spec (pre ++ "**" ++ post) "*") as [E|_].
  { rewrite E in Hc. done. }
  destruct (String.eqb_spec (pre ++ "**" ++ post) "**") as [E|_]; [|done].
  cbn [orb]. cbv iota.
  assert (pre = ""%string ∧ post = ""%string) as [-> ->].
  { destruct pre as [|a [|b [|d pre]]].
    - change ("" ++ "**" ++ post)%string with (String "*" (String "*" post)) in E.
      split; [done|]. by injection E.
    - rewrite string_app_cons in E. destruct post; discriminate E.
    - rewrite !string_app_cons in E. discriminate E.
    - rewrite !string_app_cons in E. discriminate E. }
  by rewrite HasPrefix_nil, HasSuffix_nil.
Qed.

Lemma matchPattern_single_star_witness :
  matchPattern "cmd/main.go.orig" "*.go"
  = if Contains "*.go" "*" then Contains "cmd/main.go.orig" (dropStars "*.go")
    else HasPrefix "cmd/main.go.orig" "*.go".
Proof.
  apply (matchPattern_single_star "cmd/main.go.orig" "*.go").
  - reflexivity.
  - discriminate.
Defined.

Lemma matchPattern_double_star_witness :
  matchPattern "vendor/x/y.pb.go" ("vendor/" ++ "**" ++ ".pb.go")
  = HasPrefix "vendor/x/y.pb.go" "vendor/" && HasSuffix "vendor/x/y.pb.go" ".pb.go".
Proof.
  apply (matchPattern_double_star "vendor/x/y.pb.go" "vendor/" ".pb.go").
  - reflexivity.
  - reflexivity.
Defined.
(** ** Ignored rules *)

Lemma saveUnsafe_rules fc now :
  IgnoredRules (data (fst (saveUnsafe fc now))) = IgnoredRules (data fc)
  ∧ Files (data (fst (saveUnsafe fc now))) = Files (data fc)
  ∧ Stats (data (fst (saveUnsafe fc now))) = Stats (data fc).
Proof. unfold saveUnsafe. by destruct (writable fc). Qed.

Lemma existsb_snoc {A} (f : A → bool) l x : existsb f (l ++ [x]) = existsb f l || f x.
Proof. rewrite existsb_app. simpl. by rewrite orb_false_r. Qed.

Lemma existsb_eqb_elem (l : list string) x :
  existsb (fun y => String.eqb y x) l = true ↔ x ∈ l.
Proof.
  rewrite existsb_exists. split.
  - intros (y & Hy & ->%String.eqb_eq). by apply list_elem_of_In.
  - intros H. exists x. split; [by apply list_elem_of_In | apply String.eqb_refl].
Qed.

(** What the loop of [AddIgnoredRule] does to the answers of the list. *)
Lemma addToRule_spec rules pat rt path rt' :
  match addToRule rules pat rt with
  | None => ∀ rule, rule ∈ rules → FilePattern rule ≠ pat
  | Some None =>
      existsb (ruleIgnores path rt') rules
      = existsb (ruleIgnores path rt') rules
        || matchPattern path pat && (String.eqb rt rt' || String.eqb rt "*")
  | Some (Some rules') =>
      existsb (ruleIgnores path rt') rules'
      = existsb (ruleIgnores path rt') rules
        || matchPattern path pat && (String.eqb rt rt' || String.eqb rt "*")
  end.
Proof.
  induction rules as [|rule rules IH]; simpl.
  - intros rule Hrule. by apply elem_of_nil in Hrule.
  - destruct (String.eqb_spec (FilePattern rule) pat) as [Hpat|Hpat].
    + destruct (existsb _ (slice_elems (RuleTypes rule))) eqn:Hhas.
      * apply existsb_eqb_elem in Hhas. unfold ruleIgnores at 1 3. rewrite Hpat.
        destruct (matchPattern path pat); [|by rewrite orb_false_r].
        cbn [andb].
        destruct (String.eqb rt rt' || String.eqb rt "*") eqn:Hrt; [|by rewrite orb_false_r].
        assert (Hex : existsb (λ rt0, String.eqb rt0 rt' || String.eqb rt0 "*")
                        (slice_elems (RuleTypes rule)) = true).
        { apply existsb_exists. exists rt. split; [by apply list_elem_of_In | done]. }
        by rewrite Hex.
      * simpl. unfold ruleIgnores at 1 3. simpl. rewrite Hpat, existsb_snoc.
        generalize (existsb (λ rt0, String.eqb rt0 rt' || String.eqb rt0 "*")
                      (slice_elems (RuleTypes rule))).
        generalize (existsb (ruleIgnores path rt') rules).
        generalize (String.eqb rt rt' || String.eqb rt "*").
        generalize (matchPattern path pat). clear. by intros [] [] [] [].
    + destruct (addToRule rules pat rt) as [[rules'|]|].
      * simpl. rewrite IH. by rewrite orb_assoc.
      * rewrite <- orb_assoc, <- IH. done.
      * intros r [->|Hr]%elem_of_cons; [done | by apply IH].
Qed.

(** [AddIgnoredRule] adds exactly the paths of the pattern, for the rule
    type (for every rule type when it is [*]), to what was ignored. *)
Theorem AddIgnoredRule_effect fc now pat rt path rt' :
  ShouldIgnoreRule (fst (AddIgnoredRule fc now pat rt)) path rt'
  = ShouldIgnoreRule fc path rt'
    || matchPattern path pat && (String.eqb rt rt' || String.eqb rt "*").
Proof.
  unfold ShouldIgnoreRule, AddIgnoredRule.
  change (λ rule, matchPattern path (FilePattern rule)
                  && existsb (λ rt0, String.eqb rt0 rt' || String.eqb rt0 "*")
                       (slice_elems (RuleTypes rule)))
    with (ruleIgnores path rt').
  pose proof (addToRule_spec (IgnoredRules (data fc)) pat rt path rt') as H.
  destruct (addToRule (IgnoredRules (data fc)) pat rt) as [[rules'|]|].
  - rewrite (proj1 (saveUnsafe_rules _ now)). exact H.
  - exact H.
  - rewrite (proj1 (saveUnsafe_rules _ now)). simpl. rewrite existsb_snoc.
    unfold ruleIgnores at 2. simpl. by rewrite orb_false_r.
Qed.

Lemma addToRule_again rules pat rt :
  match addToRule rules pat rt with
  | None => addToRule (rules ++ [{| FilePattern := pat; RuleTypes := Some [rt] |}]) pat rt
            = Some None
  | Some None => True
  | Some (Some rules') => addToRule rules' pat rt = Some None
  end.
Proof.
  induction rules as [|rule rules IH]; simpl.
  - by rewrite !String.eqb_refl.
  - destruct (String.eqb (FilePattern rule) pat) eqn:Hpat.
    + destruct (existsb _ (slice_elems (RuleTypes rule))) eqn:Hhas; [done|].
      simpl. rewrite Hpat, existsb_snoc, String.eqb_refl. by rewrite orb_true_r.
    + destruct (addToRule rules pat rt) as [[rules'|]|]; [|done|].
      * simpl. by rewrite Hpat, IH.
      * by rewrite IH.
Qed.

(** Adding the same rule type for the same pattern again changes nothing
    and writes nothing: the call returns at once without error. *)
Theorem AddIgnoredRule_again fc now now' pat rt :
  AddIgnoredRule (fst (AddIgnoredRule fc now pat rt)) now' pat rt
  = (fst (AddIgnoredRule fc now pat rt), None).
Proof.
  unfold AddIgnoredRule at 1.
  assert (H : addToRule (IgnoredRules (data (fst (AddIgnoredRule fc now pat rt)))) pat rt
              = Some None); [|by rewrite H].
  unfold AddIgnoredRule.
  pose proof (addToRule_again (IgnoredRules (data fc)) pat rt) as H.
  destruct (addToRule (IgnoredRules (data fc)) pat rt) as [[rules'|]|] eqn:E.
  - by rewrite (proj1 (saveUnsafe_rules _ now)).
  - exact E.
  - by rewrite (proj1 (saveUnsafe_rules _ now)).
Qed.
(** ** Statistics *)

Lemma wrap64_add_l a b : wrap64 (wrap64 a + b) = wrap64 (a + b).
Proof.
  unfold wrap64. f_equal.
  replace ((a + 2 ^ 63) mod 2 ^ 64 - 2 ^ 63 + b + 2 ^ 63)
    with ((a + 2 ^ 63) mod 2 ^ 64 + b) by lia.
  rewrite Z.add_mod_idemp_l by lia. f_equal. lia.
Qed.

Lemma int_add_wrap a b : int_add (wrap64 a) b = wrap64 (a + b).
Proof. apply wrap64_add_l. Qed.

Lemma countFixed_spec issues acc n a :
  countFixed issues acc = Some n → acc = wrap64 a →
  n = wrap64 (a + Z.of_nat (length (List.filter isFixed issues))).
Proof.
  revert acc a. induction issues as [|[issue|] issues IH]; intros acc a Hc Hacc.
  - simpl in *. injection Hc as <-. rewrite Z.add_0_r. done.
  - simpl in Hc. simpl. destruct (IsZero (FixedAt issue)); simpl.
    + by apply (IH acc a).
    + rewrite (IH _ (a + 1) Hc) by (subst acc; apply int_add_wrap). f_equal. lia.
  - done.
Qed.

Lemma countFixed_Some issues acc : is_Some (countFixed issues acc) → Forall is_Some issues.
Proof.
  revert acc. induction issues as [|[issue|] issues IH]; intros acc H; simpl in H.
  - constructor.
  - constructor; [done | by eapply IH].
  - by destruct H.
Qed.

Lemma statsLoop_Some files st :
  is_Some (statsLoop files st) → Forall (fun r => nilFree (Issues r)) files.
Proof.
  revert st. induction files as [|r files IH]; intros st H; [constructor|].
  simpl in H. destruct (countFixed _ _) as [n|] eqn:Hc; [|by destruct H].
  constructor; [|by eapply IH].
  apply (countFixed_Some _ (FixedIssues st)). by rewrite Hc.
Qed.

Lemma statsLoop_spec files st st' a b c d :
  statsLoop files st = Some st' →
  TotalFiles st = wrap64 a → TotalIssues st = wrap64 b →
  IgnoredIssues st = wrap64 c → FixedIssues st = wrap64 d →
  TotalFiles st' = wrap64 (a + Z.of_nat (length files))
  ∧ TotalIssues st' = wrap64 (b + sumOver (fun r => slice_len (Issues r)) files)
  ∧ IgnoredIssues st' = wrap64 (c + sumOver (fun r => slice_len (Ignored r)) files)
  ∧ FixedIssues st' = wrap64 (d + sumOver fixedIssues files)
  ∧ CacheHits st' = CacheHits st ∧ CacheMisses st' = CacheMisses st
  ∧ LastFullScan st' = LastFullScan st.
Proof.
  revert st a b c d. induction files as [|r files IH]; intros st a b c d Hl Ha Hb Hc Hd.
  - simpl in Hl. injection Hl as <-. unfold sumOver. simpl. by rewrite !Z.add_0_r.
  - simpl in Hl. destruct (countFixed _ _) as [n|] eqn:Hn; [|done]. simpl in Hl.
    apply (IH _ (a + 1) (b + slice_len (Issues r)) (c + slice_len (Ignored r))
             (d + fixedIssues r)) in Hl; simpl.
    + destruct Hl as (H1 & H2 & H3 & H4 & H5 & H6 & H7). simpl in *.
      unfold sumOver in *. simpl.
      rewrite H1, H2, H3, H4. repeat split; try done; f_equal; lia.
    + rewrite Ha. apply int_add_wrap.
    + rewrite Hb. apply int_add_wrap.
    + rewrite Hc. apply int_add_wrap.
    + by apply (countFixed_spec _ _ _ d Hn).
Qed.

Lemma updateStats_accurate fc fc' :
  updateStats fc = Some fc' →
  statsAccurate fc'
  ∧ CacheHits (Stats (data fc')) = CacheHits (Stats (data fc))
  ∧ CacheMisses (Stats (data fc')) = CacheMisses (Stats (data fc))
  ∧ LastFullScan (Stats (data fc')) = LastFullScan (Stats (data fc))
  ∧ Files (data fc') = Files (data fc)
  ∧ IgnoredRules (data fc') = IgnoredRules (data fc).
Proof.
  unfold updateStats. intros H. apply bind_Some in H as (st & Hl & H). injection H as <-.
  apply (statsLoop_spec _ _ _ 0 0 0 0) in Hl; try reflexivity.
  destruct Hl as (H1 & H2 & H3 & H4 & H5 & H6 & H7). unfold statsAccurate. simpl in *.
  rewrite !Z.add_0_l in *. done.
Qed.

Lemma statsAccurate_saveUnsafe fc now :
  statsAccurate fc → statsAccurate (fst (saveUnsafe fc now)).
Proof.
  unfold statsAccurate. destruct (saveUnsafe_rules fc now) as (_ & -> & ->). done.
Qed.

(** [updateStats] recomputes the four totals from the records, wrapping
    as Go's [int] does, and carries the hit and miss counters over; it
    panics exactly when some record holds a nil issue pointer. *)
Theorem updateStats_recomputes fc :
  (is_Some (updateStats fc) ↔ diskNilFree fc)
  ∧ ∀ fc', updateStats fc = Some fc' →
      statsAccurate fc'
      ∧ CacheHits (Stats (data fc')) = CacheHits (Stats (data fc))
      ∧ CacheMisses (Stats (data fc')) = CacheMisses (Stats (data fc))
      ∧ LastFullScan (Stats (data fc')) = LastFullScan (Stats (data fc))
      ∧ Files (data fc') = Files (data fc)
      ∧ IgnoredRules (data fc') = IgnoredRules (data fc).
Proof.
  split; [split|].
  - unfold updateStats. intros [fc' H]. apply bind_Some in H as (st & Hl & _).
    apply (statsLoop_Some _ _ (mk_is_Some _ _ Hl)).
  - apply updateStats_total.
  - apply updateStats_accurate.
Qed.

(** ** Ignoring and fixing issues *)

Lemma findRecord_replaceFirst k new files r :
  findRecord k files = Some r → Path new = k →
  findRecord k (replaceFirst k new files) = Some new.
Proof.
  intros Hf Hp. induction files as [|x files IH]; [done|]. simpl in *.
  destruct (String.eqb (Path x) k) eqn:E; simpl.
  - by rewrite Hp, String.eqb_refl.
  - rewrite E. by apply IH.
Qed.

Lemma findRecord_replaceFirst_ne k k' new files :
  k' ≠ k → Path new = k →
  findRecord k' (replaceFirst k new files) = findRecord k' files.
Proof.
  intros Hne Hp. induction files as [|x files IH]; [done|]. simpl.
  destruct (String.eqb_spec (Path x) k) as [E|E]; simpl.
  - rewrite Hp, E. apply String.eqb_neq in Hne. rewrite String.eqb_sym in Hne.
    by rewrite Hne.
  - by rewrite IH.
Qed.

Lemma replaceFirst_paths k new files :
  Path new = k → map Path (replaceFirst k new files) = map Path files.
Proof.
  intros Hp. induction files as [|x files IH]; [done|]. simpl.
  destruct (String.eqb_spec (Path x) k) as [E|E]; simpl; [by rewrite Hp, E | by rewrite IH].
Qed.

Lemma replaceFirst_Forall (P : FileRecord → Prop) k new files :
  P new → Forall P files → Forall P (replaceFirst k new files).
Proof.
  intros Hn Hf. induction Hf as [|x files Hx Hf IH]; [constructor|]. simpl.
  destruct (String.eqb (Path x) k); by constructor.
Qed.

Lemma findRecordAt_spec k files n :
  match findRecordAt k files n with
  | Some (ri, r) =>
      findRecord k files = Some r ∧ (n ≤ ri)%nat ∧ files !! (ri - n)%nat = Some r
  | None => findRecord k files = None
  end.
Proof.
  revert n. induction files as [|x files IH]; intros n; [done|]. simpl.
  destruct (String.eqb (Path x) k).
  - split; [done|]. split; [lia|]. by rewrite Nat.sub_diag.
  - specialize (IH (S n)). destruct (findRecordAt k files (S n)) as [[ri r]|]; [|done].
    destruct IH as (H1 & H2 & H3). split; [done|]. split; [lia|].
    replace (ri - n)%nat with (S (ri - S n)) by lia. done.
Qed.

Lemma findIssueAt_total id l n : Forall is_Some l → is_Some (findIssueAt id l n).
Proof.
  intros H. revert n. induction H as [|p l [issue ->] Hl IH]; intros n; simpl; [done|].
  destruct (String.eqb (ID issue) id); [done | apply IH].
Qed.

Lemma findIssueAt_absent id l n :
  Forall is_Some l → List.find (hasID id) l = None → findIssueAt id l n = Some None.
Proof.
  intros H. revert n. induction H as [|p l [issue ->] Hl IH]; intros n; simpl; [done|].
  destruct (String.eqb (ID issue) id); [done | apply IH].
Qed.

Lemma findIssueAt_found id l n issue :
  Forall is_Some l → List.find (hasID id) l = Some (Some issue) →
  ∃ i, findIssueAt id l n = Some (Some i) ∧ (n ≤ i)%nat
       ∧ l !! (i - n)%nat = Some (Some issue).
Proof.
  intros H. revert n. induction H as [|p l [x ->] Hl IH]; intros n; simpl; [done|].
  destruct (String.eqb (ID x) id).
  - intros [= ->]. exists n. split; [done|]. split; [lia|]. by rewrite Nat.sub_diag.
  - intros Hf. destruct (IH (S n) Hf) as (i & Hi & Hle & Hl'). exists i.
    split; [done|]. split; [lia|]. replace (i - n)%nat with (S (i - S n)) by lia. done.
Qed.

Lemma writeIssues_length f w l n : length (writeIssues f w l n) = length l.
Proof. revert n. induction l as [|p l IH]; intros n; simpl; [done | by rewrite IH]. Qed.

Lemma writeIssues_nilFree f w l n : Forall is_Some l → Forall is_Some (writeIssues f w l n).
Proof.
  intros H. revert n. induction H as [|p l [x ->] Hl IH]; intros n; simpl; constructor.
  - destruct (w n); by eexists.
  - apply IH.
Qed.

Lemma writeIssues_none f w l n :
  (∀ j, (n ≤ j)%nat → w j = false) → writeIssues f w l n = l.
Proof.
  revert n. induction l as [|p l IH]; intros n Hw; simpl; [done|].
  rewrite (Hw n) by lia. rewrite IH; [done|]. intros j Hj. apply Hw. lia.
Qed.

Lemma writeIssues_one f w l n i issue :
  (∀ j, w j = true ↔ j = i) → (n ≤ i)%nat → l !! (i - n)%nat = Some (Some issue) →
  isFixed (Some issue) = false → isFixed (Some (f issue)) = true →
  length (List.filter isFixed (writeIssues f w l n))
  = S (length (List.filter isFixed l)).
Proof.
  intros Hw Hle Hl Hx Hfx. revert n Hle Hl.
  induction l as [|p l IH]; intros n Hle Hl; [done|].
  cbn [writeIssues]. destruct (decide (n = i)) as [->|Hne].
  - rewrite Nat.sub_diag in Hl. injection Hl as ->.
    assert (w i = true) as -> by by apply Hw.
    rewrite writeIssues_none.
    + cbn [fmap option_fmap option_map List.filter]. by rewrite Hfx, Hx.
    + intros j Hj. destruct (w j) eqn:E; [|done]. apply Hw in E. lia.
  - assert (w n = false) as ->.
    { destruct (w n) eqn:E; [|done]. by apply Hw in E. }
    replace (i - n)%nat with (S (i - S n)) in Hl by lia. simpl in Hl.
    cbn [List.filter]. destruct (isFixed p); cbn [length]; rewrite (IH (S n)); try done; lia.
Qed.

Lemma writeThrough_none f w files n :
  (∀ a b, (n ≤ a)%nat → w (a, b) = false) → writeThrough f w files n = files.
Proof.
  revert n. induction files as [|r files IH]; intros n Hw; simpl; [done|].
  rewrite IH by (intros a b Ha; apply Hw; lia). f_equal.
  destruct r as [pa ha la [l|] ig]; [|done]. unfold set_Issues. simpl.
  rewrite writeIssues_none; [done|]. intros j _. apply Hw. lia.
Qed.

Lemma writeThrough_length f w files n : length (writeThrough f w files n) = length files.
Proof. revert n. induction files as [|r files IH]; intros n; simpl; [done | by rewrite IH]. Qed.

Lemma writeThrough_paths f w files n :
  map Path (writeThrough f w files n) = map Path files.
Proof. revert n. induction files as [|r files IH]; intros n; simpl; [done | by rewrite IH]. Qed.

Lemma writeThrough_nilFree f w files n :
  Forall (λ r, nilFree (Issues r)) files →
  Forall (λ r, nilFree (Issues r)) (writeThrough f w files n).
Proof.
  intros H. revert n. induction H as [|r files Hr Hf IH]; intros n; simpl; constructor.
  - unfold nilFree in *. simpl. destruct (Issues r) as [l|]; simpl in *; [|done].
    by apply writeIssues_nilFree.
  - apply IH.
Qed.

Lemma writeThrough_ignored f w files n k :
  Ignored <$> findRecord k (writeThrough f w files n) = Ignored <$> findRecord k files.
Proof.
  revert n. induction files as [|r files IH]; intros n; simpl; [done|].
  destruct (String.eqb (Path r) k); [done | apply IH].
Qed.

Lemma sumOver_writeThrough_issues f w files n :
  sumOver (λ r, slice_len (Issues r)) (writeThrough f w files n)
  = sumOver (λ r, slice_len (Issues r)) files.
Proof.
  unfold sumOver. revert n. induction files as [|r files IH]; intros n; simpl; [done|].
  rewrite IH. f_equal. unfold slice_len. destruct (Issues r) as [l|]; simpl; [|done].
  by rewrite writeIssues_length.
Qed.

Lemma sumOver_writeThrough_ignored f w files n :
  sumOver (λ r, slice_len (Ignored r)) (writeThrough f w files n)
  = sumOver (λ r, slice_len (Ignored r)) files.
Proof.
  unfold sumOver. revert n. induction files as [|r files IH]; intros n; simpl; [done|].
  by rewrite IH.
Qed.

Lemma sumOver_writeThrough_one f w files n ri i r issue :
  (∀ q, w q = true ↔ q = (ri, i)) → (n ≤ ri)%nat → files !! (ri - n)%nat = Some r →
  slice_elems (Issues r) !! i = Some (Some issue) →
  isFixed (Some issue) = false → isFixed (Some (f issue)) = true →
  sumOver fixedIssues (writeThrough f w files n) = sumOver fixedIssues files + 1.
Proof.
  intros Hw Hle Hr Hi Hx Hfx. unfold sumOver. revert n Hle Hr.
  induction files as [|x files IH]; intros n Hle Hr; [done|].
  cbn [writeThrough map fold_right]. destruct (decide (n = ri)) as [->|Hne].
  - rewrite Nat.sub_diag in Hr. injection Hr as ->.
    rewrite writeThrough_none.
    + unfold fixedIssues at 1 3. simpl. destruct (Issues r) as [l|]; [|done]. simpl in *.
      rewrite (writeIssues_one f _ l O i issue); try done; [lia| |lia|by rewrite Nat.sub_0_r].
      intros j. rewrite Hw. split; [by intros [= ->] | by intros ->].
    + intros a b Ha. destruct (w (a, b)) eqn:E; [|done]. apply Hw in E.
      injection E as -> ->. lia.
  - replace (ri - n)%nat with (S (ri - S n)) in Hr by lia. simpl in Hr.
    rewrite (IH (S n)); [|lia|done].
    assert (Hsame : set_Issues x ((λ l, writeIssues f (λ i0, w (n, i0)) l O) <$> Issues x) = x).
    { destruct x as [pa ha la [l|] ig]; [|done]. unfold set_Issues. simpl.
      rewrite writeIssues_none; [done|]. intros j _.
      destruct (w (n, j)) eqn:E; [|done]. apply Hw in E. by injection E as -> ->. }
    rewrite Hsame. lia.
Qed.

Lemma heldWith_noSharing sameObject p q :
  noSharing sameObject → heldWith sameObject p q = true ↔ q = p.
Proof.
  intros Hn. unfold heldWith, slot_eqb. destruct p as [a b], q as [c d]. simpl. split.
  - intros [[->%Nat.eqb_eq ->%Nat.eqb_eq]%andb_true_iff | H%Hn]%orb_true_iff; congruence.
  - intros [= -> ->]. by rewrite !Nat.eqb_refl.
Qed.

Lemma writeFound_paths sameObject f ri found files :
  map Path (writeFound sameObject f ri found files) = map Path files.
Proof. destruct found; [apply writeThrough_paths | done]. Qed.

Lemma writeFound_nilFree sameObject f ri found files :
  Forall (λ r, nilFree (Issues r)) files →
  Forall (λ r, nilFree (Issues r)) (writeFound sameObject f ri found files).
Proof. destruct found; [apply writeThrough_nilFree | done]. Qed.

Lemma writeFound_ignored sameObject f ri found files k :
  Ignored <$> findRecord k (writeFound sameObject f ri found files)
  = Ignored <$> findRecord k files.
Proof. destruct found; [apply writeThrough_ignored | done]. Qed.

Lemma IsIssueIgnored_spec fc p id :
  IsIssueIgnored fc p id
  = match Ignored <$> findRecord p (Files (data fc)) with
    | Some ignored => (existsb (λ id0, String.eqb id0 id) (slice_elems ignored), None)
    | None => (false, None)
    end.
Proof. unfold IsIssueIgnored. by destruct (findRecord p (Files (data fc))). Qed.

(** After [IgnoreIssue] on a cached file the issue is reported as
    ignored, whether or not the file has an issue of that identifier;
    no other answer of [IsIssueIgnored] changes. *)
Theorem IgnoreIssue_round_trip sameObject fc now p id ty :
  diskNilFree fc → is_Some (GetFileRecord fc p) →
  ∃ fc' err, IgnoreIssue sameObject fc now p id ty = Some (fc', err)
    ∧ IsIssueIgnored fc' p id = (true, None)
    ∧ (∀ p' id', (p', id') ≠ (p, id) →
                 IsIssueIgnored fc' p' id' = IsIssueIgnored fc p' id')
    ∧ map Path (Files (data fc')) = map Path (Files (data fc))
    ∧ diskNilFree fc'
    ∧ statsAccurate fc'
    ∧ (err = None ↔ writable fc = true).
Proof.
  intros Hnf [r Hr]. unfold GetFileRecord in Hr. unfold IgnoreIssue.
  pose proof (findRecordAt_spec p (Files (data fc)) O) as Hat.
  destruct (findRecordAt p (Files (data fc)) O) as [[ri r0]|]; [|congruence].
  destruct Hat as (Hr0 & _ & _). assert (r0 = r) as -> by congruence.
  destruct (findRecord_Some _ _ _ Hr) as [Hpath Hin].
  assert (Hrn : nilFree (Issues r)) by by apply (findRecord_nilFree fc p r).
  destruct (findIssueAt_total id (slice_elems (Issues r)) O Hrn) as [found ->].
  cbn [mbind option_bind].
  set (ignored := if existsb _ _ then _ else _).
  set (files1 := replaceFirst p (set_Ignored r ignored) (Files (data fc))).
  set (files2 := writeFound sameObject _ ri found files1).
  set (fc1 := set_data fc (set_Files (data fc) files2)).
  assert (Hnf1 : diskNilFree fc1).
  { unfold diskNilFree, fc1. simpl. apply writeFound_nilFree. by apply replaceFirst_Forall. }
  destruct (updateStats_total fc1 Hnf1) as [fc2 Hfc2]. rewrite Hfc2. cbn [mbind option_bind].
  destruct (updateStats_accurate _ _ Hfc2) as (Hacc & _ & _ & _ & Hfiles & _).
  destruct (updateStats_inv _ _ Hfc2) as (_ & Hw & _).
  destruct (saveUnsafe fc2 now) as [fc' err] eqn:Hsave.
  destruct (saveUnsafe_inv _ _ _ _ Hsave) as (Hfiles' & Hw' & _).
  assert (HF : Files (data fc') = files2).
  { rewrite Hfiles', Hfiles. done. }
  assert (HI : ∀ k, Ignored <$> findRecord k (Files (data fc'))
                    = Ignored <$> findRecord k files1).
  { intros k. rewrite HF. apply writeFound_ignored. }
  assert (Hmem : existsb (λ id0, String.eqb id0 id) (slice_elems ignored) = true).
  { unfold ignored. destruct (existsb _ _) eqn:E; [done|]. simpl.
    rewrite existsb_snoc, String.eqb_refl. apply orb_true_r. }
  exists fc', err. split; [done|]. split; [|split; [|split; [|split; [|split]]]].
  - rewrite IsIssueIgnored_spec, HI. unfold files1.
    rewrite (findRecord_replaceFirst p (set_Ignored r ignored) _ r Hr Hpath). simpl.
    by rewrite Hmem.
  - intros p' id' Hne. rewrite !IsIssueIgnored_spec, HI. unfold files1.
    destruct (decide (p' = p)) as [->|Hp].
    + rewrite (findRecord_replaceFirst p (set_Ignored r ignored) _ r Hr Hpath), Hr.
      simpl. f_equal.
      unfold ignored. destruct (existsb _ _) eqn:E; [done|]. simpl.
      rewrite existsb_snoc. assert (id ≠ id') by congruence.
      assert (String.eqb id id' = false) as -> by by apply String.eqb_neq.
      apply orb_false_r.
    + by rewrite (findRecord_replaceFirst_ne p p' (set_Ignored r ignored) _ Hp Hpath).
  - rewrite HF. unfold files2. rewrite writeFound_paths.
    by apply (replaceFirst_paths p (set_Ignored r ignored)).
  - unfold diskNilFree. by rewrite HF.
  - replace fc' with (fst (saveUnsafe fc2 now)) by by rewrite Hsave.
    by apply statsAccurate_saveUnsafe.
  - unfold saveUnsafe in Hsave. rewrite Hw in Hsave. unfold fc1 in Hsave. simpl in Hsave.
    destruct (writable fc); injection Hsave as <- <-; done.
Qed.

(** [MarkIssueFixed] of an issue not fixed before, at a time that is not
    the zero time, counts one more fixed issue and leaves the other
    totals as they are, when no issue object is held at two slots of the
    store. *)
Theorem MarkIssueFixed_counts sameObject fc now p id r issue :
  noSharing sameObject →
  diskNilFree fc → statsAccurate fc → GetFileRecord fc p = Some r →
  List.find (hasID id) (slice_elems (Issues r)) = Some (Some issue) →
  IsZero (FixedAt issue) = true → IsZero now = false →
  ∃ fc' err, MarkIssueFixed sameObject fc now p id = Some (fc', err)
    ∧ FixedIssues (Stats (data fc')) = int_add (FixedIssues (Stats (data fc))) 1
    ∧ TotalFiles (Stats (data fc')) = TotalFiles (Stats (data fc))
    ∧ TotalIssues (Stats (data fc')) = TotalIssues (Stats (data fc))
    ∧ IgnoredIssues (Stats (data fc')) = IgnoredIssues (Stats (data fc))
    ∧ (∀ p' id', IsIssueIgnored fc' p' id' = IsIssueIgnored fc p' id').
Proof.
  intros Hns Hnf Hacc Hr Hfind Hz Hnow. unfold GetFileRecord in Hr. unfold MarkIssueFixed.
  pose proof (findRecordAt_spec p (Files (data fc)) O) as Hat.
  destruct (findRecordAt p (Files (data fc)) O) as [[ri r0]|]; [|congruence].
  destruct Hat as (Hr0 & _ & Hri). assert (r0 = r) as -> by congruence.
  rewrite Nat.sub_0_r in Hri.
  assert (Hrn : nilFree (Issues r)) by by apply (findRecord_nilFree fc p r).
  destruct (findIssueAt_found id _ O issue Hrn Hfind) as (i & -> & _ & Hi).
  rewrite Nat.sub_0_r in Hi. cbn [mbind option_bind writeFound].
  set (files2 := writeThrough _ _ (Files (data fc)) O).
  set (fc1 := set_data fc (set_Files (data fc) files2)).
  assert (Hnf1 : diskNilFree fc1).
  { unfold diskNilFree, fc1. simpl. by apply writeThrough_nilFree. }
  destruct (updateStats_total fc1 Hnf1) as [fc2 Hfc2]. rewrite Hfc2. cbn [mbind option_bind].
  destruct (updateStats_accurate _ _ Hfc2) as (Hacc2 & _ & _ & _ & Hfiles & _).
  destruct (saveUnsafe fc2 now) as [fc' err] eqn:Hsave.
  destruct (saveUnsafe_rules fc2 now) as (_ & Hfiles' & Hstats'). rewrite Hsave in *.
  simpl in Hfiles', Hstats'.
  assert (HF : Files (data fc') = files2).
  { rewrite Hfiles', Hfiles. done. }
  destruct Hacc as (A1 & A2 & A3 & A4). destruct Hacc2 as (B1 & B2 & B3 & B4).
  rewrite Hfiles in B1, B2, B3, B4. unfold fc1 in B1, B2, B3, B4. simpl in B1, B2, B3, B4.
  exists fc', err. split; [done|]. rewrite Hstats'.
  split; [|split; [|split; [|split]]].
  - rewrite B4, A4, int_add_wrap. f_equal. unfold files2.
    apply (sumOver_writeThrough_one _ _ _ O ri i r issue).
    + intros q. by apply heldWith_noSharing.
    + lia.
    + by rewrite Nat.sub_0_r.
    + done.
    + simpl. by rewrite Hz.
    + simpl. by rewrite Hnow.
  - rewrite B1, A1. f_equal. unfold files2. by rewrite writeThrough_length.
  - rewrite B2, A2. f_equal. apply sumOver_writeThrough_issues.
  - rewrite B3, A3. f_equal. apply sumOver_writeThrough_ignored.
  - intros p' id'. rewrite !IsIssueIgnored_spec, HF. unfold files2.
    by rewrite writeThrough_ignored.
Qed.

(** [MarkIssueFixed] with an identifier no issue of the file has reports
    no error: the records stay as they are and the cache file is written
    again. *)
Theorem MarkIssueFixed_unknown_issue sameObject fc now p id r :
  diskNilFree fc → GetFileRecord fc p = Some r →
  List.find (hasID id) (slice_elems (Issues r)) = None →
  ∃ fc' err, MarkIssueFixed sameObject fc now p id = Some (fc', err)
    ∧ Files (data fc') = Files (data fc)
    ∧ (err = None ↔ writable fc = true)
    ∧ (writable fc = true → persisted fc' = Some (data fc')).
Proof.
  intros Hnf Hr Hfind. unfold GetFileRecord in Hr. unfold MarkIssueFixed.
  pose proof (findRecordAt_spec p (Files (data fc)) O) as Hat.
  destruct (findRecordAt p (Files (data fc)) O) as [[ri r0]|]; [|congruence].
  destruct Hat as (Hr0 & _ & _). assert (r0 = r) as -> by congruence.
  assert (Hrn : nilFree (Issues r)) by by apply (findRecord_nilFree fc p r).
  rewrite (findIssueAt_absent id _ O Hrn Hfind). cbn [mbind option_bind writeFound].
  assert (Hd : set_data fc (set_Files (data fc) (Files (data fc))) = fc).
  { destruct fc as [bd cd [] ps w]. done. }
  rewrite Hd. destruct (updateStats_total fc Hnf) as [fc2 Hfc2]. rewrite Hfc2.
  cbn [mbind option_bind].
  destruct (updateStats_inv _ _ Hfc2) as (Hfiles & Hw & _).
  destruct (saveUnsafe fc2 now) as [fc' err] eqn:Hsave.
  destruct (saveUnsafe_inv _ _ _ _ Hsave) as (Hfiles' & Hw' & Hp).
  exists fc', err. split; [done|]. split; [by rewrite Hfiles', Hfiles|]. split.
  - unfold saveUnsafe in Hsave. rewrite Hw in Hsave.
    destruct (writable fc); injection Hsave as <- <-; done.
  - intros Hwt. apply Hp. by rewrite Hw.
Qed.

(** ** Change detection *)

(** Right after [SaveFileRecord] stored a file under its hash,
    [IsFileChanged] reports a change exactly when the hash it is given
    differs, and counts one hit or one miss accordingly. *)
Theorem saved_file_change_detection fc now p h issues fc' err h' :
  diskUnique fc → SaveFileRecord fc now p (Some h) issues = Some (fc', err) →
  snd (IsFileChanged fc' p (Some h')) = (negb (String.eqb h h'), None)
  ∧ Files (data (fst (IsFileChanged fc' p (Some h')))) = Files (data fc')
  ∧ CacheHits (Stats (data (fst (IsFileChanged fc' p (Some h')))))
    = (if String.eqb h h' then int_add (CacheHits (Stats (data fc'))) 1
       else CacheHits (Stats (data fc')))
  ∧ CacheMisses (Stats (data (fst (IsFileChanged fc' p (Some h')))))
    = (if String.eqb h h' then CacheMisses (Stats (data fc'))
       else int_add (CacheMisses (Stats (data fc'))) 1).
Proof.
  intros Hu Hsave. unfold SaveFileRecord in Hsave.
  apply bind_Some in Hsave as (fc2 & Hfc2 & Hsave). injection Hsave as Hsave.
  destruct (updateStats_inv _ _ Hfc2) as (Hfiles & _ & _). simpl in Hfiles.
  destruct (saveUnsafe_inv _ _ _ _ Hsave) as (Hfiles' & _ & _).
  set (record := {| Path := p; Hash := h; LastAnalyzed := now;
                    Issues := convertIssues issues; Ignored := _ |}) in *.
  assert (Hfind : findRecord p (Files (data fc')) = Some record).
  { rewrite Hfiles', Hfiles, findRecord_app.
    destruct (removeFirst_NoDup p _ Hu) as [_ Hnot].
    apply findRecord_None in Hnot. rewrite Hnot. simpl. by rewrite String.eqb_refl. }
  unfold IsFileChanged. rewrite Hfind. simpl.
  destruct (String.eqb h h'); done.
Qed.

Lemma IgnoreIssue_round_trip_witness :
  ∃ fc' err, IgnoreIssue heldTwice diskOne 5 "a.go" "issue-17" "manual" = Some (fc', err)
    ∧ IsIssueIgnored fc' "a.go" "issue-17" = (true, None)
    ∧ (∀ p' id', (p', id') ≠ ("a.go", "issue-17")%string →
                 IsIssueIgnored fc' p' id' = IsIssueIgnored diskOne p' id')
    ∧ map Path (Files (data fc')) = map Path (Files (data diskOne))
    ∧ diskNilFree fc'
    ∧ statsAccurate fc'
    ∧ (err = None ↔ writable diskOne = true).
Proof.
  apply (IgnoreIssue_round_trip heldTwice diskOne 5 "a.go" "issue-17" "manual").
  - repeat econstructor.
  - by eexists.
Defined.

Lemma MarkIssueFixed_counts_witness :
  ∃ fc' err, MarkIssueFixed unshared diskOne 5 "a.go" "" = Some (fc', err)
    ∧ FixedIssues (Stats (data fc')) = int_add (FixedIssues (Stats (data diskOne))) 1
    ∧ TotalFiles (Stats (data fc')) = TotalFiles (Stats (data diskOne))
    ∧ TotalIssues (Stats (data fc')) = TotalIssues (Stats (data diskOne))
    ∧ IgnoredIssues (Stats (data fc')) = IgnoredIssues (Stats (data diskOne))
    ∧ (∀ p' id', IsIssueIgnored fc' p' id' = IsIssueIgnored diskOne p' id').
Proof.
  apply (MarkIssueFixed_counts unshared diskOne 5 "a.go" ""
           (recordOf "a.go" "h1" (Some [Some (issueAt 0 3 "nested loop")]) None)
           (issueAt 0 3 "nested loop")).
  - intros p q H. discriminate H.
  - repeat econstructor.
  - repeat split; reflexivity.
  - reflexivity.
  - reflexivity.
  - reflexivity.
  - reflexivity.
Defined.

Lemma MarkIssueFixed_unknown_issue_witness :
  ∃ fc' err, MarkIssueFixed heldTwice diskOne 5 "a.go" "issue-17" = Some (fc', err)
    ∧ Files (data fc') = Files (data diskOne)
    ∧ (err = None ↔ writable diskOne = true)
    ∧ (writable diskOne = true → persisted fc' = Some (data fc')).
Proof.
  apply (MarkIssueFixed_unknown_issue heldTwice diskOne 5 "a.go" "issue-17"
           (recordOf "a.go" "h1" (Some [Some (issueAt 0 3 "nested loop")]) None)).
  - repeat econstructor.
  - reflexivity.
  - reflexivity.
Defined.

(** An issue object held at two slots of a record is counted twice once
    it is fixed. *)
Example MarkIssueFixed_shared_pointer :
  statsAccurate diskTwice
  ∧ FixedIssues (Stats (data diskTwice)) = 0
  ∧ (FixedIssues ∘ Stats ∘ data ∘ fst) <$> MarkIssueFixed heldTwice diskTwice 5 "a.go" ""
    = Some 2
  ∧ (FixedIssues ∘ Stats ∘ data ∘ fst) <$> MarkIssueFixed unshared diskTwice 5 "a.go" ""
    = Some 1.
Proof. repeat split; reflexivity. Qed.

Lemma saved_file_change_detection_witness :
  snd (IsFileChanged (fst afterSave) "a.go" (Some "h2")) = (negb (String.eqb "h1" "h2"), None)
  ∧ Files (data (fst (IsFileChanged (fst afterSave) "a.go" (Some "h2"))))
    = Files (data (fst afterSave))
  ∧ CacheHits (Stats (data (fst (IsFileChanged (fst afterSave) "a.go" (Some "h2")))))
    = (if String.eqb "h1" "h2" then int_add (CacheHits (Stats (data (fst afterSave)))) 1
       else CacheHits (Stats (data (fst afterSave))))
  ∧ CacheMisses (Stats (data (fst (IsFileChanged (fst afterSave) "a.go" (Some "h2")))))
    = (if String.eqb "h1" "h2" then CacheMisses (Stats (data (fst afterSave)))
       else int_add (CacheMisses (Stats (data (fst afterSave)))) 1).
Proof.
  apply (saved_file_change_detection (diskOf []) 7 "a.go" "h1" [] (fst afterSave)
           (snd afterSave) "h2").
  - apply NoDup_nil. constructor.
  - reflexivity.
Defined.

(** ** Hybrid cache: reading back, flushing, closing, clearing *)

Lemma entry_eta r e :
  Hash r = Entry_Hash e → Issues r = Entry_Issues e →
  {| Entry_Hash := Hash r; Entry_Issues := Issues r |} = e.
Proof. destruct e. simpl. by intros -> ->. Qed.

(** An entry that is kept is what [Get] returns. *)
Lemma kept_Get hc now k e :
  WF hc → kept hc k e → ∃ hc', Get hc now k = Some (hc', Some e) ∧ WF hc'.
Proof.
  intros HWF Hkept.
  destruct (Get_spec hc now k HWF) as (hc' & r & HG & HWF' & _ & _ & Hres & _).
  exists hc'. split; [|done]. rewrite HG. do 2 f_equal.
  destruct Hkept as [[Hr _]|[Hmem [(rec & Hfind & Hh & Hi) _]]]; [by apply Hres|].
  unfold Get in HG. rewrite Hmem in HG. unfold GetFileRecord in HG. rewrite Hfind in HG.
  apply bind_Some in HG as (hc1 & _ & HG). injection HG as _ <-. f_equal.
  by apply entry_eta.
Qed.

Lemma WF_set_diskCache hc fc :
  WF hc → diskUnique fc → diskNilFree fc → WF (set_diskCache hc fc).
Proof. intros (Hm & _ & _ & Hn) Hu Hf. done. Qed.

Lemma onDisk_saveUnsafe fc now k e :
  onDisk fc k e → onDisk (fst (saveUnsafe fc now)) k e.
Proof.
  intros [Hh Hp]. destruct (saveUnsafe fc now) as [fc' err] eqn:Hs.
  destruct (saveUnsafe_inv _ _ _ _ Hs) as (Hfiles & Hw & Hpers). simpl.
  split; [by rewrite Hfiles|]. intros Hwt. rewrite Hw in Hwt.
  exists (data fc'). split; [by apply Hpers | by rewrite Hfiles].
Qed.

Lemma saveUnsafe_err fc now : snd (saveUnsafe fc now) = None ↔ writable fc = true.
Proof. unfold saveUnsafe. by destruct (writable fc). Qed.

Lemma SaveRawRecord_writable fc now k e fc' err :
  SaveRawRecord fc now k e = Some (fc', err) → writable fc' = writable fc.
Proof. intros H. by destruct (SaveRawRecord_inv _ _ _ _ _ _ H) as (_ & ? & _). Qed.

(** The loop of [Flush]: memory is left alone; what memory holds for the
    keys visited is on disk afterwards, and what was on disk for a key
    stays there unless memory holds something else for it. *)
Lemma flushKeys_spec keys hc now :
  WF hc →
  ∃ hc', flushKeys keys hc now = Some hc'
    ∧ WF hc'
    ∧ memCache hc' = memCache hc ∧ lru hc' = lru hc ∧ elements hc' = elements hc
    ∧ nextElement hc' = nextElement hc ∧ maxItems hc' = maxItems hc
    ∧ dirtyKeys hc' = dirtyKeys hc
    ∧ writable (diskCache hc') = writable (diskCache hc)
    ∧ (∀ k e, memCache hc !! k = None ∨ resident hc k = Some e →
              onDisk (diskCache hc) k e → onDisk (diskCache hc') k e)
    ∧ (∀ k e, k ∈ keys → resident hc k = Some e → onDisk (diskCache hc') k e).
Proof.
  revert hc. induction keys as [|k0 keys IH]; intros hc HWF.
  - exists hc. repeat (split; [done|]). intros k e Hk. by apply elem_of_nil in Hk.
  - cbn [flushKeys].
    destruct (memCache hc !! k0) as [id|] eqn:Hmem.
    + destruct HWF as (Hmo & Hdu & Hdn & Hmn).
      destruct (memOK_key hc k0 id Hmo Hmem) as (Hin & item & Hitem & Hkey).
      rewrite Hitem. cbn [mbind option_bind].
      assert (Hen : nilFree (Entry_Issues (entry item))) by by eapply Hmn.
      destruct (SaveRawRecord_total (diskCache hc) now k0 (entry item) Hdn Hen)
        as [[fc1 err1] Hsave].
      unfold flushItem. rewrite Hsave. cbn [mbind option_bind].
      destruct (SaveRawRecord_keeps_WF _ _ _ _ _ _ Hsave) as [Hu1 Hn1].
      assert (HWF1 : WF (set_diskCache hc fc1)).
      { apply WF_set_diskCache; [done | by apply Hu1 | by apply Hn1]. }
      destruct (IH _ HWF1) as (hc' & Hrun & HWF' & E1 & E2 & E3 & E4 & E5 & E6 & E7 & P1 & P2).
      exists hc'. split; [done|]. split; [done|]. simpl in *.
      repeat (split; [done|]).
      split; [by rewrite E7, (SaveRawRecord_writable _ _ _ _ _ _ Hsave)|].
      assert (Hres0 : resident hc k0 = Some (entry item)).
      { apply resident_Some. by exists id, item. }
      split.
      * intros k e Hk Hon. apply P1; [exact Hk|].
        destruct (decide (k = k0)) as [->|Hne].
        -- destruct Hk as [Hk|Hk]; [congruence|].
           assert (e = entry item) as -> by (unfold resident in *; simpl in *; congruence).
           by eapply onDisk_saved.
        -- by eapply onDisk_other_saved.
      * intros k e [->|Hk]%elem_of_cons Hres.
        -- apply P1; [by right|].
           assert (e = entry item) as -> by congruence.
           by eapply onDisk_saved.
        -- by apply P2.
    + cbn [mbind option_bind].
      destruct (IH _ HWF) as (hc' & Hrun & HWF' & E1 & E2 & E3 & E4 & E5 & E6 & E7 & P1 & P2).
      exists hc'. repeat (split; [done|]).
      intros k e [->|Hk]%elem_of_cons Hres; [|by apply P2].
      apply resident_memCache in Hres as [? Hres]. congruence.
Qed.

Lemma Flush_spec rangeOrder hc now :
  WF hc → (∀ k, k ∈ dirtyKeys hc → k ∈ rangeOrder (dirtyKeys hc)) →
  ∃ hc' err, Flush rangeOrder hc now = Some (hc', err)
    ∧ WF hc'
    ∧ dirtyKeys hc' = ∅
    ∧ memCache hc' = memCache hc ∧ lru hc' = lru hc ∧ elements hc' = elements hc
    ∧ maxItems hc' = maxItems hc
    ∧ writable (diskCache hc') = writable (diskCache hc)
    ∧ (err = None ↔ writable (diskCache hc) = true)
    ∧ (writable (diskCache hc) = true
       → persisted (diskCache hc') = Some (data (diskCache hc')))
    ∧ (∀ k e, kept hc k e → onDisk (diskCache hc') k e).
Proof.
  intros HWF Hrange. unfold Flush.
  destruct (flushKeys_spec (rangeOrder (dirtyKeys hc)) hc now HWF)
    as (hc1 & -> & HWF1 & E1 & E2 & E3 & E4 & E5 & E6 & E7 & P1 & P2).
  cbn [mbind option_bind]. unfold save.
  change (diskCache (set_dirtyKeys hc1 ∅)) with (diskCache hc1).
  pose proof (onDisk_saveUnsafe (diskCache hc1) now) as Hon.
  pose proof (saveUnsafe_err (diskCache hc1) now) as Herr.
  destruct (saveUnsafe (diskCache hc1) now) as [fc' err] eqn:Hs.
  destruct (saveUnsafe_inv _ _ _ _ Hs) as (Hfiles & Hw & Hpers). simpl in Hon, Herr.
  exists (set_diskCache (set_dirtyKeys hc1 ∅) fc'), err. split; [done|].
  destruct HWF1 as (Hmo & Hdu & Hdn & Hmn).
  split.
  { apply WF_set_diskCache; [by apply WF_set_dirtyKeys | |].
    - unfold diskUnique. by rewrite Hfiles.
    - unfold diskNilFree. by rewrite Hfiles. }
  simpl. repeat (split; [done|]).
  split; [by rewrite Hw, E7|]. split; [by rewrite <- E7|].
  split; [intros Hwt; apply Hpers; by rewrite E7|].
  intros k e [[Hr [Hd|Hd]]|[Hm Hd]]; apply Hon.
  - apply P2; [by apply Hrange | done].
  - apply P1; [by right | done].
  - apply P1; [by left | done].
Qed.

(** Every entry a run of [Get] and [Put] put last under its key is read
    back by [Get], from memory or, after an eviction, from the disk
    store. *)
Theorem Get_returns_last_Put disk maxItems0 now0 ops k e now :
  diskUnique disk → diskNilFree disk → Forall opNilFree ops →
  lastPut k ops = Some e →
  ∃ hc0 hc hc',
    NewHybridCache disk maxItems0 now0 = Some hc0
    ∧ run ops hc0 = Some hc
    ∧ Get hc now k = Some (hc', Some e).
Proof.
  intros Hu Hn Hops Hlast.
  destruct (NewHybridCache_WF disk maxItems0 now0 Hu Hn) as (hc0 & Hnew & HWF0 & _).
  destruct (run_spec ops hc0 HWF0 Hops) as (hc & Hrun & HWF & _ & _ & _ & Hkept & _).
  destruct (kept_Get hc now k e HWF (Hkept k e Hlast)) as (hc' & HG & _).
  by exists hc0, hc, hc'.
Qed.

(** [Flush] after any run: every entry put last under its key is in the
    disk store, and in the cache file when it can be written; the dirty
    set is empty and memory is as before.  The order in which the dirty
    keys are visited does not matter, as long as each one is visited. *)
Theorem Flush_persists_latest rangeOrder disk maxItems0 now0 ops now :
  diskUnique disk → diskNilFree disk → Forall opNilFree ops →
  (∀ (X : gset string) k, k ∈ X → k ∈ rangeOrder X) →
  ∃ hc0 hc hc' err,
    NewHybridCache disk maxItems0 now0 = Some hc0
    ∧ run ops hc0 = Some hc
    ∧ Flush rangeOrder hc now = Some (hc', err)
    ∧ dirtyKeys hc' = ∅
    ∧ memCache hc' = memCache hc ∧ lru hc' = lru hc ∧ elements hc' = elements hc
    ∧ (err = None ↔ writable (diskCache hc) = true)
    ∧ (∀ k e, lastPut k ops = Some e → onDisk (diskCache hc') k e).
Proof.
  intros Hu Hn Hops Hrange.
  destruct (NewHybridCache_WF disk maxItems0 now0 Hu Hn) as (hc0 & Hnew & HWF0 & _).
  destruct (run_spec ops hc0 HWF0 Hops) as (hc & Hrun & HWF & _ & _ & _ & Hkept & _).
  destruct (Flush_spec rangeOrder hc now HWF (Hrange _))
    as (hc' & err & HF & _ & Hd & E1 & E2 & E3 & _ & _ & Herr & _ & Hon).
  exists hc0, hc, hc', err. repeat (split; [done|]).
  intros k e Hlast. by apply Hon, Hkept.
Qed.

Lemma Close_spec rangeOrder hc now :
  WF hc → (∀ k, k ∈ dirtyKeys hc → k ∈ rangeOrder (dirtyKeys hc)) →
  ∃ hc' err, Close rangeOrder hc now = Some (hc', err)
    ∧ (err = None ↔ writable (diskCache hc) = true)
    ∧ (writable (diskCache hc) = true →
       ∃ d, persisted (diskCache hc') = Some d
            ∧ ∀ k e, kept hc k e → holds (Files d) k e).
Proof.
  intros HWF Hrange.
  destruct (Flush_spec rangeOrder hc now HWF Hrange)
    as (hc1 & err1 & HF & _ & Hd & E1 & E2 & E3 & _ & Hw1 & Herr & _ & Hon).
  unfold Close. rewrite HF. cbn [mbind option_bind].
  destruct err1 as [msg|].
  - exists hc1, (Some msg). repeat (split; [done|]).
    intros Hwt. apply Herr in Hwt. done.
  - unfold FileCache_Close, save.
    pose proof (saveUnsafe_err (diskCache hc1) now) as Herr2.
    destruct (saveUnsafe (diskCache hc1) now) as [fc' err] eqn:Hs.
    destruct (saveUnsafe_inv _ _ _ _ Hs) as (Hfiles & Hw & Hpers). simpl in Herr2.
    exists (set_diskCache hc1 fc'), err. split; [done|].
    split; [by rewrite Herr2, Hw1|].
    intros Hwt. exists (data fc'). simpl. split; [apply Hpers; by rewrite Hw1|].
    intros k e Hk. rewrite Hfiles. by apply (Hon k e Hk).
Qed.

(** [Close] after any run, when the cache file can be written: no error,
    and the cache file holds, for every key that was put, a record with
    the hash and the issues put last. *)
Theorem Close_writes_cache_file rangeOrder disk maxItems0 now0 ops now :
  diskUnique disk → diskNilFree disk → Forall opNilFree ops →
  (∀ (X : gset string) k, k ∈ X → k ∈ rangeOrder X) →
  ∃ hc0 hc hc' err,
    NewHybridCache disk maxItems0 now0 = Some hc0
    ∧ run ops hc0 = Some hc
    ∧ Close rangeOrder hc now = Some (hc', err)
    ∧ (err = None ↔ writable (diskCache hc) = true)
    ∧ (writable (diskCache hc) = true →
       ∃ d, persisted (diskCache hc') = Some d
            ∧ ∀ k e, lastPut k ops = Some e →
                     ∃ r, findRecord k (Files d) = Some r
                          ∧ Hash r = Entry_Hash e ∧ Issues r = Entry_Issues e).
Proof.
  intros Hu Hn Hops Hrange.
  destruct (NewHybridCache_WF disk maxItems0 now0 Hu Hn) as (hc0 & Hnew & HWF0 & _).
  destruct (run_spec ops hc0 HWF0 Hops) as (hc & Hrun & HWF & _ & _ & _ & Hkept & _).
  destruct (Close_spec rangeOrder hc now HWF (Hrange _)) as (hc' & err & HC & Herr & Hp).
  exists hc0, hc, hc', err. repeat (split; [done|]).
  intros Hwt. destruct (Hp Hwt) as (d & Hd & Hall). exists d. split; [done|].
  intros k e Hlast. by apply Hall, Hkept.
Qed.

(** After [Clear] every [Get] misses and leaves the cache as it is;
    nothing is dirty, the disk store has no record and no rule, and the
    cache file, when it can be written, holds the empty store. *)
Theorem Clear_forgets_everything hc now now' k :
  Get (fst (Clear hc now)) now' k = Some (fst (Clear hc now), None)
  ∧ dirtyKeys (fst (Clear hc now)) = ∅
  ∧ lru (fst (Clear hc now)) = []
  ∧ maxItems (fst (Clear hc now)) = maxItems hc
  ∧ Files (data (diskCache (fst (Clear hc now)))) = []
  ∧ IgnoredRules (data (diskCache (fst (Clear hc now)))) = []
  ∧ (snd (Clear hc now) = None ↔ writable (diskCache hc) = true)
  ∧ (writable (diskCache hc) = true →
     persisted (diskCache (fst (Clear hc now))) = Some (emptyData now)).
Proof.
  unfold Clear, ClearCache, saveUnsafe, Get, GetFileRecord. simpl.
  destruct (writable (diskCache hc)); simpl; rewrite lookup_empty; simpl; done.
Qed.

Lemma Get_returns_last_Put_witness :
  ∃ hc0 hc hc',
    NewHybridCache (diskWith []) 1 0 = Some hc0
    ∧ run [OpPut 1 "a.go" entryA; OpPut 2 "b.go" entryB] hc0 = Some hc
    ∧ Get hc 3 "a.go" = Some (hc', Some entryA).
Proof.
  apply (Get_returns_last_Put (diskWith []) 1 0
           [OpPut 1 "a.go" entryA; OpPut 2 "b.go" entryB] "a.go" entryA 3).
  - constructor.
  - constructor.
  - repeat constructor; eexists; reflexivity.
  - reflexivity.
Defined.

Lemma Flush_persists_latest_witness :
  ∃ hc0 hc hc' err,
    NewHybridCache (diskWith []) 2 0 = Some hc0
    ∧ run [OpPut 1 "a.go" entryA; OpPut 2 "b.go" entryB] hc0 = Some hc
    ∧ Flush someRangeOrder hc 3 = Some (hc', err)
    ∧ dirtyKeys hc' = ∅
    ∧ memCache hc' = memCache hc ∧ lru hc' = lru hc ∧ elements hc' = elements hc
    ∧ (err = None ↔ writable (diskCache hc) = true)
    ∧ (∀ k e, lastPut k [OpPut 1 "a.go" entryA; OpPut 2 "b.go" entryB] = Some e →
              onDisk (diskCache hc') k e).
Proof.
  apply (Flush_persists_latest someRangeOrder (diskWith []) 2 0
           [OpPut 1 "a.go" entryA; OpPut 2 "b.go" entryB] 3).
  - constructor.
  - constructor.
  - repeat constructor; eexists; reflexivity.
  - intros X k Hk. apply elem_of_elements. exact Hk.
Defined.

Lemma Close_writes_cache_file_witness :
  ∃ hc0 hc hc' err,
    NewHybridCache (diskWith []) 2 0 = Some hc0
    ∧ run [OpPut 1 "a.go" entryA; OpPut 2 "b.go" entryB] hc0 = Some hc
    ∧ Close someRangeOrder hc 3 = Some (hc', err)
    ∧ (err = None ↔ writable (diskCache hc) = true)
    ∧ (writable (diskCache hc) = true →
       ∃ d, persisted (diskCache hc') = Some d
            ∧ ∀ k e, lastPut k [OpPut 1 "a.go" entryA; OpPut 2 "b.go" entryB] = Some e →
                     ∃ r, findRecord k (Files d) = Some r
                          ∧ Hash r = Entry_Hash e ∧ Issues r = Entry_Issues e).
Proof.
  apply (Close_writes_cache_file someRangeOrder (diskWith []) 2 0
           [OpPut 1 "a.go" entryA; OpPut 2 "b.go" entryB] 3).
  - constructor.
  - constructor.
  - repeat constructor; eexists; reflexivity.
  - intros X k Hk. apply elem_of_elements. exact Hk.
Defined.
(** ** Hybrid cache: the order of eviction *)

Lemma omap_ext_in {A B} (f g : A → option B) (l : list A) :
  (∀ x, x ∈ l → f x = g x) → omap f l = omap g l.
Proof.
  intros H. apply list_omap_ext, Forall2_same_length_lookup. split; [done|].
  intros i x y Hx Hy. assert (x = y) as -> by congruence.
  apply H. by eapply list_elem_of_lookup_2.
Qed.

Lemma omap_cons {A B} (f : A → option B) x (l : list A) :
  omap f (x :: l) = match f x with Some y => y :: omap f l | None => omap f l end.
Proof. reflexivity. Qed.

Lemma omap_filter_key {A B} `{EqDecision A, EqDecision B} (f : A → option B)
    (l : list A) id k :
  (∀ x, x ∈ l → (f x = Some k ↔ x = id)) → (∀ x, x ∈ l → is_Some (f x)) →
  omap f (filter (λ x, x ≠ id) l) = filter (λ y, y ≠ k) (omap f l).
Proof.
  induction l as [|x l IH]; intros H Hdef; [done|].
  assert (IH' : omap f (filter (λ x, x ≠ id) l) = filter (λ y, y ≠ k) (omap f l)).
  { apply IH; intros y Hy; [apply H | apply Hdef]; by right. }
  destruct (Hdef x ltac:(left)) as [y Hy].
  rewrite filter_cons, omap_cons, Hy, filter_cons.
  destruct (decide (x ≠ id)) as [Hx|Hx].
  - rewrite omap_cons, Hy. rewrite decide_True; [by rewrite IH'|].
    intros ->. apply Hx. by apply (H x ltac:(left)).
  - apply dec_stable in Hx. subst x. rewrite decide_False; [done|].
    intros Hne. apply Hne. assert (f id = Some k) by by apply (H id ltac:(left)).
    congruence.
Qed.

Lemma keyOf_lru hc id : memOK hc → id ∈ lru hc → is_Some (keyOf hc id).
Proof.
  intros (_ & _ & Hel & _) Hin. destruct (Hel id Hin) as [item Hitem].
  unfold keyOf. rewrite Hitem. by eexists.
Qed.

Lemma keyOf_inj hc id1 id2 k :
  memOK hc → id1 ∈ lru hc → id2 ∈ lru hc →
  keyOf hc id1 = Some k → keyOf hc id2 = Some k → id1 = id2.
Proof.
  intros (_ & _ & _ & Hb & _) H1 H2 K1 K2. unfold bijection in Hb.
  assert (memCache hc !! k = Some id1) by by apply Hb.
  assert (memCache hc !! k = Some id2) by by apply Hb. congruence.
Qed.

Lemma keysByRecency_length hc : memOK hc → length (keysByRecency hc) = length (lru hc).
Proof.
  intros Hm. unfold keysByRecency.
  assert (H : ∀ id, id ∈ lru hc → is_Some (keyOf hc id)) by (intros; by apply keyOf_lru).
  induction (lru hc) as [|x l IH]; [done|]. rewrite omap_cons.
  destruct (H x ltac:(left)) as [y ->]. simpl. f_equal. apply IH.
  intros id Hid. apply H. by right.
Qed.

Lemma keysByRecency_elem hc k :
  memOK hc → k ∈ keysByRecency hc ↔ is_Some (memCache hc !! k).
Proof.
  intros (_ & _ & _ & Hb & _). unfold keysByRecency, bijection in *.
  rewrite list_elem_of_omap. split.
  - intros (id & Hin & Hk). exists id. by apply Hb.
  - intros [id Hid]. exists id. by apply Hb.
Qed.

(** A hit moves the key to the front. *)
Lemma touch_order hc k id item item' hc' :
  memOK hc → memCache hc !! k = Some id → elements hc !! id = Some item →
  key item' = key item →
  hc' = set_element (set_mem hc (memCache hc) (list_MoveToFront id (lru hc))) id item' →
  keysByRecency hc' = k :: filter (λ x, x ≠ k) (keysByRecency hc).
Proof.
  intros Hm Hmem Hitem Hkey ->.
  destruct (memOK_key hc k id Hm Hmem) as (Hin & item0 & Hitem0 & Hk0).
  assert (item0 = item) as -> by congruence.
  unfold keysByRecency. cbn [lru set_element set_mem].
  unfold list_MoveToFront. rewrite decide_True by done.
  assert (Hsame : ∀ x, keyOf (set_element (set_mem hc (memCache hc)
                                  (id :: list_Remove id (lru hc))) id item') x
                      = keyOf hc x).
  { intros x. unfold keyOf. cbn [elements set_element set_mem].
    destruct (decide (x = id)) as [->|Hne].
    - rewrite lookup_insert_eq, Hitem. simpl. by rewrite Hkey.
    - by rewrite lookup_insert_ne. }
  rewrite (omap_ext_in _ (keyOf hc)) by (intros; apply Hsame).
  simpl. assert (Hkid : keyOf hc id = Some k) by (unfold keyOf; by rewrite Hitem; simpl; f_equal).
  rewrite Hkid. f_equal. unfold list_Remove. apply omap_filter_key.
  - intros x Hx. split; [|by intros ->].
    intros Hxk. by apply (keyOf_inj hc x id k).
  - intros x Hx. by apply keyOf_lru.
Qed.

(** An eviction drops the last key. *)
Lemma evict_order hc now hc1 :
  WF hc → lru hc ≠ [] → evictOldest hc now = Some hc1 →
  ∃ victim, keysByRecency hc = keysByRecency hc1 ++ [victim].
Proof.
  intros HWF Hne Hev. destruct HWF as (Hm & _).
  destruct (evictOldest_inv _ _ _ Hev) as [[Hnil _]|(id & item & Hlast & Hitem & Hlru & _ & Hel & _)];
    [done|].
  apply last_Some in Hlast as [l' Hl'].
  exists (key item). unfold keysByRecency. rewrite Hlru, Hl'.
  rewrite omap_app. simpl.
  assert (Hkid : keyOf hc id = Some (key item)) by (unfold keyOf; by rewrite Hitem).
  rewrite Hkid. simpl. f_equal.
  destruct Hm as (Hnd & _). rewrite Hl' in Hnd.
  apply NoDup_app in Hnd as (_ & Hnot & _).
  unfold list_Remove. rewrite filter_app. rewrite (filter_cons _ id), decide_False by (by intros ?).
  rewrite filter_nil, app_nil_r.
  assert (Hall : filter (λ x, x ≠ id) l' = l').
  { clear -Hnot. induction l' as [|x l' IH]; [done|].
    rewrite filter_cons, decide_True.
    - f_equal. apply IH. intros y Hy. apply Hnot. by right.
    - intros ->. apply (Hnot id); [by left | by left]. }
  rewrite Hall. apply omap_ext_in. intros x Hx. unfold keyOf. by rewrite Hel.
Qed.

(** A miss that stores the key puts it first, after the oldest key went
    if memory was full. *)
Lemma addToMemCache_order hc now k e hc' :
  WF hc → memCache hc !! k = None → addToMemCache hc now k e = Some hc' →
  keysByRecency hc' = lruTouch (maxItems hc) k (keysByRecency hc).
Proof.
  intros HWF Hmem Hadd.
  assert (Hm := proj1 HWF).
  destruct (addToMemCache_inv _ _ _ _ _ Hadd)
    as (hc1 & Hcase & Hlru & _ & Hel & _).
  assert (Hnotin : k ∉ keysByRecency hc).
  { rewrite (keysByRecency_elem hc k Hm), Hmem. by intros [? ?]. }
  assert (Hfilter : filter (λ x, x ≠ k) (keysByRecency hc) = keysByRecency hc).
  { clear -Hnotin. induction (keysByRecency hc) as [|x l IH]; [done|].
    rewrite filter_cons, decide_True.
    - f_equal. apply IH. intros Hk. apply Hnotin. by right.
    - intros ->. apply Hnotin. by left. }
  assert (Hpush : ∀ (Hm1 : memOK hc1),
            keysByRecency hc' = k :: keysByRecency hc1).
  { intros Hm1. unfold keysByRecency. rewrite Hlru. simpl.
    unfold keyOf at 1. rewrite Hel, lookup_insert_eq. simpl. f_equal.
    apply omap_ext_in. intros x Hx. unfold keyOf. rewrite Hel.
    rewrite lookup_insert_ne; [done|]. intros <-.
    destruct Hm1 as (_ & Hlt & Hdef & _). specialize (Hlt _ (Hdef _ Hx)). lia. }
  unfold lruTouch. rewrite Hfilter.
  destruct Hm as (Hnd & Hlt & Hdef & Hb & Hmax1 & Hlen).
  assert (Hm : memOK hc) by done.
  pose proof (keysByRecency_length hc Hm) as Hkl.
  destruct Hcase as [[Hfull Hev]|[Hroom ->]].
  - assert (Hne : lru hc ≠ []) by (intros E; rewrite E in Hfull; simpl in Hfull; lia).
    destruct (evictOldest_spec hc now hc1 HWF Hev) as (HWF1 & _).
    destruct (evict_order hc now hc1 HWF Hne Hev) as [victim Hv].
    rewrite (Hpush (proj1 HWF1)). f_equal. rewrite Hv.
    rewrite Hv, length_app in Hkl. simpl in Hkl.
    rewrite take_app_length'; [done|]. lia.
  - rewrite (Hpush Hm). f_equal. rewrite take_ge; [done|]. lia.
Qed.

Lemma touch_is_lruTouch hc k :
  memOK hc → is_Some (memCache hc !! k) →
  k :: filter (λ x, x ≠ k) (keysByRecency hc) = lruTouch (maxItems hc) k (keysByRecency hc).
Proof.
  intros Hm Hk. unfold lruTouch. f_equal. rewrite take_ge; [done|].
  pose proof (keysByRecency_length hc Hm) as Hkl.
  apply (keysByRecency_elem hc k Hm) in Hk.
  assert (length (filter (λ x, x ≠ k) (keysByRecency hc)) < length (keysByRecency hc))%nat.
  { clear -Hk. induction (keysByRecency hc) as [|x l IH]; [by apply elem_of_nil in Hk|].
    rewrite filter_cons. destruct (decide (x ≠ k)) as [Hx|Hx].
    - simpl. apply elem_of_cons in Hk as [->|Hk]; [done|]. specialize (IH Hk). lia.
    - simpl. pose proof (length_filter (λ x, x ≠ k) l). lia. }
  destruct Hm as (_ & _ & _ & _ & _ & Hlen). lia.
Qed.

Lemma step_order hc o :
  WF hc → opNilFree o →
  ∃ hc', step hc o = Some hc'
    ∧ WF hc'
    ∧ keysByRecency hc'
      = (if touches hc o then lruTouch (maxItems hc) (opKey o) (keysByRecency hc)
         else keysByRecency hc).
Proof.
  intros HWF Ho.
  destruct (step_spec hc o HWF Ho) as (hc' & Hstep & HWF' & _).
  exists hc'. split; [done|]. split; [done|].
  assert (Hm := proj1 HWF).
  destruct o as [now k|now k e]; simpl in *.
  - apply fmap_Some in Hstep as ([hc2 r] & HG & ->). simpl. unfold Get in HG.
    destruct (memCache hc !! k) as [id|] eqn:Hmem; simpl.
    + apply bind_Some in HG as (item & Hitem & HG). injection HG as <- _.
      rewrite <- (touch_is_lruTouch hc k Hm) by (by rewrite Hmem).
      by apply (touch_order hc k id item
                  {| key := key item; entry := entry item; lastAccess := now |}).
    + destruct (GetFileRecord (diskCache hc) k) as [rec|]; simpl.
      * apply bind_Some in HG as (hc3 & Hadd & HG). injection HG as <- _.
        by eapply addToMemCache_order.
      * by injection HG as <- _.
  - unfold Put in Hstep. cbn [memCache set_dirtyKeys] in Hstep.
    destruct (memCache hc !! k) as [id|] eqn:Hmem.
    + apply bind_Some in Hstep as (item & Hitem & Hstep). injection Hstep as <-.
      rewrite <- (touch_is_lruTouch hc k Hm) by (by rewrite Hmem).
      by apply (touch_order (set_dirtyKeys hc ({[k]} ∪ dirtyKeys hc)) k id item
                  {| key := key item; entry := e; lastAccess := now |}).
    + by apply (addToMemCache_order (set_dirtyKeys hc ({[k]} ∪ dirtyKeys hc)) now k e hc'
                  (WF_set_dirtyKeys hc _ HWF) Hmem) in Hstep.
Qed.

(** The memory tier is an LRU list: an operation that finds or stores an
    entry moves its key to the front and, when that makes one key too
    many, drops the key used longest ago; a [Get] that finds nothing
    changes nothing.  The keys in the list are the keys in memory. *)
Theorem memory_is_LRU_list disk maxItems0 now0 ops o :
  diskUnique disk → diskNilFree disk → Forall opNilFree ops → opNilFree o →
  ∃ hc0 hc hc',
    NewHybridCache disk maxItems0 now0 = Some hc0
    ∧ run ops hc0 = Some hc
    ∧ step hc o = Some hc'
    ∧ keysByRecency hc'
      = (if touches hc o then lruTouch (maxItems hc) (opKey o) (keysByRecency hc)
         else keysByRecency hc)
    ∧ NoDup (keysByRecency hc')
    ∧ (∀ k, k ∈ keysByRecency hc' ↔ is_Some (memCache hc' !! k)).
Proof.
  intros Hu Hn Hops Ho.
  destruct (NewHybridCache_WF disk maxItems0 now0 Hu Hn) as (hc0 & Hnew & HWF0 & _).
  destruct (run_spec ops hc0 HWF0 Hops) as (hc & Hrun & HWF & _).
  destruct (step_order hc o HWF Ho) as (hc' & Hstep & HWF' & Horder).
  exists hc0, hc, hc'. repeat (split; [done|]).
  assert (Hm' := proj1 HWF'). split.
  - unfold keysByRecency. destruct Hm' as (Hnd & _).
    assert (Hinj : ∀ x y k, x ∈ lru hc' → y ∈ lru hc' →
                            keyOf hc' x = Some k → keyOf hc' y = Some k → x = y).
    { intros x y k Hx Hy. by apply keyOf_inj; [apply HWF'|..]. }
    induction Hnd as [|x l Hx Hnd IH]; [constructor|]. simpl.
    destruct (keyOf hc' x) as [k|] eqn:Hk; [|apply IH; intros; eapply Hinj; by try right].
    constructor.
    + rewrite list_elem_of_omap. intros (y & Hy & Hky).
      assert (x = y) by (eapply Hinj; [by left | by right | done | done]). by subst.
    + apply IH. intros; eapply Hinj; by try right.
  - intros k. by apply keysByRecency_elem.
Qed.

Lemma memory_is_LRU_list_witness :
  ∃ hc0 hc hc',
    NewHybridCache (diskWith []) 2 0 = Some hc0
    ∧ run [OpPut 1 "a.go" entryA; OpPut 2 "b.go" entryB; OpGet 3 "a.go"] hc0 = Some hc
    ∧ step hc (OpPut 4 "c.go" entryB) = Some hc'
    ∧ keysByRecency hc'
      = (if touches hc (OpPut 4 "c.go" entryB)
         then lruTouch (maxItems hc) (opKey (OpPut 4 "c.go" entryB)) (keysByRecency hc)
         else keysByRecency hc)
    ∧ NoDup (keysByRecency hc')
    ∧ (∀ k, k ∈ keysByRecency hc' ↔ is_Some (memCache hc' !! k)).
Proof.
  apply (memory_is_LRU_list (diskWith []) 2 0
           [OpPut 1 "a.go" entryA; OpPut 2 "b.go" entryB; OpGet 3 "a.go"]
           (OpPut 4 "c.go" entryB)).
  - constructor.
  - constructor.
  - repeat constructor; eexists; reflexivity.
  - constructor.
Defined.

(** The run of the witness, computed: [b.go] is the key that goes. *)
Example LRU_victim_run :
  (hc0 ← NewHybridCache (diskWith []) 2 0;
   hc ← run [OpPut 1 "a.go" entryA; OpPut 2 "b.go" entryB; OpGet 3 "a.go";
             OpPut 4 "c.go" entryB] hc0;
   Some (keysByRecency hc))
  = Some ["c.go"; "a.go"]%string.
Proof. reflexivity. Qed.

(** ** Orchestrator: the registry loop, the legacy cache, the fingerprint *)

Lemma runAnalyzers_fold (impl : string → slice (option Issue)) (enabled : string → bool)
    (names : list string) (issues : list (option Issue)) (invoked : list string) :
  fold_left
    (fun acc name =>
       if enabled name
       then (acc.1 ++ slice_elems (impl name), acc.2 ++ [name])
       else acc)
    names (issues, invoked)
  = (issues ++ flat_map (fun name => slice_elems (impl name)) (List.filter enabled names),
     invoked ++ List.filter enabled names).
Proof.
  revert issues invoked. induction names as [|name names IH]; intros issues invoked.
  - cbn [fold_left List.filter flat_map]. by rewrite !app_nil_r.
  - cbn [fold_left List.filter]. destruct (enabled name).
    + rewrite IH. cbn [fst snd flat_map]. by rewrite <- !app_assoc.
    + apply IH.
Qed.

Lemma runAnalyzers_spec analyzerImpl file fset enabledAnalyzers :
  runAnalyzers analyzerImpl file fset enabledAnalyzers
  = (flat_map (fun name => slice_elems (analyzerImpl name file fset))
       (enabledRules enabledAnalyzers),
     enabledRules enabledAnalyzers).
Proof.
  unfold runAnalyzers, enabledRules. generalize allAnalyzers. intros names.
  by rewrite runAnalyzers_fold.
Qed.

Lemma fileSum64_range file : 0 ≤ fileSum64 file < 2 ^ 64.
Proof. rewrite fileSum64_bytes. apply fnv_fold_range. done. Qed.

(** The fingerprint is the base-36 numeral of the 64-bit FNV-1a sum of
    the file: reading the numeral gives the sum back, so two files have
    the same fingerprint exactly when they have the same sum. *)
Theorem fingerprint_round_trip file :
  parse36 (computeFileHash file) = fileSum64 file
  ∧ 0 ≤ fileSum64 file < 2 ^ 64
  ∧ ∀ file', computeFileHash file = computeFileHash file' ↔ fileSum64 file = fileSum64 file'.
Proof.
  pose proof (fileSum64_range file) as Hr.
  split; [|split; [done|]].
  - unfold computeFileHash, parse36, FormatUint36. rewrite parse36_format36; [done|].
    split; [lia|]. eapply Z.lt_trans; [apply Hr|]. done.
  - intros file'. unfold computeFileHash. split; [|by intros ->].
    apply FormatUint36_inj; [done | apply fileSum64_range].
Qed.

Section RegistryLaws.
Local Opaque runAnalyzers computeFileHash.
Variable analyzerImpl : string → ast_File → option FileSet → slice (option Issue).

(** Every call of [Analyze] on a file returns a slice that is not nil.
    When the cache lookup it starts with finds an entry, it runs no rule
    at all and returns the slice found; when the lookup finds nothing,
    it runs exactly the enabled names of the registry, each once and in
    registry order, and returns their outputs concatenated in that
    order.  A name that is not in the registry is never run, enabled or
    not. *)
Theorem Analyze_runs_enabled_rules g now filename file fset enabledAnalyzers :
  WFg g →
  ∃ g0 cached g' l invoked,
    checkCache g now filename file = Some (g0, cached)
    ∧ Analyze analyzerImpl g now filename (Some file) fset enabledAnalyzers
      = Some (g', Some l, invoked)
    ∧ match cached with
      | Some cachedIssues => cachedIssues = Some l ∧ invoked = []
      | None =>
          invoked = enabledRules enabledAnalyzers
          ∧ l = flat_map (fun name => slice_elems (analyzerImpl name file fset))
                  (enabledRules enabledAnalyzers)
      end.
Proof.
  intros HWFg.
  destruct (Analyze_first analyzerImpl g now filename file fset enabledAnalyzers HWFg)
    as (g1 & r1 & c1 & H1 & _ & _ & [l ->] & _).
  unfold Analyze in H1. apply bind_Some in H1 as ([g0 cached] & HC & H1).
  exists g0, cached, g1, l, c1. split; [done|]. split.
  - unfold Analyze. rewrite HC. done.
  - destruct cached as [cachedIssues|].
    + by injection H1 as _ -> <-.
    + rewrite runAnalyzers_spec in H1.
      apply bind_Some in H1 as (g2 & _ & H1). by injection H1 as _ <- <-.
Qed.
End RegistryLaws.

(** Cleaning the legacy cache removes only entries that no later lookup
    would accept: at the time of the cleaning or later, [checkCache]
    answers the same with and without it. *)
Theorem cleanCache_invisible c now now' filename file :
  now ≤ now' →
  snd <$> checkCache {| globalHybridCache := None; globalCache := cleanCache c now |}
            now' filename file
  = snd <$> checkCache {| globalHybridCache := None; globalCache := c |} now' filename file.
Proof.
  intros Hle. rewrite !checkCache_legacy by done. cbn [fmap option_fmap option_map snd].
  f_equal. cbn [globalCache cleanCache results maxAge].
  destruct (results c !! filename) as [e|] eqn:He.
  - destruct (decide (now - Timestamp e > maxAge c)) as [Hold|Hyoung].
    + assert (Hgone : filter (λ kv : string * CacheEntry, ¬ (now - Timestamp kv.2 > maxAge c))
                        (results c) !! filename = None).
      { apply map_lookup_filter_None. right. intros e' He' Hkeep. simpl in Hkeep.
        assert (e' = e) as -> by congruence. done. }
      rewrite Hgone.
      assert ((now' - Timestamp e <? maxAge c) = false) as -> by lia.
      by rewrite andb_false_r.
    + assert (Hkept : filter (λ kv : string * CacheEntry, ¬ (now - Timestamp kv.2 > maxAge c))
                        (results c) !! filename = Some e).
      { apply map_lookup_filter_Some. done. }
      by rewrite Hkept.
  - assert (Hnone : filter (λ kv : string * CacheEntry, ¬ (now - Timestamp kv.2 > maxAge c))
                      (results c) !! filename = None).
    { apply map_lookup_filter_None. by left. }
    by rewrite Hnone.
Qed.

Lemma Analyze_runs_enabled_rules_witness :
  ∃ g0 cached g' l invoked,
    checkCache globalsLegacy 0 "a.go" treeWide = Some (g0, cached)
    ∧ Analyze stubRules globalsLegacy 0 "a.go" (Some treeWide) None onlyLoop
      = Some (g', Some l, invoked)
    ∧ match cached with
      | Some cachedIssues => cachedIssues = Some l ∧ invoked = []
      | None =>
          invoked = enabledRules onlyLoop
          ∧ l = flat_map (fun name => slice_elems (stubRules name treeWide None))
                  (enabledRules onlyLoop)
      end.
Proof.
  apply (Analyze_runs_enabled_rules stubRules globalsLegacy 0 "a.go" treeWide None onlyLoop).
  apply WFg_legacy.
Defined.

(** Of the three names enabled and disabled in [onlyLoop], only [loop]
    is run: [slice] is switched off and [nosuchrule] is not a rule. *)
Example enabledRules_onlyLoop : enabledRules onlyLoop = ["loop"%string].
Proof. reflexivity. Qed.

Lemma cleanCache_invisible_witness :
  snd <$> checkCache
            {| globalHybridCache := None;
               globalCache :=
                 cleanCache (legacyWith "a.go"
                               {| CacheEntry_Hash := computeFileHash treeWide;
                                  CacheEntry_Issues := Some [];
                                  Timestamp := 0 |}) (16 * minute) |}
            (17 * minute) "a.go" treeWide
  = snd <$> checkCache
              {| globalHybridCache := None;
                 globalCache :=
                   legacyWith "a.go"
                     {| CacheEntry_Hash := computeFileHash treeWide;
                        CacheEntry_Issues := Some [];
                        Timestamp := 0 |} |}
              (17 * minute) "a.go" treeWide.
Proof.
  apply (cleanCache_invisible
           (legacyWith "a.go"
              {| CacheEntry_Hash := computeFileHash treeWide;
                 CacheEntry_Issues := Some [];
                 Timestamp := 0 |})
           (16 * minute) (17 * minute) "a.go" treeWide).
  unfold minute. lia.
Defined.

(** ** The walk with context *)

Section WalkLaws.
Context {S : Type}.
Variable fn : Syntax → AnalysisContext → S → bool * AnalysisContext * S.

Lemma walkWithContext_eq kind fields ctx s :
  walkWithContext fn (Nd kind fields) ctx s
  = let '(descend, ctx, s) := fn (Nd kind fields) ctx s in
    if descend then
      match kind with
      | ForStmt | RangeStmt =>
          let '(ctx', s) := walkFields fn fields
                              (set_loop ctx (int_add (LoopDepth ctx) 1) true) s in
          (set_loop ctx' (LoopDepth ctx) (InLoop ctx), s)
      | FuncDecl name =>
          let '(ctx', s) := walkFields fn fields
                              (match name with
                               | Some x => set_CurrentFunc ctx x
                               | None => ctx
                               end) s in
          (set_CurrentFunc ctx' (CurrentFunc ctx), s)
      | OtherKind => (ctx, s)
      | _ => walkFields fn fields ctx s
      end
    else (ctx, s).
Proof.
  cbn [walkWithContext]. destruct (fn (Nd kind fields) ctx s) as [[descend ctx1] s1].
  destruct descend; [|done]. destruct kind; reflexivity.
Qed.

Hypothesis Hkeeps : keepsWalkFields fn.

Lemma walkFields_sameWalkFields fields :
  Forall (λ f, match f with
               | Some child => ∀ ctx s, sameWalkFields ctx (walkWithContext fn child ctx s).1
               | None => True
               end) fields →
  ∀ ctx s, sameWalkFields ctx (walkFields fn fields ctx s).1.
Proof.
  induction 1 as [|[child|] fields Hc Hf IH]; intros ctx s; cbn [walkFields].
  - done.
  - specialize (Hc ctx s). destruct (walkWithContext fn child ctx s) as [ctx1 s1].
    specialize (IH ctx1 s1). unfold sameWalkFields in *. simpl in *.
    intuition congruence.
  - apply IH.
Qed.

Lemma walkWithContext_sameWalkFields node :
  ∀ ctx s, sameWalkFields ctx (walkWithContext fn node ctx s).1.
Proof.
  induction node as [kind fields IH] using Syntax_fields_ind. intros ctx s.
  rewrite walkWithContext_eq. pose proof (Hkeeps (Nd kind fields) ctx s) as Hfn.
  destruct (fn (Nd kind fields) ctx s) as [[descend ctx1] s1]. simpl in Hfn.
  destruct descend; [|done].
  pose proof (walkFields_sameWalkFields fields IH) as Hfields.
  assert (Hplain : sameWalkFields ctx (walkFields fn fields ctx1 s1).1).
  { specialize (Hfields ctx1 s1). unfold sameWalkFields in *. intuition congruence. }
  destruct kind; try exact Hplain; try exact Hfn.
  - specialize (Hfields (set_loop ctx1 (int_add (LoopDepth ctx1) 1) true) s1).
    destruct (walkFields fn fields _ s1) as [ctx2 s2].
    unfold sameWalkFields in *. simpl in *. intuition congruence.
  - specialize (Hfields (set_loop ctx1 (int_add (LoopDepth ctx1) 1) true) s1).
    destruct (walkFields fn fields _ s1) as [ctx2 s2].
    unfold sameWalkFields in *. simpl in *. intuition congruence.
  - specialize (Hfields (match Name with Some x => set_CurrentFunc ctx1 x | None => ctx1 end) s1).
    destruct (walkFields fn fields _ s1) as [ctx2 s2].
    unfold sameWalkFields in *. destruct Name; simpl in *; intuition congruence.
Qed.
End WalkLaws.

(** When the callback leaves [LoopDepth], [InLoop] and [CurrentFunc]
    alone, so does the walk of any node: what the walkers of loops and
    function declarations change, they put back. *)
Theorem walk_restores_context {S : Type}
    (fn : Syntax → AnalysisContext → S → bool * AnalysisContext * S) node ctx s :
  keepsWalkFields fn →
  LoopDepth (walkWithContext fn node ctx s).1 = LoopDepth ctx
  ∧ InLoop (walkWithContext fn node ctx s).1 = InLoop ctx
  ∧ CurrentFunc (walkWithContext fn node ctx s).1 = CurrentFunc ctx.
Proof. intros Hkeeps. by apply walkWithContext_sameWalkFields. Qed.

Lemma set_loop_back ctx a b : set_loop (set_loop ctx a b) (LoopDepth ctx) (InLoop ctx) = ctx.
Proof. by destruct ctx. Qed.

Lemma set_CurrentFunc_back ctx x :
  set_CurrentFunc (set_CurrentFunc ctx x) (CurrentFunc ctx) = ctx.
Proof. by destruct ctx. Qed.

Lemma set_CurrentFunc_same ctx : set_CurrentFunc ctx (CurrentFunc ctx) = ctx.
Proof. by destruct ctx. Qed.

Section RecorderLaws.
Variable descend : Syntax → bool.

Local Abbreviation rec := (recorder descend).

Lemma walkFields_recorder fields :
  Forall (λ f, match f with
               | Some child =>
                   ∀ ctx seen, walkWithContext rec child ctx seen
                               = (ctx, seen ++ visits descend child ctx)
               | None => True
               end) fields →
  ∀ ctx seen, walkFields rec fields ctx seen = (ctx, seen ++ fieldsVisits descend fields ctx).
Proof.
  unfold fieldsVisits.
  induction 1 as [|[child|] fields Hc Hf IH]; intros ctx seen; cbn [walkFields map concat].
  - by rewrite app_nil_r.
  - rewrite Hc, IH. by rewrite app_assoc.
  - apply IH.
Qed.

(** The recording walk hands the context back as it got it, and adds
    to what was seen the visits of the node. *)
Lemma walkWithContext_recorder node :
  ∀ ctx seen,
    walkWithContext rec node ctx seen = (ctx, seen ++ visits descend node ctx)
    ∧ visits descend node ctx
      = (node, ctx)
        :: (if descend node && hasWalker (kindOf node)
            then fieldsVisits descend (fieldsOf node) (enter (kindOf node) ctx)
            else []).
Proof.
  induction node as [kind fields IH] using Syntax_fields_ind.
  assert (IH' : Forall (λ f, match f with
                             | Some child =>
                                 ∀ ctx seen, walkWithContext rec child ctx seen
                                             = (ctx, seen ++ visits descend child ctx)
                             | None => True
                             end) fields).
  { eapply Forall_impl; [exact IH|]. intros [child|] H; [|done]. intros ctx seen.
    apply H. }
  pose proof (walkFields_recorder fields IH') as Hfields.
  assert (Hw : ∀ ctx seen,
             walkWithContext rec (Nd kind fields) ctx seen
             = (ctx, seen ++ (Nd kind fields, ctx)
                             :: (if descend (Nd kind fields) && hasWalker kind
                                 then fieldsVisits descend fields (enter kind ctx)
                                 else []))).
  { intros ctx seen. rewrite walkWithContext_eq. unfold recorder at 1. cbv beta iota.
    destruct (descend (Nd kind fields)); [|done]. cbn [andb].
    destruct kind; cbn [hasWalker]; unfold enter; cbn [isLoop funcName];
      rewrite ?Hfields, ?set_loop_back, <- ?app_assoc; try done.
    destruct Name as [x|].
    - by rewrite set_CurrentFunc_back.
    - by rewrite set_CurrentFunc_same. }
  intros ctx seen.
  assert (Hv : visits descend (Nd kind fields) ctx
               = (Nd kind fields, ctx)
                 :: (if descend (Nd kind fields) && hasWalker kind
                     then fieldsVisits descend fields (enter kind ctx)
                     else [])).
  { unfold visits. by rewrite Hw. }
  split; [|exact Hv]. by rewrite Hv, Hw.
Qed.

Lemma wrap64_idem z : wrap64 (wrap64 z) = wrap64 z.
Proof.
  pose proof (wrap64_add_l z 0) as H. by rewrite !Z.add_0_r in H.
Qed.

Lemma deepen_here ctx : wrap64 (LoopDepth ctx) = LoopDepth ctx → deepen ctx O None = ctx.
Proof.
  intros H. unfold deepen. destruct ctx. simpl in *.
  rewrite Z.add_0_r, H, orb_false_r. done.
Qed.

Lemma deepen_enter kind ctx d f :
  deepen (enter kind ctx) d f
  = deepen ctx (if isLoop kind then Datatypes.S d else d)
      (match f with Some name => Some name | None => funcName kind end).
Proof.
  unfold deepen, enter. destruct (isLoop kind) eqn:Hloop.
  - assert (funcName kind = None) as -> by by destruct kind.
    destruct ctx. simpl. unfold set_CurrentFunc, set_loop. simpl.
    f_equal.
    + by destruct f.
    + unfold int_add. rewrite wrap64_add_l. f_equal. lia.
    + rewrite orb_true_r. done.
  - destruct (funcName kind) as [x|]; destruct ctx; simpl; unfold set_CurrentFunc, set_loop;
      simpl; f_equal; by destruct f.
Qed.

Lemma enter_in_range kind ctx :
  wrap64 (LoopDepth ctx) = LoopDepth ctx →
  wrap64 (LoopDepth (enter kind ctx)) = LoopDepth (enter kind ctx).
Proof.
  intros H. unfold enter. destruct (isLoop kind).
  - simpl. unfold int_add. apply wrap64_idem.
  - by destruct (funcName kind).
Qed.

Lemma elem_of_fieldsVisits fields ctx x :
  x ∈ fieldsVisits descend fields ctx
  ↔ ∃ child, Some child ∈ fields ∧ x ∈ visits descend child ctx.
Proof.
  unfold fieldsVisits. induction fields as [|[child|] fields IH]; cbn [map concat].
  - split; [by intros ?%elem_of_nil | by intros (? & ?%elem_of_nil & _)].
  - rewrite elem_of_app, IH. split.
    + intros [Hx|(c & Hc & Hx)]; [exists child; split; [by left | done]|].
      exists c. split; [by right | done].
    + intros (c & [[= ->]|Hc]%elem_of_cons & Hx); [by left|]. right. by exists c.
  - rewrite app_nil_l, IH. split.
    + intros (c & Hc & Hx). exists c. split; [by right | done].
    + intros (c & [?|Hc]%elem_of_cons & Hx); [done|]. by exists c.
Qed.

Lemma visits_inside node :
  ∀ ctx m c, wrap64 (LoopDepth ctx) = LoopDepth ctx →
    (m, c) ∈ visits descend node ctx →
    ∃ d f, inside descend node d f m ∧ c = deepen ctx d f.
Proof.
  induction node as [kind fields IH] using Syntax_fields_ind.
  intros ctx m c Hrange Hin.
  rewrite (proj2 (walkWithContext_recorder (Nd kind fields) ctx [])) in Hin.
  apply elem_of_cons in Hin as [[= -> ->]|Hin].
  - exists O, None. split; [constructor | by rewrite deepen_here].
  - cbn [kindOf fieldsOf] in Hin.
    destruct (descend (Nd kind fields)) eqn:Hd; [|by apply elem_of_nil in Hin].
    destruct (hasWalker kind) eqn:Hw; [|by apply elem_of_nil in Hin].
    cbn [andb] in Hin. apply elem_of_fieldsVisits in Hin as (child & Hchild & Hin).
    rewrite Forall_forall in IH. specialize (IH (Some child)).
    cbn beta iota in IH.
    destruct (IH Hchild (enter kind ctx) m c
                (enter_in_range kind ctx Hrange) Hin) as (d & f & Hins & ->).
    eexists _, _. split.
    + by apply (inside_field descend (Nd kind fields) child d f m).
    + by rewrite deepen_enter.
Qed.

Lemma inside_visits node d f m :
  inside descend node d f m →
  ∀ ctx, (m, deepen ctx d f) ∈ visits descend node ctx
         ∨ wrap64 (LoopDepth ctx) ≠ LoopDepth ctx.
Proof.
  induction 1 as [node|parent child d f node Hd Hw Hchild Hins IH]; intros ctx.
  - destruct (decide (wrap64 (LoopDepth ctx) = LoopDepth ctx)) as [Hr|Hr]; [|by right].
    left. rewrite (proj2 (walkWithContext_recorder node ctx [])), deepen_here by done.
    by left.
  - destruct (decide (wrap64 (LoopDepth ctx) = LoopDepth ctx)) as [Hr|Hr]; [|by right].
    left. rewrite (proj2 (walkWithContext_recorder parent ctx [])), Hd, Hw. cbn [andb].
    right. apply elem_of_fieldsVisits. exists child. split; [done|].
    destruct (IH (enter (kindOf parent) ctx)) as [Hin|Hbad].
    + by rewrite deepen_enter in Hin.
    + by destruct Hbad; apply enter_in_range.
Qed.
End RecorderLaws.

(** What a callback is shown, in a walk that [WalkWithContext] starts:
    exactly the root and the nodes in fields of kinds [walkNode] has a
    case for, under nodes at which the callback answered [true]; each
    with [LoopDepth] the number of loop statements above it (wrapped),
    [InLoop] set exactly when there is one, and [CurrentFunc] the name
    of the innermost named function declaration above it.  A loop or
    function declaration is itself shown with the context of its
    surroundings. *)
Theorem callback_sees_nesting descend root m c :
  (m, c) ∈ WalkWithContext (recorder descend) (Some root) []
  ↔ ∃ d f, inside descend root d f m ∧ c = shownAt d f.
Proof.
  assert (Hshown : ∀ d f, deepen newContext d f = shownAt d f) by done.
  change (WalkWithContext (recorder descend) (Some root) [])
    with (visits descend root newContext).
  split.
  - intros Hin. destruct (visits_inside descend root newContext m c eq_refl Hin)
      as (d & f & Hins & ->).
    exists d, f. by rewrite Hshown.
  - intros (d & f & Hins & ->). rewrite <- Hshown.
    destruct (inside_visits descend root d f m Hins newContext) as [H|H]; done.
Qed.

Lemma walk_restores_context_witness :
  LoopDepth (walkWithContext (recorder always) funcF newContext []).1 = LoopDepth newContext
  ∧ InLoop (walkWithContext (recorder always) funcF newContext []).1 = InLoop newContext
  ∧ CurrentFunc (walkWithContext (recorder always) funcF newContext []).1
    = CurrentFunc newContext.
Proof.
  apply (walk_restores_context (recorder always) funcF newContext []).
  intros node ctx s. repeat split; reflexivity.
Defined.

(** The contexts shown in [func f() { for { g() } }]: the loop at depth
    0, its body at depth 1, all inside [f] but the declaration itself. *)
Example walk_of_funcF :
  map (λ v, (kindOf v.1, LoopDepth v.2, InLoop v.2, CurrentFunc v.2))
    (WalkWithContext (recorder always) (Some funcF) [])
  = [(FuncDecl (Some "f"), 0, false, "");
     (OtherKind, 0, false, "f"); (BlockStmt, 0, false, "f");
     (ForStmt, 0, false, "f"); (BlockStmt, 1, true, "f");
     (ExprStmt, 1, true, "f"); (CallExpr, 1, true, "f");
     (OtherKind, 1, true, "f")]%string.
Proof. reflexivity. Qed.

(** A loop below a statement of a kind the walk has no case for is not
    shown at all. *)
Example walk_of_hiddenLoop :
  map (λ v, kindOf v.1) (WalkWithContext (recorder always) (Some hiddenLoop) [])
  = [BlockStmt; OtherKind].
Proof. reflexivity. Qed.

(** ** Hybrid cache: what is loaded at start *)

Lemma wrap64_small z : - 2 ^ 63 ≤ z < 2 ^ 63 → wrap64 z = z.
Proof. intros H. unfold wrap64. rewrite Z.mod_small; lia. Qed.

Lemma filter_notin_id (k : string) (l : list string) :
  k ∉ l → filter (λ x, x ≠ k) l = l.
Proof.
  induction l as [|x l IH]; intros Hk; [done|].
  rewrite filter_cons, decide_True.
  - f_equal. apply IH. intros H. apply Hk. by right.
  - intros ->. apply Hk. by left.
Qed.

(** With room left, a miss adds the key in front and touches nothing
    else: no eviction, so no write to the disk store. *)
Lemma addToMemCache_room hc now k e hc' :
  WF hc → nilFree (Entry_Issues e) → memCache hc !! k = None →
  Z.of_nat (length (lru hc)) < maxItems hc →
  addToMemCache hc now k e = Some hc' →
  WF hc'
  ∧ keysByRecency hc' = k :: keysByRecency hc
  ∧ length (lru hc') = Datatypes.S (length (lru hc))
  ∧ resident hc' k = Some e
  ∧ (∀ k', k' ≠ k → memCache hc' !! k' = memCache hc !! k'
                    ∧ resident hc' k' = resident hc k')
  ∧ diskCache hc' = diskCache hc ∧ dirtyKeys hc' = dirtyKeys hc
  ∧ maxItems hc' = maxItems hc.
Proof.
  intros HWF He Hmem Hroom Hadd.
  pose proof (addToMemCache_order hc now k e hc' HWF Hmem Hadd) as Horder.
  destruct (addToMemCache_inv _ _ _ _ _ Hadd)
    as (hc1 & Hcase & Hlru & Hmc & Hel & Hnext & Hmax & Hdisk & Hdirty).
  destruct Hcase as [[Hfull _]|[_ ->]]; [lia|].
  destruct (push_spec hc now k e hc' HWF He Hmem Hroom Hlru Hmc Hel Hnext Hmax Hdisk)
    as (HWF' & Hres & Hother).
  split; [done|]. split.
  - rewrite Horder. unfold lruTouch. f_equal.
    assert (Hm := proj1 HWF).
    assert (Hnotin : k ∉ keysByRecency hc).
    { rewrite (keysByRecency_elem hc k Hm), Hmem. by intros [? ?]. }
    rewrite (filter_notin_id k _ Hnotin). apply take_ge.
    rewrite (keysByRecency_length hc Hm). lia.
  - split; [by rewrite Hlru|]. done.
Qed.

Lemma preloadLoop_order records now maxPreload :
  ∀ hc count,
    WF hc → NoDup (map Path records) →
    Forall (fun r => nilFree (Issues r)) records →
    (∀ r, r ∈ records → memCache hc !! Path r = None) →
    count = Z.of_nat (length (lru hc)) →
    2 * maxPreload ≤ maxItems hc → maxItems hc < 2 ^ 63 →
    ∃ hc', preloadLoop records count maxPreload hc now = Some hc'
      ∧ WF hc'
      ∧ keysByRecency hc'
        = rev (map Path (take (Z.to_nat (maxPreload - count))
                           (List.filter (recent now) records)))
          ++ keysByRecency hc
      ∧ (∀ r, r ∈ take (Z.to_nat (maxPreload - count)) (List.filter (recent now) records) →
              resident hc' (Path r) = Some (entryOf r))
      ∧ (∀ k, k ∉ map Path records → resident hc' k = resident hc k)
      ∧ diskCache hc' = diskCache hc ∧ dirtyKeys hc' = dirtyKeys hc
      ∧ maxItems hc' = maxItems hc.
Proof.
  induction records as [|r records IH]; intros hc count HWF Hnd Hnil Hfresh Hcount Hhalf Hint.
  - exists hc. cbn [preloadLoop List.filter]. rewrite take_nil. repeat (split; [done|]).
    split; [|done]. intros r Hr. by apply elem_of_nil in Hr.
  - cbn [preloadLoop]. destruct (Z.geb_spec count maxPreload) as [Hstop|Hgo].
    + exists hc. replace (Z.to_nat (maxPreload - count)) with O by lia. rewrite take_0.
      repeat (split; [done|]). split; [|done]. intros r' Hr'. by apply elem_of_nil in Hr'.
    + cbn [map] in Hnd. apply NoDup_cons in Hnd as [Hr Hnd].
      apply Forall_cons in Hnil as [Hrn Hnil].
      cbn [List.filter]. fold (recent now r). destruct (recent now r) eqn:Hrecent.
      * assert (Hmem : memCache hc !! Path r = None) by (apply Hfresh; by left).
        assert (Hroom : Z.of_nat (length (lru hc)) < maxItems hc) by lia.
        destruct (addToMemCache_total hc now (Path r) (entryOf r) HWF) as [hc1 Hadd].
        change {| Entry_Hash := Hash r; Entry_Issues := Issues r |} with (entryOf r).
        rewrite Hadd. cbn [mbind option_bind].
        destruct (addToMemCache_room hc now (Path r) (entryOf r) hc1 HWF Hrn Hmem Hroom Hadd)
          as (HWF1 & Hkeys1 & Hlen1 & Hres1 & Hother1 & Hdisk1 & Hdirty1 & Hmax1).
        assert (Hc1 : int_add count 1 = count + 1).
        { unfold int_add. apply wrap64_small. lia. }
        rewrite Hc1.
        destruct (IH hc1 (count + 1) HWF1 Hnd Hnil) as
          (hc' & Hloop & HWF' & Hkeys' & Hres' & Hold' & Hdisk' & Hdirty' & Hmax').
        { intros r' Hr'.
          assert (Hne : Path r' ≠ Path r).
          { intros E. apply Hr. rewrite <- E. apply list_elem_of_fmap. by exists r'. }
          rewrite (proj1 (Hother1 (Path r') Hne)). apply Hfresh. by right. }
        { rewrite Hlen1. lia. }
        { by rewrite Hmax1. }
        { by rewrite Hmax1. }
        exists hc'. split; [done|]. split; [done|].
        replace (Z.to_nat (maxPreload - count))
          with (Datatypes.S (Z.to_nat (maxPreload - (count + 1)))) by lia.
        cbn [take map rev]. split.
        { rewrite Hkeys', Hkeys1, <- app_assoc. done. }
        split.
        { intros r' [->|Hr']%elem_of_cons; [|by apply Hres'].
          rewrite (Hold' (Path r) Hr). done. }
        split.
        { intros k Hk. rewrite Hold'.
          - apply Hother1. intros ->. apply Hk. by left.
          - intros Hin. apply Hk. by right. }
        split; [by rewrite Hdisk'|]. split; [by rewrite Hdirty'|]. by rewrite Hmax'.
      * destruct (IH hc count HWF Hnd Hnil) as
          (hc' & Hloop & HWF' & Hkeys' & Hres' & Hold' & Hrest); try done.
        { intros r' Hr'. apply Hfresh. by right. }
        exists hc'. repeat (split; [done|]). split; [|done].
        intros k Hk. apply Hold'. intros Hin. apply Hk. by right.
Qed.

Lemma NoDup_map_Path_inj (files : list FileRecord) r r' :
  NoDup (map Path files) → r ∈ files → r' ∈ files → Path r = Path r' → r = r'.
Proof.
  induction files as [|x files IH]; intros Hnd Hr Hr' E; [by apply elem_of_nil in Hr|].
  cbn [map] in Hnd. apply NoDup_cons in Hnd as [Hx Hnd].
  apply elem_of_cons in Hr as [->|Hr]; apply elem_of_cons in Hr' as [->|Hr'].
  - done.
  - destruct Hx. rewrite E. apply list_elem_of_fmap. by exists r'.
  - destruct Hx. rewrite <- E. apply list_elem_of_fmap. by exists r.
  - by apply IH.
Qed.

(** [NewHybridCache] loads into memory the first [maxItems/2] records
    of the disk store, in store order, among those analysed less than
    24 hours ago, the last one loaded being the most recently used;
    each with the hash and issues of its record.  Nothing is dirty and
    the disk store is not written. *)
Theorem preload_takes_first_recent disk maxItems0 now :
  diskUnique disk → diskNilFree disk → maxItems0 < 2 ^ 63 →
  ∃ hc, NewHybridCache disk maxItems0 now = Some hc
    ∧ keysByRecency hc
      = rev (map Path (take (Z.to_nat (effectiveMaxItems maxItems0 `quot` 2))
                         (List.filter (recent now) (Files (data disk)))))
    ∧ (∀ r, r ∈ Files (data disk) → Path r ∈ keysByRecency hc →
            resident hc (Path r) = Some (entryOf r))
    ∧ dirtyKeys hc = ∅
    ∧ diskCache hc = disk
    ∧ maxItems hc = effectiveMaxItems maxItems0.
Proof.
  intros Hu Hn Hint. unfold NewHybridCache, preloadHotData.
  fold (effectiveMaxItems maxItems0). set (m := effectiveMaxItems maxItems0).
  assert (Hm : 1 ≤ m < 2 ^ 63).
  { unfold m, effectiveMaxItems, defaultMaxMemoryItems.
    destruct (Z.leb_spec maxItems0 0); lia. }
  set (hc0 := {| memCache := ∅; lru := []; elements := ∅; nextElement := O; maxItems := m;
                 diskCache := disk; dirtyKeys := ∅ |}).
  cbn [diskCache maxItems].
  assert (HWF0 : WF hc0).
  { split; [|done]. split; [constructor|]. split; [intros i [x Hx]; done|].
    split; [intros i Hi; by apply elem_of_nil in Hi|]. split.
    - intros k i. simpl. rewrite lookup_empty. split; [done|].
      intros [Hi _]. by apply elem_of_nil in Hi.
    - simpl. lia. }
  destruct (preloadLoop_order (Files (data disk)) now (m `quot` 2) hc0 0 HWF0 Hu Hn)
    as (hc & Hloop & HWF & Hkeys & Hres & Hold & Hdisk & Hdirty & Hmax).
  { intros r _. apply lookup_empty. }
  { done. }
  { cbn [maxItems hc0]. pose proof (Z.quot_pos m 2). 
    assert (m `quot` 2 = m / 2) as -> by (apply Z.quot_div_nonneg; lia).
    pose proof (Z.mul_div_le m 2). lia. }
  { cbn [maxItems hc0]. lia. }
  exists hc. split; [done|]. rewrite Z.sub_0_r in Hkeys, Hres.
  rewrite app_nil_r in Hkeys. split; [done|]. split; [|done].
  intros r Hr Hin. rewrite Hkeys in Hin.
  apply list_elem_of_In, in_rev, list_elem_of_In in Hin.
  apply list_elem_of_fmap in Hin as (r' & E & Hr').
  assert (r' ∈ Files (data disk)).
  { apply list_elem_of_In. apply elem_of_take in Hr' as (i & Hi & _).
    apply list_elem_of_lookup_2 in Hi. apply list_elem_of_In in Hi.
    apply filter_In in Hi as [Hi _]. done. }
  assert (r = r') as <- by by apply (NoDup_map_Path_inj (Files (data disk))).
  by apply Hres.
Qed.

Lemma preload_takes_first_recent_witness :
  ∃ hc, NewHybridCache diskThree 4 (110 * hour) = Some hc
    ∧ keysByRecency hc
      = rev (map Path (take (Z.to_nat (effectiveMaxItems 4 `quot` 2))
                         (List.filter (recent (110 * hour)) (Files (data diskThree)))))
    ∧ (∀ r, r ∈ Files (data diskThree) → Path r ∈ keysByRecency hc →
            resident hc (Path r) = Some (entryOf r))
    ∧ dirtyKeys hc = ∅
    ∧ diskCache hc = diskThree
    ∧ maxItems hc = effectiveMaxItems 4.
Proof.
  apply (preload_takes_first_recent diskThree 4 (110 * hour)).
  - unfold diskUnique. simpl.
    repeat (apply NoDup_cons; split;
            [intros H; repeat (apply elem_of_cons in H as [H|H]; [discriminate H|]);
             by apply elem_of_nil in H|]).
    apply NoDup_nil_2.
  - repeat constructor.
  - lia.
Defined.

(** Of the four records, [b.go] is too old and [d.go] comes after the
    two that fill half of the four places. *)
Example preload_of_diskThree :
  keysByRecency <$> NewHybridCache diskThree 4 (110 * hour) = Some ["c.go"; "a.go"]%string.
Proof. reflexivity. Qed.

(** ** Hybrid cache: reads do not write *)

Lemma evictOldest_clean hc now hc' :
  evictOldest hc now = Some hc' → dirtyKeys hc = ∅ →
  dirtyKeys hc' = ∅ ∧ diskCache hc' = diskCache hc.
Proof.
  intros Hev Hclean.
  destruct (evictOldest_inv _ _ _ Hev)
    as [[_ ->]|(id & item & _ & _ & _ & _ & _ & _ & _ & Hdirty & Hdisk)]; [done|].
  rewrite Hclean in Hdirty, Hdisk. split.
  - rewrite Hdirty. apply set_eq. intros x. rewrite elem_of_difference.
    split; [by intros [? _] | by intros ?%elem_of_empty].
  - destruct Hdisk as [[Hin _]|[_ Hsame]]; [by apply elem_of_empty in Hin | done].
Qed.

Lemma addToMemCache_clean hc now k e hc' :
  addToMemCache hc now k e = Some hc' → dirtyKeys hc = ∅ →
  dirtyKeys hc' = ∅ ∧ diskCache hc' = diskCache hc.
Proof.
  intros Hadd Hclean.
  destruct (addToMemCache_inv _ _ _ _ _ Hadd)
    as (hc1 & Hcase & _ & _ & _ & _ & _ & Hdisk & Hdirty).
  rewrite Hdisk, Hdirty.
  destruct Hcase as [[_ Hev]|[_ ->]]; [by apply (evictOldest_clean hc now) | done].
Qed.

Lemma preloadLoop_clean records count maxPreload now :
  ∀ hc hc', preloadLoop records count maxPreload hc now = Some hc' → dirtyKeys hc = ∅ →
            dirtyKeys hc' = ∅ ∧ diskCache hc' = diskCache hc.
Proof.
  revert count. induction records as [|r records IH]; intros count hc hc' Hloop Hclean.
  - by injection Hloop as <-.
  - cbn [preloadLoop] in Hloop. destruct (count >=? maxPreload); [by injection Hloop as <-|].
    destruct (now - LastAnalyzed r <? 24 * hour).
    + apply bind_Some in Hloop as (hc1 & Hadd & Hloop).
      destruct (addToMemCache_clean _ _ _ _ _ Hadd Hclean) as [Hc1 Hd1].
      destruct (IH _ _ _ Hloop Hc1) as [Hc' Hd']. split; [done | by rewrite Hd'].
    + by apply (IH count).
Qed.

Lemma Get_clean hc now k hc' r :
  Get hc now k = Some (hc', r) → dirtyKeys hc = ∅ →
  dirtyKeys hc' = ∅ ∧ diskCache hc' = diskCache hc.
Proof.
  unfold Get. intros HG Hclean. destruct (memCache hc !! k) as [id|].
  - apply bind_Some in HG as (item & _ & HG). by injection HG as <- _.
  - destruct (GetFileRecord (diskCache hc) k) as [record|].
    + apply bind_Some in HG as (hc1 & Hadd & HG). injection HG as <- _.
      by apply (addToMemCache_clean _ _ _ _ _ Hadd).
    + by injection HG as <- _.
Qed.

Lemma run_Gets_clean ops :
  Forall (λ o, isGet o = true) ops →
  ∀ hc hc', run ops hc = Some hc' → dirtyKeys hc = ∅ →
            dirtyKeys hc' = ∅ ∧ diskCache hc' = diskCache hc.
Proof.
  induction 1 as [|o ops Ho Hops IH]; intros hc hc' Hrun Hclean.
  - by injection Hrun as <-.
  - cbn [run] in Hrun. apply bind_Some in Hrun as (hc1 & Hstep & Hrun).
    destruct o as [now k|]; [|done]. cbn [step] in Hstep.
    apply fmap_Some in Hstep as ([hc2 r] & HG & ->).
    destruct (Get_clean _ _ _ _ _ HG Hclean) as [Hc1 Hd1].
    destruct (IH _ _ Hrun Hc1) as [Hc' Hd']. split; [done | by rewrite Hd'].
Qed.

(** Reads do not write: after any number of [Get]s on a freshly built
    cache nothing is dirty and the disk store is the one the cache was
    built over, record for record, even when entries were loaded from
    it and evicted again. *)
Theorem reads_never_write disk maxItems0 now0 ops :
  diskUnique disk → diskNilFree disk → Forall (λ o, isGet o = true) ops →
  ∃ hc0 hc,
    NewHybridCache disk maxItems0 now0 = Some hc0
    ∧ run ops hc0 = Some hc
    ∧ dirtyKeys hc = ∅
    ∧ diskCache hc = disk.
Proof.
  intros Hu Hn Hgets.
  destruct (NewHybridCache_WF disk maxItems0 now0 Hu Hn) as (hc0 & Hnew & HWF0 & _).
  assert (Hops : Forall opNilFree ops).
  { eapply Forall_impl; [exact Hgets|]. by intros [|]. }
  destruct (run_spec ops hc0 HWF0 Hops) as (hc & Hrun & _).
  exists hc0, hc. split; [done|]. split; [done|].
  assert (H0 : dirtyKeys hc0 = ∅ ∧ diskCache hc0 = disk).
  { unfold NewHybridCache, preloadHotData in Hnew.
    by apply preloadLoop_clean in Hnew. }
  destruct H0 as [Hc0 Hd0].
  destruct (run_Gets_clean ops Hgets hc0 hc Hrun Hc0) as [Hc Hd].
  split; [done | by rewrite Hd].
Qed.

(** [SaveRawRecord] is an upsert: afterwards the key has the record
    built from the entry, every other key has the record it had, there
    is still one record per path, one more record than before exactly
    when the key was new, and the totals are accurate. *)
Theorem SaveRawRecord_upsert fc now k e :
  diskUnique fc → diskNilFree fc → nilFree (Entry_Issues e) →
  ∃ fc' err, SaveRawRecord fc now k e = Some (fc', err)
    ∧ GetFileRecord fc' k = Some (rawRecord now k e)
    ∧ (∀ k', k' ≠ k → GetFileRecord fc' k' = GetFileRecord fc k')
    ∧ diskUnique fc' ∧ diskNilFree fc'
    ∧ length (Files (data fc'))
      = match GetFileRecord fc k with
        | Some _ => length (Files (data fc))
        | None => Datatypes.S (length (Files (data fc)))
        end
    ∧ statsAccurate fc'
    ∧ (err = None ↔ writable fc = true)
    ∧ (writable fc = true → persisted fc' = Some (data fc')).
Proof.
  intros Hu Hn He.
  destruct (SaveRawRecord_total fc now k e Hn He) as [[fc' err] Hsave].
  exists fc', err. split; [done|].
  destruct (SaveRawRecord_inv _ _ _ _ _ _ Hsave) as (Hfiles & Hw & Hpers).
  destruct (SaveRawRecord_keeps_WF _ _ _ _ _ _ Hsave) as [Hu' Hn'].
  split; [by apply (SaveRawRecord_resets_ignored fc now k e fc' err)|].
  split.
  { intros k' Hne. unfold GetFileRecord. rewrite Hfiles, findRecord_app.
    rewrite (findRecord_removeFirst_ne k k' _ Hne).
    destruct (findRecord k' (Files (data fc))); [done|]. simpl.
    apply String.eqb_neq in Hne. rewrite String.eqb_sym in Hne. by rewrite Hne. }
  split; [by apply Hu'|]. split; [by apply Hn'|]. split.
  { rewrite Hfiles, length_app. simpl. unfold GetFileRecord.
    clear. induction (Files (data fc)) as [|r files IH]; [done|]. simpl.
    destruct (String.eqb (Path r) k); simpl; [lia|].
    destruct (findRecord k files); simpl in *; lia. }
  unfold SaveRawRecord in Hsave. apply bind_Some in Hsave as (fc1 & Hstats & Hsave).
  injection Hsave as Hsave.
  destruct (updateStats_accurate _ _ Hstats) as (Hacc & _).
  destruct (updateStats_inv _ _ Hstats) as (_ & Hw1 & _). simpl in Hw1.
  split.
  { replace fc' with (fst (saveUnsafe fc1 now)) by by rewrite Hsave.
    by apply statsAccurate_saveUnsafe. }
  split; [|done].
  rewrite <- Hw1. rewrite <- (saveUnsafe_err fc1 now). by rewrite Hsave.
Qed.

Lemma reads_never_write_witness :
  ∃ hc0 hc,
    NewHybridCache diskThree 2 (110 * hour) = Some hc0
    ∧ run [OpGet 1 "b.go"; OpGet 2 "c.go"; OpGet 3 "d.go"; OpGet 4 "nosuch.go"] hc0 = Some hc
    ∧ dirtyKeys hc = ∅
    ∧ diskCache hc = diskThree.
Proof.
  apply (reads_never_write diskThree 2 (110 * hour)
           [OpGet 1 "b.go"; OpGet 2 "c.go"; OpGet 3 "d.go"; OpGet 4 "nosuch.go"]).
  - unfold diskUnique. simpl.
    repeat (apply NoDup_cons; split;
            [intros H; repeat (apply elem_of_cons in H as [H|H]; [discriminate H|]);
             by apply elem_of_nil in H|]).
    apply NoDup_nil_2.
  - repeat constructor.
  - repeat constructor.
Defined.

Lemma SaveRawRecord_upsert_witness :
  ∃ fc' err, SaveRawRecord diskThree 7 "b.go" entryA = Some (fc', err)
    ∧ GetFileRecord fc' "b.go" = Some (rawRecord 7 "b.go" entryA)
    ∧ (∀ k', k' ≠ "b.go"%string → GetFileRecord fc' k' = GetFileRecord diskThree k')
    ∧ diskUnique fc' ∧ diskNilFree fc'
    ∧ length (Files (data fc'))
      = match GetFileRecord diskThree "b.go" with
        | Some _ => length (Files (data diskThree))
        | None => Datatypes.S (length (Files (data diskThree)))
        end
    ∧ statsAccurate fc'
    ∧ (err = None ↔ writable diskThree = true)
    ∧ (writable diskThree = true → persisted fc' = Some (data fc')).
Proof.
  apply (SaveRawRecord_upsert diskThree 7 "b.go" entryA).
  - unfold diskUnique. simpl.
    repeat (apply NoDup_cons; split;
            [intros H; repeat (apply elem_of_cons in H as [H|H]; [discriminate H|]);
             by apply elem_of_nil in H|]).
    apply NoDup_nil_2.
  - repeat constructor.
  - repeat constructor. by eexists.
Defined.

Lemma keysByRecency_NoDup hc : memOK hc → NoDup (keysByRecency hc).
Proof.
  intros Hm. unfold keysByRecency.
  assert (Hinj : ∀ x y k, x ∈ lru hc → y ∈ lru hc →
                          keyOf hc x = Some k → keyOf hc y = Some k → x = y).
  { intros x y k Hx Hy. by apply keyOf_inj. }
  destruct Hm as (Hnd & _).
  induction Hnd as [|x l Hx Hnd IH]; [constructor|]. rewrite omap_cons.
  destruct (keyOf hc x) as [k|] eqn:Hk; [|apply IH; intros; eapply Hinj; by try right].
  constructor.
  - rewrite list_elem_of_omap. intros (y & Hy & Hky).
    assert (x = y) by (eapply Hinj; [by left | by right | done | done]). by subst.
  - apply IH. intros; eapply Hinj; by try right.
Qed.

(** C4.  In a hybrid cache built over a well-formed disk store and run
    through any [Get]s and [Put]s (no flush in between): when memory is
    full, [v] is the key used longest ago, last put with entry [e], and
    the next operation brings a key into memory that is not there, then
    that operation evicts [v], and right after it the disk store holds a
    record for [v] with the hash and issues of [e], and so does the
    cache file when it can be written. *)
Theorem dirty_entry_flushed_on_eviction disk maxItems0 now0 ops o v e hc0 hc :
  diskUnique disk → diskNilFree disk → Forall opNilFree ops → opNilFree o →
  NewHybridCache disk maxItems0 now0 = Some hc0 →
  run ops hc0 = Some hc →
  lastPut v ops = Some e →
  Z.of_nat (length (lru hc)) = maxItems hc →
  last (keysByRecency hc) = Some v →
  memCache hc !! opKey o = None → touches hc o = true →
  ∃ hc',
    step hc o = Some hc'
    ∧ memCache hc' !! v = None
    ∧ (∃ r, GetFileRecord (diskCache hc') v = Some r
            ∧ Hash r = Entry_Hash e ∧ Issues r = Entry_Issues e)
    ∧ onDisk (diskCache hc') v e.
Proof.
  intros Hdu Hdnf Hops Ho Hnew Hrun Hlast Hfull Htail Hmiss Htouch.
  destruct (NewHybridCache_WF disk maxItems0 now0 Hdu Hdnf) as (hc0' & Hnew' & HWF0 & _).
  assert (hc0' = hc0) as -> by congruence.
  destruct (run_spec ops hc0 HWF0 Hops) as (hc_ & Hrun' & HWF & _ & _ & _ & Hkept & _).
  assert (hc_ = hc) as -> by congruence.
  assert (Hm := proj1 HWF).
  destruct (step_spec hc o HWF Ho) as (hc' & Hstep & HWF' & _ & _ & _ & _ & Hframe).
  destruct (step_order hc o HWF Ho) as (hc'' & Hstep' & _ & Horder).
  assert (hc'' = hc') as -> by congruence.
  rewrite Htouch in Horder.
  apply last_Some in Htail as [front Hkeys].
  assert (Hv : v ∈ keysByRecency hc) by (rewrite Hkeys; set_solver).
  assert (Hk : opKey o ∉ keysByRecency hc).
  { rewrite (keysByRecency_elem hc _ Hm), Hmiss. by intros [? ?]. }
  assert (Hne : v ≠ opKey o) by (intros ->; done).
  assert (Hgone : memCache hc' !! v = None).
  { destruct (memCache hc' !! v) as [id|] eqn:E; [|done]. exfalso.
    assert (Hin : v ∈ keysByRecency hc').
    { apply (keysByRecency_elem hc' v (proj1 HWF')). by rewrite E. }
    rewrite Horder in Hin. unfold lruTouch in Hin.
    rewrite (filter_notin_id _ _ Hk) in Hin.
    apply elem_of_cons in Hin as [Hin|Hin]; [done|].
    pose proof (keysByRecency_length hc Hm) as Hlen.
    pose proof (keysByRecency_NoDup hc Hm) as Hnd.
    rewrite Hkeys in Hin, Hlen, Hnd. rewrite length_app in Hlen. simpl in Hlen.
    rewrite take_app_length' in Hin by lia.
    apply NoDup_app in Hnd as (_ & Hdisj & _). apply (Hdisj v Hin). by left. }
  exists hc'. split; [done|]. split; [done|].
  assert (Hkept' : kept hc' v e).
  { apply Hframe; [|by apply Hkept].
    destruct o as [now k|now k e']; [done|]. simpl in *.
    destruct (String.eqb_spec k v) as [->|]; done. }
  destruct Hkept' as [[Hres _]|[_ Hon]].
  - apply resident_memCache in Hres as [? ?]. congruence.
  - split; [|done]. by destruct Hon as [Hh _].
Qed.

Lemma dirty_entry_flushed_on_eviction_witness :
  ∃ hc',
    step hybridOneA (OpPut 2 "b.go" entryB) = Some hc'
    ∧ memCache hc' !! "a.go" = None
    ∧ (∃ r, GetFileRecord (diskCache hc') "a.go" = Some r
            ∧ Hash r = Entry_Hash entryA ∧ Issues r = Entry_Issues entryA)
    ∧ onDisk (diskCache hc') "a.go" entryA.
Proof.
  apply (dirty_entry_flushed_on_eviction (diskWith []) 1 0 [OpPut 1 "a.go" entryA]
           (OpPut 2 "b.go" entryB) "a.go" entryA hybridOne hybridOneA).
  - constructor.
  - constructor.
  - repeat constructor; eexists; reflexivity.
  - constructor.
  - reflexivity.
  - reflexivity.
  - reflexivity.
  - reflexivity.
  - reflexivity.
  - reflexivity.
  - reflexivity.
Defined.
